(** * montu-map-search: the TomTom fuzzy-search client

    A shallow embedding of [src/maps-api.ts] (parameter builder, request
    executor, result mapper and the rate-limit queue of the [FuzzySearch]
    class) together with the part of [src/schema.ts] that the result mapper
    reads, and the properties of the specification stated over it.

    Conventions of the embedding:
    - a TypeScript optional field [f?: T] is an [option T]; [None] stands for
      [undefined];
    - a JavaScript [number] is a value of [number] below: NaN, the two
      infinities, or a finite value kept as a canonical rational.  The code
      only compares numbers and picks one of them ([Math.max], [Math.min]),
      so no rounding is involved;
    - a function that may throw returns a [Completion];
    - a JavaScript string is held as bytes: UTF-8, with a lone surrogate as
      the three bytes of its generalised encoding (WTF-8).  A string is well
      formed, in the sense of [String.prototype.isWellFormed], exactly when
      its bytes are well-formed UTF-8;
    - the event loop is explicit: the heap of promises, the log of
      [axios.get] calls and the table of timers are lists indexed by the
      handle that the runtime hands out, and every macro-task (a public
      method call, the transport settling a call, a timer firing) is one
      [Event] handled atomically by [step]. *)

From Stdlib Require Import ZArith QArith Qcanon Ascii String List Lia.
From stdpp Require Import base option list numbers strings.

Open Scope string_scope.
Open Scope list_scope.

(* ===================================================================== *)
(** ** JavaScript values used by the library *)

Inductive number : Type :=
| NaN
| NegInfinity
| PosInfinity
| Finite (q : Qc).

(** The relational operator [a < b] of the language: false as soon as one
    side is NaN. *)
Definition num_ltb (a b : number) : bool :=
  match a, b with
  | NaN, _ | _, NaN => false
  | NegInfinity, NegInfinity => false
  | NegInfinity, _ => true
  | _, NegInfinity => false
  | PosInfinity, _ => false
  | Finite _, PosInfinity => true
  | Finite x, Finite y =>
      match (x ?= y)%Qc with Lt => true | _ => false end
  end.

Definition num_leb (a b : number) : bool :=
  match a, b with
  | NaN, _ | _, NaN => false
  | _, _ => negb (num_ltb b a)
  end.

(** [Math.max(a, b)]: NaN if an argument is NaN, else the running maximum,
    replaced only by a strictly larger argument. *)
Definition Math_max (a b : number) : number :=
  match a, b with
  | NaN, _ | _, NaN => NaN
  | _, _ => if num_ltb a b then b else a
  end.

(** [Math.min(a, b)], symmetrically. *)
Definition Math_min (a b : number) : number :=
  match a, b with
  | NaN, _ | _, NaN => NaN
  | _, _ => if num_ltb b a then b else a
  end.

Definition of_Z (z : Z) : number := Finite (Q2Qc (inject_Z z)).

(** [Number.isInteger]. *)
Definition isInteger (a : number) : bool :=
  match a with
  | Finite q => Pos.eqb (Qden (this q)) 1
  | _ => false
  end.

(** Closed interval membership with the comparisons of the language. *)
Definition in_range (lo hi a : number) : bool :=
  num_leb lo a && num_leb a hi.

(** Errors that the library throws or lets through. *)
Record ValiError : Type := { issues : string }.

(** What makes [axios.get] reject: see the library's error handling page;
    [response_status] is [err.response?.status]. *)
Record AxiosError : Type := {
  message : string;
  response_status : option Z;
}.

Inductive JsError : Type :=
| Error (msg : string)              (* new Error(msg) *)
| TooManyRequestsError              (* new TooManyRequestsError() *)
| Validation (e : ValiError)        (* a ValiError, rethrown as caught *)
| Transport (e : AxiosError)        (* the caught transport fault itself *)
| URIError.                         (* thrown by encodeURIComponent *)

Inductive Completion (A : Type) : Type :=
| Return (a : A)
| Throw (e : JsError).
Arguments Return {A} a.
Arguments Throw {A} e.

Definition throws {A} (c : Completion A) : Prop :=
  match c with Throw _ => True | Return _ => False end.

(* ===================================================================== *)
(** ** Constants *)

Definition SEARCH_URL : string := "https://api.tomtom.com/search/2/search".
Definition COUNTRY_CODE : string := "AU".
Definition MAX_LIMIT : number := of_Z 100.
Definition DELAY_TIME : number := of_Z 5000.

(* ===================================================================== *)
(** ** Parameter builder: [getParams] *)

Record FuzzySearchOptions : Type := {
  apiKey : option string;
  delay : option number;
  limit : option number;
}.

Record AutoCompleteParams : Type := {
  key : string;
  countrySet : string;
  params_limit : number;       (* the field [limit] of the parameters *)
}.

(** [a ?? b] *)
Definition nullish {A} (a b : option A) : option A :=
  match a with
  | Some x => Some x
  | None => b
  end.

(** [!key] for [key : string | undefined]. *)
Definition not_key (k : option string) : bool :=
  match k with
  | None => true
  | Some s => bool_decide (s = "")
  end.

Definition missing_key_message : string :=
  "Missing API key or TOMTOM_API_KEY environment variable".

(** [env] is [process.env.TOMTOM_API_KEY] at the time of the call. *)
Definition getParams (env : option string) (options : FuzzySearchOptions)
  : Completion AutoCompleteParams :=
  let key := nullish (apiKey options) env in
  match key with
  | Some k =>
      if not_key key then Throw (Error missing_key_message)
      else Return {|
        key := k;
        countrySet := COUNTRY_CODE;
        params_limit :=
          match limit options with
          | None => MAX_LIMIT
          | Some l => Math_min (Math_max (of_Z 1) l) MAX_LIMIT
          end |}
  | None => Throw (Error missing_key_message)
  end.

(** The expression [Math.min(Math.max(1, l), MAX_LIMIT)] of [getParams]. *)
Definition clamp_limit (l : number) : number :=
  Math_min (Math_max (of_Z 1) l) MAX_LIMIT.

(** The options object [{}] used when the argument is left out. *)
Definition no_options : FuzzySearchOptions :=
  {| apiKey := None; delay := None; limit := None |}.

(* ===================================================================== *)
(** ** The validated response ([src/schema.ts])

    The records list the fields of [addressSchema] and the common fields of
    a result that are plain values; the optional nested groups of a result
    ([mapcodes], [entryPoints], [poi], ...) are never read by the library
    and are left out. *)

Module Schema.

Record Address : Type := {
  streetNumber : option string;
  streetName : string;
  municipalitySubdivision : option string;
  municipalitySecondarySubdivision : option string;
  neighbourhood : option string;
  municipality : option string;
  countrySecondarySubdivision : option string;
  countryTertiarySubdivision : option string;
  countrySubdivision : option string;
  postalCode : option string;
  postalName : option string;
  extendedPostalCode : option string;
  countryCode : string;
  country : string;
  countryCodeISO3 : string;
  freeformAddress : string;
  countrySubdivisionName : option string;
  countrySubdivisionCode : option string;
  localName : option string;
}.

Record LatLon : Type := { lat : number; lon : number }.

Record Viewport : Type := { topLeftPoint : LatLon; btmRightPoint : LatLon }.

Inductive ResultType : Type :=
| POI | Geography | AddressRange | Street | PointAddress | CrossStreet.

Record SearchResult : Type := {
  type : ResultType;
  id : string;
  score : number;
  dist : option number;
  info : option string;
  address : Address;
  position : LatLon;
  viewport : Viewport;
}.

Record Summary : Type := {
  query : string;
  queryTime : number;
  numResults : number;
  offset : number;
  totalResults : number;
  fuzzyLevel : number;
}.

Record SearchResponse : Type := {
  summary : Summary;
  results : list SearchResult;
}.

End Schema.

(* ===================================================================== *)
(** ** Result mapper: [toAutoCompleteResult] *)

Record AutoCompleteResult : Type := {
  placeId : string;
  streetNumber : option string;
  countryCode : string;
  country : string;
  freeformAddress : string;
  municipality : option string;
}.

Definition toAutoCompleteResult (result : Schema.SearchResult)
  : AutoCompleteResult :=
  let address := Schema.address result in
  {| placeId := Schema.id result;
     streetNumber := Schema.streetNumber address;
     countryCode := Schema.countryCode address;
     country := Schema.country address;
     freeformAddress := Schema.freeformAddress address;
     municipality := Schema.municipality address |}.

(* ===================================================================== *)
(** ** Request executor: [getAutoCompleteResults] *)

Record AutoCompleteOptions : Type := {
  signal : option nat;          (* an AbortSignal, by its identity *)
  timeout : option number;
}.

Definition default_options : AutoCompleteOptions :=
  {| signal := None; timeout := None |}.

(** Well-formed strings: the byte sequences of the Unicode standard's table
    of well-formed UTF-8.  The three bytes of a lone surrogate ([ED] followed
    by [A0]..[BF]) are not among them. *)
Definition byte_in (lo hi : nat) (c : ascii) : bool :=
  let n := nat_of_ascii c in Nat.leb lo n && Nat.leb n hi.

Fixpoint isWellFormed (s : string) : bool :=
  match s with
  | EmptyString => true
  | String b0 s1 =>
      if byte_in 0 127 b0 then isWellFormed s1
      else
        match s1 with
        | EmptyString => false
        | String b1 s2 =>
            if byte_in 194 223 b0 then byte_in 128 191 b1 && isWellFormed s2
            else
              match s2 with
              | EmptyString => false
              | String b2 s3 =>
                  if byte_in 224 239 b0 then
                    (if byte_in 224 224 b0 then byte_in 160 191 b1
                     else if byte_in 237 237 b0 then byte_in 128 159 b1
                     else byte_in 128 191 b1)
                    && byte_in 128 191 b2 && isWellFormed s3
                  else
                    match s3 with
                    | EmptyString => false
                    | String b3 s4 =>
                        byte_in 240 244 b0
                        && (if byte_in 240 240 b0 then byte_in 144 191 b1
                            else if byte_in 244 244 b0 then byte_in 128 143 b1
                            else byte_in 128 191 b1)
                        && byte_in 128 191 b2 && byte_in 128 191 b3
                        && isWellFormed s4
                    end
              end
        end
  end.

(** Percent-encoding of the UTF-8 bytes: the unreserved characters are kept,
    every other byte becomes [%XX]. *)
Definition unreserved (c : ascii) : bool :=
  let n := nat_of_ascii c in
  (Nat.leb 65 n && Nat.leb n 90) || (Nat.leb 97 n && Nat.leb n 122)
  || (Nat.leb 48 n && Nat.leb n 57)
  || existsb (Nat.eqb n) [45; 95; 46; 33; 126; 42; 39; 40; 41]%nat.

Definition hex_digit (n : nat) : ascii :=
  ascii_of_nat (if Nat.ltb n 10 then 48 + n else 55 + n)%nat.

Fixpoint percent_encode (s : string) : string :=
  match s with
  | EmptyString => EmptyString
  | String c rest =>
      if unreserved c then String c (percent_encode rest)
      else
        let n := nat_of_ascii c in
        String "%" (String (hex_digit (n / 16)%nat) (String (hex_digit (n mod 16)%nat)
          (percent_encode rest)))
  end.

(** The built-in [encodeURIComponent]: it throws a [URIError] on a string
    that holds a lone surrogate, and percent-encodes the UTF-8 bytes of any
    other string. *)
Definition encodeURIComponent (s : string) : Completion string :=
  if isWellFormed s then Return (percent_encode s) else Throw URIError.

(** The arguments of the one [axios.get] call: the URL and the config
    [{ ...options, params }]. *)
Record AxiosRequest : Type := {
  url : string;
  config_options : AutoCompleteOptions;
  config_params : AutoCompleteParams;
}.

(** The synchronous prefix of [getAutoCompleteResults], up to the [await]:
    the address is encoded outside the [try], so when the encoding throws
    the function throws before [axios.get] is called; otherwise these are
    the arguments of the call. *)
Definition getAutoCompleteResults_request (params : AutoCompleteParams)
    (address : string) (options : AutoCompleteOptions)
  : Completion AxiosRequest :=
  match encodeURIComponent address with
  | Throw err => Throw err
  | Return query =>
      Return {| url := (SEARCH_URL ++ "/" ++ query ++ ".json")%string;
                config_options := options;
                config_params := params |}
  end.

(** The [catch] block: what was caught is either the validator's error or
    the fault the transport rejected with. *)
Definition getAutoCompleteResults_catch (err : ValiError + AxiosError)
  : JsError :=
  match err with
  | inl e => Validation e
  | inr error =>
      if bool_decide (response_status error = Some 429%Z)
      then TooManyRequestsError
      else Transport error
  end.

(** How the promise of [axios.get] settles; [Data] is the type of
    [res.data]. *)
Inductive AxiosOutcome (Data : Type) : Type :=
| AxiosResolve (data : Data)
| AxiosReject (err : AxiosError).
Arguments AxiosResolve {Data} data.
Arguments AxiosReject {Data} err.

(* ===================================================================== *)
(** ** The rate-limit queue: class [FuzzySearch] *)

(** A queued request; [resolve] and [reject] are the two functions captured
    from the executor of [promise], so they are the promise's handle. *)
Record QueuedRequest : Type := {
  address : string;
  options : AutoCompleteOptions;
  promise : nat;
}.

Record FuzzySearch : Type := {
  _delay : number;
  _params : AutoCompleteParams;
  _queue : option (list QueuedRequest);
  _timeout : option nat;        (* the handle returned by setTimeout *)
}.

(** The constructor. *)
Definition new_FuzzySearch (env : option string) (options : FuzzySearchOptions)
  : Completion FuzzySearch :=
  match getParams env options with
  | Throw e => Throw e
  | Return params =>
      Return {| _delay := default DELAY_TIME (delay options);
                _params := params;
                _queue := None;
                _timeout := None |}
  end.

(** A promise: pending, settled, or resolved with another promise whose
    state it follows (what [return request.promise] does to the promise of
    the [async] method). *)
Inductive PromiseState : Type :=
| Pending
| Fulfilled (v : list AutoCompleteResult)
| Rejected (e : JsError)
| Adopted (p : nat).

Inductive TimerState : Type := TimerPending | TimerFired | TimerCleared.

Record Timer : Type := { timer_delay : number; timer_state : TimerState }.

(** Where an [axios.get] call was awaited, that is, who continues when it
    settles. *)
Inductive Continuation : Type :=
| InRunAutoComplete (p : nat) (address : string) (options : AutoCompleteOptions)
| InDrain (req : QueuedRequest).

Record Call : Type := {
  request : AxiosRequest;
  cont : Continuation;
  settled : bool;
}.

(** The client and the runtime around it. *)
Record World : Type := {
  client : FuzzySearch;
  promises : list PromiseState;
  calls : list Call;            (* every axios.get call so far, in order *)
  timers : list Timer;
}.

Definition boot (c : FuzzySearch) : World :=
  {| client := c; promises := []; calls := []; timers := [] |}.

Definition set_client (c : FuzzySearch) (w : World) : World :=
  {| client := c; promises := promises w; calls := calls w; timers := timers w |}.

Definition set_promises (ps : list PromiseState) (w : World) : World :=
  {| client := client w; promises := ps; calls := calls w; timers := timers w |}.

Definition set_calls (cs : list Call) (w : World) : World :=
  {| client := client w; promises := promises w; calls := cs; timers := timers w |}.

Definition set_timers (ts : list Timer) (w : World) : World :=
  {| client := client w; promises := promises w; calls := calls w; timers := ts |}.

Definition set_queue (q : option (list QueuedRequest)) (c : FuzzySearch)
  : FuzzySearch :=
  {| _delay := _delay c; _params := _params c; _queue := q;
     _timeout := _timeout c |}.

Definition set_timeout (t : option nat) (c : FuzzySearch) : FuzzySearch :=
  {| _delay := _delay c; _params := _params c; _queue := _queue c;
     _timeout := t |}.

(** Settling a promise has an effect only while it is pending. *)
Definition settle (p : nat) (st : PromiseState) (w : World) : World :=
  match promises w !! p with
  | Some Pending => set_promises (<[p := st]> (promises w)) w
  | _ => w
  end.

(** The state a consumer of promise [p] observes. *)
Fixpoint observe (fuel : nat) (ps : list PromiseState) (p : nat)
  : PromiseState :=
  match ps !! p with
  | Some (Adopted q) =>
      match fuel with
      | O => Pending
      | S fuel' => observe fuel' ps q
      end
  | Some st => st
  | None => Pending
  end.

Definition future (w : World) (p : nat) : PromiseState :=
  observe (length (promises w)) (promises w) p.

(** [new Promise(...)]: the handle of the new pending promise. *)
Definition new_promise (w : World) : World * nat :=
  (set_promises (promises w ++ [Pending]) w, length (promises w)).

Definition createQueuedRequest (address : string)
    (options : AutoCompleteOptions) (w : World) : World * QueuedRequest :=
  let '(w1, p) := new_promise w in
  (w1, {| address := address; options := options; promise := p |}).

(** [axios.get(url, config)], awaited at [k]: the call is issued and logged
    with its continuation. *)
Definition new_call (req : AxiosRequest) (k : Continuation) : Call :=
  {| request := req; cont := k; settled := false |}.

Definition axios_get (req : AxiosRequest) (k : Continuation) (w : World)
  : World :=
  set_calls (calls w ++ [new_call req k]) w.

(** [setTimeout(callback, this.#delay)]; the only callback ever registered
    is the drain of [_handleDelay]. *)
Definition setTimeout (w : World) : World * nat :=
  (set_timers (timers w ++ [{| timer_delay := _delay (client w);
                               timer_state := TimerPending |}]) w,
   length (timers w)).

Definition with_state (st : TimerState) (tm : Timer) : Timer :=
  {| timer_delay := timer_delay tm; timer_state := st |}.

Definition mark_timer (t : nat) (st : TimerState) (w : World) : World :=
  match timers w !! t with
  | Some tm => set_timers (<[t := with_state st tm]> (timers w)) w
  | None => w
  end.

(** [clearTimeout(handle)]: cancels a timer that is still pending. *)
Definition clearTimeout (handle : option nat) (w : World) : World :=
  match handle with
  | Some t =>
      match timers w !! t with
      | Some {| timer_state := TimerPending |} => mark_timer t TimerCleared w
      | _ => w
      end
  | None => w
  end.

Definition _handleDelay (request : QueuedRequest) (w : World) : World :=
  match _queue (client w) with
  | None =>
      let w1 := set_client (set_queue (Some [request]) (client w)) w in
      let '(w2, t) := setTimeout w1 in
      set_client (set_timeout (Some t) (client w2)) w2
  | Some queue =>
      set_client (set_queue (Some (queue ++ [request])) (client w)) w
  end.

(** The [catch] block of [_runAutoComplete]; [p] is the promise of the
    [async] method. *)
Definition _runAutoComplete_catch (p : nat) (address : string)
    (options : AutoCompleteOptions) (err : JsError) (w : World) : World :=
  match err with
  | TooManyRequestsError =>
      let '(w1, request) := createQueuedRequest address options w in
      let w2 := _handleDelay request w1 in
      settle p (Adopted (promise request)) w2
  | _ => settle p (Rejected err) w
  end.

(** [_runAutoComplete] up to its [await]: the promise of the [async] method
    and the call it waits for.  When [getAutoCompleteResults] throws before
    its call, the [await] throws at once and the [catch] block runs in the
    same task. *)
Definition _runAutoComplete (address : string) (options : AutoCompleteOptions)
    (w : World) : World * nat :=
  let '(w1, p) := new_promise w in
  match getAutoCompleteResults_request (_params (client w1)) address options with
  | Return req => (axios_get req (InRunAutoComplete p address options) w1, p)
  | Throw err => (_runAutoComplete_catch p address options err w1, p)
  end.

(** The public method: the new world and the promise handed to the caller. *)
Definition autoComplete (address : string) (options : AutoCompleteOptions)
    (w : World) : World * nat :=
  match _queue (client w) with
  | None => _runAutoComplete address options w
  | Some queue =>
      let '(w1, request) := createQueuedRequest address options w in
      (set_client (set_queue (Some (queue ++ [request])) (client w1)) w1,
       promise request)
  end.

Definition clearing_queue : JsError := Error "Clearing queue".

Definition dispose (w : World) : World :=
  let w1 :=
    match _queue (client w) with
    | Some queue =>
        fold_left (fun w' req => settle (promise req) (Rejected clearing_queue) w')
                  queue w
    | None => w
    end in
  clearTimeout (_timeout (client w1)) w1.

(** The function mapped over the queue by the timer's callback, up to its
    [await]: the call is issued, or, when [getAutoCompleteResults] throws
    before its call, the [catch] block rejects the request. *)
Definition drain_request (req : QueuedRequest) (w : World) : World :=
  match getAutoCompleteResults_request (_params (client w)) (address req)
          (options req) with
  | Return r => axios_get r (InDrain req) w
  | Throw err => settle (promise req) (Rejected err) w
  end.

(** The callback given to [setTimeout] in [_handleDelay]. *)
Definition drain (w : World) : World :=
  match _queue (client w) with
  | Some queue =>
      let w1 := fold_left (fun w' req => drain_request req w') queue w in
      set_client (set_queue None (client w1)) w1
  | None => w
  end.

Definition settled_call (call : Call) : Call :=
  {| request := request call; cont := cont call; settled := true |}.

Definition mark_settled (c : nat) (w : World) : World :=
  match calls w !! c with
  | Some call => set_calls (<[c := settled_call call]> (calls w)) w
  | None => w
  end.

(** One macro-task of the event loop. *)
Inductive Event (Data : Type) : Type :=
| CallAutoComplete (address : string) (options : AutoCompleteOptions)
| CallDispose
| AxiosSettles (c : nat) (o : AxiosOutcome Data)
| TimerFires (t : nat).
Arguments CallAutoComplete {Data} address options.
Arguments CallDispose {Data}.
Arguments AxiosSettles {Data} c o.
Arguments TimerFires {Data} t.

(** The two states of the queue. *)
Definition Idle (w : World) : Prop := _queue (client w) = None.
Definition Draining (w : World) : Prop := _queue (client w) <> None.

(** The promise a continuation settles. *)
Definition cont_promise (k : Continuation) : nat :=
  match k with
  | InRunAutoComplete p _ _ => p
  | InDrain req => promise req
  end.

(** What a settled lookup makes of the promise waiting for it. *)
Definition outcome_state (r : Completion (list AutoCompleteResult))
  : PromiseState :=
  match r with
  | Return results => Fulfilled results
  | Throw err => Rejected err
  end.

Definition pending_timer (w : World) (t : nat) : Prop :=
  exists tm, timers w !! t = Some tm /\ timer_state tm = TimerPending.

(** The request record built by [createQueuedRequest] around promise [p]. *)
Definition queued (address : string) (options : AutoCompleteOptions) (p : nat)
  : QueuedRequest :=
  {| address := address; options := options; promise := p |}.

(** The timer registered by [setTimeout] in world [w]. *)
Definition fresh_timer (w : World) : Timer :=
  {| timer_delay := _delay (client w); timer_state := TimerPending |}.

(** Rejecting every request of a queue, as [dispose] does. *)
Definition reject_all (queue : list QueuedRequest) (w : World) : World :=
  fold_left (fun w' req => settle (promise req) (Rejected clearing_queue) w')
            queue w.

(** The request that is sent for an address that can be encoded. *)
Definition encoded_request (params : AutoCompleteParams) (address : string)
    (options : AutoCompleteOptions) : AxiosRequest :=
  {| url := (SEARCH_URL ++ "/" ++ percent_encode address ++ ".json")%string;
     config_options := options;
     config_params := params |}.

(** The calls of a drain wave: one per queued request whose address can be
    encoded, in queue order. *)
Definition drain_call (params : AutoCompleteParams) (req : QueuedRequest)
  : option Call :=
  match getAutoCompleteResults_request params (address req) (options req) with
  | Return r => Some (new_call r (InDrain req))
  | Throw _ => None
  end.

Definition drain_calls (params : AutoCompleteParams)
    (queue : list QueuedRequest) : list Call :=
  omap (drain_call params) queue.

(** The queued requests whose address can be encoded, in queue order. *)
Definition encodable (queue : list QueuedRequest) : list QueuedRequest :=
  List.filter (fun req => isWellFormed (address req)) queue.

(** The call of the drain for such a request. *)
Definition retry_call (params : AutoCompleteParams) (req : QueuedRequest)
  : Call :=
  new_call (encoded_request params (address req) (options req)) (InDrain req).

(** The rejections of a drain wave: the queued requests whose address
    cannot be encoded. *)
Definition drain_reject (params : AutoCompleteParams) (req : QueuedRequest)
    (w : World) : World :=
  match getAutoCompleteResults_request params (address req) (options req) with
  | Return _ => w
  | Throw err => settle (promise req) (Rejected err) w
  end.

Definition drain_rejects (params : AutoCompleteParams)
    (queue : list QueuedRequest) (w : World) : World :=
  fold_left (fun w' req => drain_reject params req w') queue w.

(** Whether a lookup failed with the rate-limit error, the only failure
    that [_runAutoComplete] recovers from. *)
Definition rate_limited (r : Completion (list AutoCompleteResult)) : bool :=
  match r with
  | Throw TooManyRequestsError => true
  | _ => false
  end.

(** Well-formed worlds: the handles kept by the client, the queue and the
    pending continuations all exist, and a pending timer is the one the
    client holds while it is draining. *)
Record wf (w : World) : Prop := {
  wf_timeout : Draining w -> _timeout (client w) <> None;
  wf_timer : forall t, pending_timer w t ->
             _timeout (client w) = Some t /\ Draining w;
  wf_calls : forall c call, calls w !! c = Some call ->
             cont_promise (cont call) < length (promises w);
  wf_queue : forall queue req, _queue (client w) = Some queue -> req ∈ queue ->
             promise req < length (promises w);
}.

(** A queue left behind by [dispose]: set, with no timer to drain it. *)
Definition stranded (w : World) : Prop :=
  Draining w /\ forall t, ~ pending_timer w t.

(** No call in the log continues into promise [p]. *)
Definition calls_avoid (p : nat) (w : World) : Prop :=
  forall c call, calls w !! c = Some call -> cont_promise (cont call) <> p.

(* ===================================================================== *)
(** ** Fixtures of the unit tests

    The mocked transport of [unit.test.ts]: a response body is given by
    what the validator makes of it. *)

Definition MockData : Type := (ValiError + Schema.SearchResponse)%type.

Definition mock_parseResponse (data : MockData)
  : ValiError + Schema.SearchResponse := data.

Definition test_address (street free : string) : Schema.Address :=
  {| Schema.streetNumber := None;
     Schema.streetName := street;
     Schema.municipalitySubdivision := None;
     Schema.municipalitySecondarySubdivision := None;
     Schema.neighbourhood := None;
     Schema.municipality := None;
     Schema.countrySecondarySubdivision := None;
     Schema.countryTertiarySubdivision := None;
     Schema.countrySubdivision := None;
     Schema.postalCode := None;
     Schema.postalName := None;
     Schema.extendedPostalCode := None;
     Schema.countryCode := "AU";
     Schema.country := "Australia";
     Schema.countryCodeISO3 := "AUS";
     Schema.freeformAddress := free;
     Schema.countrySubdivisionName := None;
     Schema.countrySubdivisionCode := None;
     Schema.localName := None |}.

Definition test_point : Schema.LatLon :=
  {| Schema.lat := of_Z (-25); Schema.lon := of_Z 133 |}.

Definition test_result (id street free : string) : Schema.SearchResult :=
  {| Schema.type := Schema.Street;
     Schema.id := id;
     Schema.score := of_Z 1;
     Schema.dist := None;
     Schema.info := None;
     Schema.address := test_address street free;
     Schema.position := test_point;
     Schema.viewport := {| Schema.topLeftPoint := test_point;
                           Schema.btmRightPoint := test_point |} |}.

Definition VALID_RESPONSE : Schema.SearchResponse :=
  {| Schema.summary :=
       {| Schema.query := "Test address";
          Schema.queryTime := of_Z 100;
          Schema.numResults := of_Z 2;
          Schema.offset := of_Z 0;
          Schema.totalResults := of_Z 2;
          Schema.fuzzyLevel := of_Z 1 |};
     Schema.results :=
       [ test_result "test1" "Test street 1" "First test street";
         test_result "test2" "Test street 2" "Second test street" ] |}.

Definition VALID_RESULTS : list AutoCompleteResult :=
  [ {| placeId := "test1"; streetNumber := None; countryCode := "AU";
       country := "Australia"; freeformAddress := "First test street";
       municipality := None |};
    {| placeId := "test2"; streetNumber := None; countryCode := "AU";
       country := "Australia"; freeformAddress := "Second test street";
       municipality := None |} ].

Definition mock_valid : AxiosOutcome MockData := AxiosResolve (inr VALID_RESPONSE).

Definition mock_invalid : AxiosOutcome MockData :=
  AxiosResolve (inl {| issues := "Invalid type" |}).

Definition mock_status (status : Z) : AxiosOutcome MockData :=
  AxiosReject {| message := "Request failed"; response_status := Some status |}.

Definition mock_network_failure : AxiosOutcome MockData :=
  AxiosReject {| message := "Failed"; response_status := None |}.

Definition test_options (l : option number) : FuzzySearchOptions :=
  {| apiKey := Some "test"; delay := Some (of_Z 500); limit := l |}.

Definition test_params : AutoCompleteParams :=
  {| key := "test"; countrySet := "AU"; params_limit := of_Z 100 |}.

(** [new FuzzySearch({ apiKey: 'test', delay: 500 })]. *)
Definition test_client : FuzzySearch :=
  {| _delay := of_Z 500; _params := test_params; _queue := None;
     _timeout := None |}.

Definition test_world : World := boot test_client.

(** The string ['\uD800'], a lone high surrogate, in its three bytes. *)
Definition lone_surrogate : string :=
  String (ascii_of_nat 237) (String (ascii_of_nat 160)
    (String (ascii_of_nat 128) EmptyString)).

Definition rate_limit_fault : AxiosError :=
  {| message := "Request failed with status code 429";
     response_status := Some 429%Z |}.

(* ===================================================================== *)
(** ** Measures and helpers for the properties of the whole client *)

(** Percent-decoding of a URL segment: [%XY] becomes the byte with hex
    digits [X] and [Y], every other character is kept.  It is not part of
    the library; it is the inverse that shows which address a URL stands
    for. *)
Definition hex_value (c : ascii) : nat :=
  let n := nat_of_ascii c in
  if Nat.leb 65 n then (n - 55)%nat else (n - 48)%nat.

Fixpoint percent_decode (s : string) : string :=
  match s with
  | EmptyString => EmptyString
  | String c rest =>
      match c, rest with
      | "%"%char, String h (String l rest') =>
          String (ascii_of_nat (16 * hex_value h + hex_value l))
                 (percent_decode rest')
      | _, _ => String c (percent_decode rest)
      end
  end.

(** The address and the options a continuation was started with. *)
Definition cont_address (k : Continuation) : string :=
  match k with
  | InRunAutoComplete _ a _ => a
  | InDrain req => address req
  end.

Definition cont_options (k : Continuation) : AutoCompleteOptions :=
  match k with
  | InRunAutoComplete _ _ o => o
  | InDrain req => options req
  end.

(** A first attempt that has not been answered yet. *)
Definition first_attempt_in_flight (call : Call) : bool :=
  match cont call with
  | InRunAutoComplete _ _ _ => negb (settled call)
  | InDrain _ => false
  end.

Fixpoint first_attempts_in_flight (cs : list Call) : nat :=
  match cs with
  | [] => 0
  | call :: rest =>
      (if first_attempt_in_flight call then 1 else 0)
      + first_attempts_in_flight rest
  end.

Definition queue_length (w : World) : nat :=
  match _queue (client w) with
  | Some queue => length queue
  | None => 0
  end.

(** The calls to [autoComplete] among a list of events. *)
Fixpoint submissions {Data : Type} (events : list (Event Data)) : nat :=
  match events with
  | [] => 0
  | CallAutoComplete _ _ :: rest => S (submissions rest)
  | _ :: rest => submissions rest
  end.

(** A transport that answers every request the same way. *)
Definition mock_transport (out : AxiosOutcome MockData)
  : AxiosRequest -> AxiosOutcome MockData :=
  fun _ => out.

(** Sound queues: the queued requests have pairwise distinct promises, no
    call in the log continues into one of them, and they are all pending
    as long as the timer is. *)
Record queue_sound (w : World) : Prop := {
  qs_nodup : forall queue, _queue (client w) = Some queue ->
             NoDup (promise <$> queue);
  qs_calls : forall queue req c call,
             _queue (client w) = Some queue -> req ∈ queue ->
             calls w !! c = Some call ->
             cont_promise (cont call) <> promise req;
  qs_pending : forall queue req t,
             _queue (client w) = Some queue -> pending_timer w t ->
             req ∈ queue -> promises w !! promise req = Some Pending;
}.

(** The promise a call continues into. *)
Definition awaited (call : Call) : nat := cont_promise (cont call).

(** Sound call logs: no two calls continue into the same promise, and the
    promise of a call that is not answered yet is pending. *)
Record calls_sound (w : World) : Prop := {
  cs_nodup : NoDup (awaited <$> calls w);
  cs_pending : forall c call,
               calls w !! c = Some call -> settled call = false ->
               promises w !! cont_promise (cont call) = Some Pending;
}.

(* ===================================================================== *)
(** ** The asynchronous half of the client

    Everything from here on is relative to the validator: [parseResponse]
    is the function of [src/schema.ts], which returns the typed response or
    throws a [ValiError]. *)

Section Client.

Context {Data : Type} (parseResponse : Data -> ValiError + Schema.SearchResponse).

(** The rest of [getAutoCompleteResults], once [axios.get] has settled. *)
Definition getAutoCompleteResults_resume (o : AxiosOutcome Data)
  : Completion (list AutoCompleteResult) :=
  match o with
  | AxiosResolve data =>
      match parseResponse data with
      | inr res => Return (map toAutoCompleteResult (Schema.results res))
      | inl e => Throw (getAutoCompleteResults_catch (inl e))
      end
  | AxiosReject err => Throw (getAutoCompleteResults_catch (inr err))
  end.

(** The rest of [_runAutoComplete] once its call has settled. *)
Definition _runAutoComplete_resume (p : nat) (address : string)
    (options : AutoCompleteOptions) (o : AxiosOutcome Data) (w : World) : World :=
  match getAutoCompleteResults_resume o with
  | Return results => settle p (Fulfilled results) w
  | Throw err => _runAutoComplete_catch p address options err w
  end.

(** The rest of the drain's per-request function once its call has settled. *)
Definition drain_resume (req : QueuedRequest) (o : AxiosOutcome Data)
    (w : World) : World :=
  match getAutoCompleteResults_resume o with
  | Return results => settle (promise req) (Fulfilled results) w
  | Throw err => settle (promise req) (Rejected err) w
  end.

(** One macro-task.  An event that cannot happen (a call that is unknown or
    already settled, a timer that is not pending) changes nothing. *)
Definition step (w : World) (e : Event Data) : World :=
  match e with
  | CallAutoComplete address options => fst (autoComplete address options w)
  | CallDispose => dispose w
  | AxiosSettles c o =>
      match calls w !! c with
      | Some {| cont := k; settled := false |} =>
          let w1 := mark_settled c w in
          match k with
          | InRunAutoComplete p address options =>
              _runAutoComplete_resume p address options o w1
          | InDrain req => drain_resume req o w1
          end
      | _ => w
      end
  | TimerFires t =>
      match timers w !! t with
      | Some {| timer_state := TimerPending |} => drain (mark_timer t TimerFired w)
      | _ => w
      end
  end.

Definition run (w : World) (events : list (Event Data)) : World :=
  fold_left step events w.

(** The worlds a client can be in: those reached from a freshly constructed
    client by any sequence of events. *)
Definition reachable (w : World) : Prop :=
  exists env options c events,
    new_FuzzySearch env options = Return c /\ w = run (boot c) events.

Local Abbreviation resume := getAutoCompleteResults_resume.

(** [getAutoCompleteResults] as one function of the transport: [transport]
    gives the way [axios.get] settles for a request. *)
Definition getAutoCompleteResults (transport : AxiosRequest -> AxiosOutcome Data)
    (params : AutoCompleteParams) (address : string)
    (options : AutoCompleteOptions) : Completion (list AutoCompleteResult) :=
  match getAutoCompleteResults_request params address options with
  | Throw err => Throw err
  | Return req => getAutoCompleteResults_resume (transport req)
  end.

(** The one-shot function of [src/index.ts]: default parameters, one
    lookup.  [options] is optional; left out, the default [{}] of
    [getAutoCompleteResults] applies. *)
Definition getAutoCompleteDetails (env : option string)
    (transport : AxiosRequest -> AxiosOutcome Data) (address : string)
    (options : option AutoCompleteOptions)
  : Completion (list AutoCompleteResult) :=
  match getParams env no_options with
  | Throw e => Throw e
  | Return params =>
      getAutoCompleteResults transport params address
        (default default_options options)
  end.

(* ===================================================================== *)
(** * Properties *)

(** ** Numbers *)

Lemma num_ltb_Finite (x y : Qc) :
  num_ltb (Finite x) (Finite y) = true <-> (x < y)%Qc.
Proof.
  cbn [num_ltb]. rewrite Qclt_alt.
  destruct (x ?= y)%Qc; split; intros H; congruence.
Qed.

Lemma num_ltb_Finite_false (x y : Qc) :
  num_ltb (Finite x) (Finite y) = false <-> (y <= x)%Qc.
Proof.
  rewrite Qcle_ngt, <- num_ltb_Finite.
  destruct (num_ltb (Finite x) (Finite y)); split; intros H; congruence.
Qed.

Lemma one_lt_hundred : (Q2Qc (inject_Z 1) < Q2Qc (inject_Z 100))%Qc.
Proof. apply Qclt_alt. reflexivity. Qed.

Lemma clamp_limit_below (l : number) :
  num_ltb l (of_Z 1) = true -> clamp_limit l = of_Z 1.
Proof.
  destruct l as [| | |q]; try discriminate; try reflexivity.
  unfold clamp_limit, MAX_LIMIT, of_Z. intros H.
  apply num_ltb_Finite in H.
  assert (H1 : num_ltb (Finite (Q2Qc (inject_Z 1))) (Finite q) = false).
  { apply num_ltb_Finite_false. now apply Qclt_le_weak. }
  unfold Math_max. rewrite H1. reflexivity.
Qed.

Lemma clamp_limit_above (l : number) :
  num_ltb MAX_LIMIT l = true -> clamp_limit l = MAX_LIMIT.
Proof.
  destruct l as [| | |q]; try discriminate; try reflexivity.
  unfold clamp_limit, MAX_LIMIT, of_Z. intros H.
  assert (H1 : num_ltb (Finite (Q2Qc (inject_Z 1))) (Finite q) = true).
  { apply num_ltb_Finite. apply num_ltb_Finite in H.
    eapply Qclt_trans; [apply one_lt_hundred | exact H]. }
  unfold Math_max. rewrite H1. unfold Math_min. rewrite H. reflexivity.
Qed.

Lemma clamp_limit_within (l : number) :
  in_range (of_Z 1) MAX_LIMIT l = true -> clamp_limit l = l.
Proof.
  destruct l as [| | |q]; try discriminate.
  unfold in_range, num_leb, clamp_limit, MAX_LIMIT, of_Z.
  intros H. apply andb_prop in H as [H1 H2].
  apply negb_true_iff in H1, H2.
  unfold Math_min, Math_max.
  destruct (num_ltb (Finite (Q2Qc (inject_Z 1))) (Finite q)) eqn:E.
  - now rewrite H2.
  - apply num_ltb_Finite_false in E. apply num_ltb_Finite_false in H1.
    rewrite (Qcle_antisym _ _ E H1) in *. now rewrite H2.
Qed.

(** Every number but NaN is below, within or above the range. *)
Lemma number_trichotomy (l : number) :
  l = NaN \/ num_ltb l (of_Z 1) = true
  \/ in_range (of_Z 1) MAX_LIMIT l = true \/ num_ltb MAX_LIMIT l = true.
Proof.
  destruct l as [| | |q]; auto.
  right. unfold in_range, num_leb, MAX_LIMIT, of_Z.
  destruct (num_ltb (Finite q) (Finite (Q2Qc (inject_Z 1)))); auto.
  destruct (num_ltb (Finite (Q2Qc (inject_Z 100))) (Finite q)); auto.
Qed.

Lemma in_range_bounds :
  in_range (of_Z 1) MAX_LIMIT (of_Z 1) = true
  /\ in_range (of_Z 1) MAX_LIMIT MAX_LIMIT = true.
Proof. split; reflexivity. Qed.

Lemma clamp_limit_in_range (l : number) :
  l <> NaN -> in_range (of_Z 1) MAX_LIMIT (clamp_limit l) = true.
Proof.
  intros Hn. destruct (number_trichotomy l) as [H | [H | [H | H]]].
  - contradiction.
  - rewrite (clamp_limit_below _ H). apply in_range_bounds.
  - now rewrite (clamp_limit_within _ H).
  - rewrite (clamp_limit_above _ H). apply in_range_bounds.
Qed.

Lemma clamp_limit_integer (l : number) :
  isInteger l = true -> isInteger (clamp_limit l) = true.
Proof.
  intros Hi. destruct (number_trichotomy l) as [H | [H | [H | H]]].
  - now subst l.
  - now rewrite (clamp_limit_below _ H).
  - now rewrite (clamp_limit_within _ H).
  - now rewrite (clamp_limit_above _ H).
Qed.

(** ** Parameter builder *)

Lemma getParams_Some (env : option string) (o : FuzzySearchOptions) (k : string) :
  nullish (apiKey o) env = Some k -> k <> "" ->
  getParams env o =
    Return {| key := k; countrySet := COUNTRY_CODE;
              params_limit := match limit o with
                              | None => MAX_LIMIT
                              | Some l => clamp_limit l
                              end |}.
Proof.
  intros Hk Hne. unfold getParams. rewrite Hk. cbn [not_key].
  rewrite bool_decide_eq_false_2 by assumption. reflexivity.
Qed.

Lemma getParams_Return (env : option string) (o : FuzzySearchOptions)
    (p : AutoCompleteParams) :
  getParams env o = Return p ->
  nullish (apiKey o) env = Some (key p) /\ key p <> ""
  /\ countrySet p = COUNTRY_CODE
  /\ params_limit p = match limit o with
                      | None => MAX_LIMIT
                      | Some l => clamp_limit l
                      end.
Proof.
  unfold getParams. destruct (nullish (apiKey o) env) as [k|]; [|discriminate].
  cbn [not_key]. destruct (bool_decide_reflect (k = "")); [discriminate|].
  intros [= <-]. auto.
Qed.

Lemma getParams_throws (env : option string) (o : FuzzySearchOptions) :
  throws (getParams env o) <-> not_key (nullish (apiKey o) env) = true.
Proof.
  unfold getParams. destruct (nullish (apiKey o) env) as [k|]; cbn; [|tauto].
  destruct (bool_decide (k = "")); cbn; split; intros H; congruence || tauto.
Qed.

(** How [getParams] resolves the limit, for every number that compares with
    the bounds. *)
Lemma getParams_limit_resolution (env : option string) (o : FuzzySearchOptions)
    (p : AutoCompleteParams) :
  getParams env o = Return p ->
  match limit o with
  | None => params_limit p = MAX_LIMIT
  | Some l =>
      (num_ltb l (of_Z 1) = true -> params_limit p = of_Z 1)
      /\ (num_ltb MAX_LIMIT l = true -> params_limit p = MAX_LIMIT)
      /\ (in_range (of_Z 1) MAX_LIMIT l = true -> params_limit p = l)
  end.
Proof.
  intros H. apply getParams_Return in H as (_ & _ & _ & ->).
  destruct (limit o) as [l|]; [|reflexivity].
  split; [|split]; intros H.
  - now apply clamp_limit_below.
  - now apply clamp_limit_above.
  - now apply clamp_limit_within.
Qed.

(** C6, amended: the explicit option is the key whenever it is provided,
    the environment variable is consulted only when it is not; [getParams]
    throws exactly when the value selected this way is missing or empty, and
    otherwise the selected value is the key of the parameters. *)
Theorem getParams_key_resolution (env : option string) (o : FuzzySearchOptions) :
  (throws (getParams env o)
   <-> match apiKey o with
       | Some k => k = ""
       | None => not_key env = true
       end)
  /\ (throws (getParams env o)
      -> getParams env o = Throw (Error missing_key_message))
  /\ (forall p, getParams env o = Return p ->
        key p <> ""
        /\ match apiKey o with
           | Some k => key p = k
           | None => env = Some (key p)
           end).
Proof.
  split; [|split].
  - rewrite getParams_throws. destruct (apiKey o) as [k|]; cbn; [|tauto].
    destruct (bool_decide_reflect (k = "")); split; intros H; congruence.
  - unfold getParams. destruct (nullish (apiKey o) env) as [k|]; cbn; [|auto].
    destruct (bool_decide (k = "")); cbn; tauto.
  - intros p H. apply getParams_Return in H as (Hk & Hne & _).
    split; [assumption|].
    destruct (apiKey o) as [k|]; cbn in Hk; congruence.
Qed.

(** C8 at its failing input: a limit of NaN is neither clamped nor
    rejected, the parameters carry NaN, which is not within [1, 100]. *)
Theorem getParams_limit_NaN :
  getParams None {| apiKey := Some "test"; delay := None; limit := Some NaN |}
  = Return {| key := "test"; countrySet := "AU"; params_limit := NaN |}
  /\ in_range (of_Z 1) MAX_LIMIT NaN = false
  /\ NaN <> of_Z 1 /\ NaN <> MAX_LIMIT.
Proof. repeat split; try reflexivity; discriminate. Qed.

(** C9, amended: for every accepted options input whose limit is unset or
    is not NaN, the limit of the parameters lies within [1, 100], it is an
    integer whenever the limit given is unset or an integer, and the country
    filter is the constant. *)
Theorem getParams_invariant (env : option string) (o : FuzzySearchOptions)
    (p : AutoCompleteParams) :
  getParams env o = Return p ->
  limit o <> Some NaN ->
  in_range (of_Z 1) MAX_LIMIT (params_limit p) = true
  /\ (match limit o with
      | None => True
      | Some l => isInteger l = true
      end -> isInteger (params_limit p) = true)
  /\ countrySet p = COUNTRY_CODE.
Proof.
  intros H Hn. apply getParams_Return in H as (_ & _ & Hc & ->).
  destruct (limit o) as [l|].
  - split; [|split]; [| |assumption].
    + apply clamp_limit_in_range. congruence.
    + apply clamp_limit_integer.
  - split; [|split]; [reflexivity|reflexivity|assumption].
Qed.

(** ** Result mapper and request executor *)

Lemma getAutoCompleteResults_success
    (data : Data) (res : Schema.SearchResponse) :
  parseResponse data = inr res ->
  getAutoCompleteResults_resume (AxiosResolve data)
  = Return (map toAutoCompleteResult (Schema.results res)).
Proof. intros H. cbn. now rewrite H. Qed.

(** C7: on success the results are the mapped records of the payload, as
    many and in the same order; every field is copied, so an optional field
    that is absent in the record is absent in the result and is never the
    empty string. *)
Theorem getAutoCompleteResults_maps_in_order
    (data : Data) (res : Schema.SearchResponse) :
  parseResponse data = inr res ->
  exists results : list AutoCompleteResult,
    getAutoCompleteResults_resume (AxiosResolve data)
    = Return results
    /\ length results = length (Schema.results res)
    /\ forall (i : nat) (r : Schema.SearchResult),
         Schema.results res !! i = Some r ->
         exists out : AutoCompleteResult,
           results !! i = Some out
           /\ out = toAutoCompleteResult r
           /\ placeId out = Schema.id r
           /\ streetNumber out = Schema.streetNumber (Schema.address r)
           /\ municipality out = Schema.municipality (Schema.address r)
           /\ (Schema.streetNumber (Schema.address r) = None ->
               streetNumber out = None /\ streetNumber out <> Some "")
           /\ (Schema.municipality (Schema.address r) = None ->
               municipality out = None /\ municipality out <> Some "").
Proof.
  intros H. exists (map toAutoCompleteResult (Schema.results res)).
  split; [now apply getAutoCompleteResults_success|].
  split; [apply length_map|].
  intros i r Hi. exists (toAutoCompleteResult r).
  split; [rewrite list_lookup_fmap; now rewrite Hi|].
  repeat split; cbn; try assumption; rewrite H0; discriminate.
Qed.

(** ** The rate-limit queue: effect of each operation *)

Lemma lookup_snoc {A} (l k : list A) (x : A) : (l ++ x :: k) !! length l = Some x.
Proof. now apply list_lookup_middle. Qed.

Lemma lookup_app_plus {A} (l k : list A) (i : nat) :
  (l ++ k) !! (length l + i) = k !! i.
Proof. rewrite lookup_app_r by lia. f_equal. lia. Qed.

Lemma insert_snoc {A} (l k : list A) (x y : A) :
  <[length l := y]> (l ++ x :: k) = l ++ y :: k.
Proof.
  replace (length l) with (length l + 0) by lia. now rewrite insert_app_r.
Qed.

Lemma world_eta (w : World) :
  {| client := client w; promises := promises w; calls := calls w;
     timers := timers w |} = w.
Proof. now destruct w. Qed.

Lemma settle_client p st w : client (settle p st w) = client w.
Proof. unfold settle. now destruct (promises w !! p) as [[]|]. Qed.

Lemma settle_calls p st w : calls (settle p st w) = calls w.
Proof. unfold settle. now destruct (promises w !! p) as [[]|]. Qed.

Lemma settle_timers p st w : timers (settle p st w) = timers w.
Proof. unfold settle. now destruct (promises w !! p) as [[]|]. Qed.

Lemma settle_length p st w :
  length (promises (settle p st w)) = length (promises w).
Proof.
  unfold settle. destruct (promises w !! p) as [[]|]; cbn; try reflexivity.
  apply length_insert.
Qed.

Lemma settle_pending p st w :
  promises w !! p = Some Pending ->
  settle p st w = set_promises (<[p := st]> (promises w)) w.
Proof. intros H. unfold settle. now rewrite H. Qed.

Lemma settle_lookup_ne p q st w :
  p <> q -> promises (settle q st w) !! p = promises w !! p.
Proof.
  intros Hne. unfold settle. destruct (promises w !! q) as [[]|]; cbn;
    try reflexivity.
  now apply list_lookup_insert_ne.
Qed.

Lemma settle_lookup p q st w :
  promises (settle q st w) !! p = promises w !! p
  \/ (p = q /\ promises w !! p = Some Pending
      /\ promises (settle q st w) !! p = Some st).
Proof.
  destruct (decide (p = q)) as [->|Hne].
  - unfold settle. destruct (promises w !! q) as [[]|] eqn:E; cbn; auto.
    right. repeat split. apply list_lookup_insert_eq.
    now apply lookup_lt_Some in E.
  - left. now apply settle_lookup_ne.
Qed.

Lemma reject_all_frame queue w :
  client (reject_all queue w) = client w
  /\ calls (reject_all queue w) = calls w
  /\ timers (reject_all queue w) = timers w
  /\ length (promises (reject_all queue w)) = length (promises w).
Proof.
  revert w. induction queue as [|req queue IH]; intros w; cbn; [auto|].
  destruct (IH (settle (promise req) (Rejected clearing_queue) w))
    as (H1 & H2 & H3 & H4).
  unfold reject_all in *. rewrite H1, H2, H3, H4.
  now rewrite settle_client, settle_calls, settle_timers, settle_length.
Qed.

Lemma reject_all_lookup queue w p :
  promises (reject_all queue w) !! p = promises w !! p
  \/ (promises w !! p = Some Pending
      /\ promises (reject_all queue w) !! p = Some (Rejected clearing_queue)).
Proof.
  revert w. induction queue as [|req queue IH]; intros w; cbn; [auto|].
  destruct (IH (settle (promise req) (Rejected clearing_queue) w)) as [H|[H1 H2]];
    destruct (settle_lookup p (promise req) (Rejected clearing_queue) w)
      as [E|(-> & E1 & E2)]; unfold reject_all in *.
  - left. congruence.
  - right. split; [assumption|]. congruence.
  - right. split; congruence.
  - congruence.
Qed.

Lemma reject_all_rejects queue w req :
  req ∈ queue -> promises w !! promise req = Some Pending ->
  promises (reject_all queue w) !! promise req = Some (Rejected clearing_queue).
Proof.
  revert w. induction queue as [|r queue IH]; intros w Hin Hp.
  - now apply elem_of_nil in Hin.
  - cbn. apply elem_of_cons in Hin as [->|Hin].
    + destruct (reject_all_lookup queue
                  (settle (promise r) (Rejected clearing_queue) w) (promise r))
        as [H|[H _]]; unfold reject_all in *.
      * rewrite H, settle_pending by assumption. cbn.
        apply list_lookup_insert_eq. now apply lookup_lt_Some in Hp.
      * rewrite settle_pending in H by assumption. cbn in H.
        rewrite list_lookup_insert_eq in H by now apply lookup_lt_Some in Hp.
        discriminate.
    + destruct (settle_lookup (promise req) (promise r) (Rejected clearing_queue) w)
        as [E|(E0 & E1 & E2)].
      * apply IH; [assumption|]. congruence.
      * destruct (reject_all_lookup queue
                  (settle (promise r) (Rejected clearing_queue) w) (promise req))
          as [H|[H _]]; unfold reject_all in *; congruence.
Qed.

(** What [getAutoCompleteResults] does before its call depends on the
    address alone. *)
Lemma getAutoCompleteResults_request_eq params a o :
  getAutoCompleteResults_request params a o =
    if isWellFormed a then Return (encoded_request params a o)
    else Throw URIError.
Proof.
  unfold getAutoCompleteResults_request, encodeURIComponent.
  now destruct (isWellFormed a).
Qed.

Lemma getAutoCompleteResults_request_throw params a o err :
  getAutoCompleteResults_request params a o = Throw err ->
  err = URIError /\ isWellFormed a = false.
Proof.
  rewrite getAutoCompleteResults_request_eq.
  destruct (isWellFormed a); [discriminate|]. now intros [= <-].
Qed.

Lemma getAutoCompleteResults_request_return params a o req :
  getAutoCompleteResults_request params a o = Return req ->
  isWellFormed a = true /\ req = encoded_request params a o.
Proof.
  rewrite getAutoCompleteResults_request_eq.
  destruct (isWellFormed a); [|discriminate]. now intros [= <-].
Qed.

Lemma getAutoCompleteResults_request_wf params a o :
  isWellFormed a = true ->
  getAutoCompleteResults_request params a o
  = Return (encoded_request params a o).
Proof. intros H. now rewrite getAutoCompleteResults_request_eq, H. Qed.

Lemma settle_set_calls p st cs w :
  settle p st (set_calls cs w) = set_calls cs (settle p st w).
Proof. unfold settle. cbn. now destruct (promises w !! p) as [[]|]. Qed.

Lemma drain_reject_frame params req w :
  client (drain_reject params req w) = client w
  /\ calls (drain_reject params req w) = calls w
  /\ timers (drain_reject params req w) = timers w
  /\ length (promises (drain_reject params req w)) = length (promises w).
Proof.
  unfold drain_reject.
  destruct (getAutoCompleteResults_request params (address req) (options req));
    [auto|].
  now rewrite settle_client, settle_calls, settle_timers, settle_length.
Qed.

Lemma drain_rejects_frame params queue w :
  client (drain_rejects params queue w) = client w
  /\ calls (drain_rejects params queue w) = calls w
  /\ timers (drain_rejects params queue w) = timers w
  /\ length (promises (drain_rejects params queue w)) = length (promises w).
Proof.
  revert w. induction queue as [|req queue IH]; intros w; cbn; [auto|].
  destruct (IH (drain_reject params req w)) as (H1 & H2 & H3 & H4).
  destruct (drain_reject_frame params req w) as (E1 & E2 & E3 & E4).
  unfold drain_rejects in *. rewrite H1, H2, H3, H4. auto.
Qed.

Lemma drain_rejects_set_calls params queue cs w :
  drain_rejects params queue (set_calls cs w)
  = set_calls cs (drain_rejects params queue w).
Proof.
  revert w. induction queue as [|req queue IH]; intros w; cbn; [reflexivity|].
  unfold drain_rejects in *. rewrite <- IH. f_equal.
  unfold drain_reject.
  destruct (getAutoCompleteResults_request params (address req) (options req));
    [reflexivity|apply settle_set_calls].
Qed.

Lemma settle_set_timers p st ts w :
  settle p st (set_timers ts w) = set_timers ts (settle p st w).
Proof. unfold settle. cbn. now destruct (promises w !! p) as [[]|]. Qed.

Lemma drain_rejects_set_timers params queue ts w :
  promises (drain_rejects params queue (set_timers ts w))
  = promises (drain_rejects params queue w).
Proof.
  enough (drain_rejects params queue (set_timers ts w)
          = set_timers ts (drain_rejects params queue w)) as -> by reflexivity.
  revert w. induction queue as [|req queue IH]; intros w; cbn; [reflexivity|].
  unfold drain_rejects in *. rewrite <- IH. f_equal.
  unfold drain_reject.
  destruct (getAutoCompleteResults_request params (address req) (options req));
    [reflexivity|apply settle_set_timers].
Qed.

(** A queue whose addresses can all be encoded has nothing to reject. *)
Lemma drain_rejects_none params queue w :
  (forall req, req ∈ queue -> isWellFormed (address req) = true) ->
  drain_rejects params queue w = w.
Proof.
  revert w. induction queue as [|req queue IH]; intros w H; cbn; [reflexivity|].
  unfold drain_rejects in *. unfold drain_reject at 2.
  rewrite getAutoCompleteResults_request_eq, (H req) by apply list_elem_of_here.
  apply IH. intros r Hr. apply H. now apply list_elem_of_further.
Qed.

Lemma drain_rejects_lookup params queue w p :
  promises (drain_rejects params queue w) !! p = promises w !! p
  \/ (promises w !! p = Some Pending
      /\ (exists req, req ∈ queue /\ promise req = p
                      /\ isWellFormed (address req) = false)
      /\ promises (drain_rejects params queue w) !! p = Some (Rejected URIError)).
Proof.
  revert w. induction queue as [|req queue IH]; intros w; cbn; [auto|].
  unfold drain_rejects in *.
  assert (Hhd : promises (drain_reject params req w) !! p = promises w !! p
                \/ (p = promise req /\ isWellFormed (address req) = false
                    /\ promises w !! p = Some Pending
                    /\ promises (drain_reject params req w) !! p
                       = Some (Rejected URIError))).
  { unfold drain_reject.
    destruct (getAutoCompleteResults_request params (address req) (options req))
      as [r|err] eqn:E; [auto|].
    apply getAutoCompleteResults_request_throw in E as [-> E].
    destruct (settle_lookup p (promise req) (Rejected URIError) w)
      as [H|(-> & H1 & H2)]; auto. }
  destruct (IH (drain_reject params req w)) as [H|(H1 & (r & Hr & Hp & Hw) & H2)];
    destruct Hhd as [E|(-> & Ew & E1 & E2)].
  - left. congruence.
  - right. split; [assumption|]. split; [|congruence].
    exists req. split; [apply list_elem_of_here|auto].
  - right. split; [congruence|]. split; [|assumption].
    exists r. split; [now apply list_elem_of_further|auto].
  - congruence.
Qed.

(** The drain leaves alone every promise that is not the promise of a
    queued request whose address cannot be encoded. *)
Lemma drain_rejects_other params queue w p :
  (forall req, req ∈ queue -> isWellFormed (address req) = false ->
               promise req <> p) ->
  promises (drain_rejects params queue w) !! p = promises w !! p.
Proof.
  intros H.
  destruct (drain_rejects_lookup params queue w p)
    as [E|(_ & (req & Hin & Hp & Hw) & _)]; [assumption|].
  now destruct (H req Hin Hw).
Qed.

Lemma drain_fold queue w :
  fold_left (fun w' req => drain_request req w') queue w
  = set_calls (calls w ++ drain_calls (_params (client w)) queue)
              (drain_rejects (_params (client w)) queue w).
Proof.
  revert w. induction queue as [|req queue IH]; intros w; cbn.
  - unfold set_calls. rewrite app_nil_r. now destruct w.
  - rewrite IH. unfold drain_request, drain_reject, drain_call.
    destruct (getAutoCompleteResults_request (_params (client w)) (address req)
                (options req)) as [r|err]; cbn.
    + unfold axios_get. rewrite drain_rejects_set_calls.
      unfold set_calls. cbn. now rewrite <- app_assoc.
    + now rewrite settle_client, settle_calls.
Qed.

Lemma drain_calls_length params queue :
  length (drain_calls params queue) <= length queue.
Proof.
  unfold drain_calls. induction queue as [|req queue IH]; cbn; [lia|].
  destruct (drain_call params req); cbn; lia.
Qed.

(** The calls of a drain wave over a queue whose addresses can all be
    encoded: one per request. *)
Lemma drain_calls_all params queue :
  (forall req, req ∈ queue -> isWellFormed (address req) = true) ->
  drain_calls params queue
  = map (fun req =>
           new_call (encoded_request params (address req) (options req))
                    (InDrain req)) queue.
Proof.
  unfold drain_calls.
  induction queue as [|req queue IH]; intros H; cbn; [reflexivity|].
  unfold drain_call at 1.
  rewrite getAutoCompleteResults_request_eq, (H req) by apply list_elem_of_here.
  f_equal. apply IH. intros r Hr. apply H. now apply list_elem_of_further.
Qed.

Lemma drain_calls_encodable params queue :
  drain_calls params queue = map (retry_call params) (encodable queue).
Proof.
  unfold drain_calls, encodable.
  induction queue as [|req queue IH]; cbn; [reflexivity|].
  unfold drain_call at 1. rewrite getAutoCompleteResults_request_eq.
  destruct (isWellFormed (address req)); cbn; now rewrite IH.
Qed.

Lemma encodable_elem queue req :
  req ∈ encodable queue <-> req ∈ queue /\ isWellFormed (address req) = true.
Proof.
  unfold encodable. rewrite !list_elem_of_In, List.filter_In. tauto.
Qed.

Lemma encodable_NoDup queue :
  NoDup (promise <$> queue) -> NoDup (promise <$> encodable queue).
Proof.
  unfold encodable. induction queue as [|req queue IH]; cbn; [auto|].
  rewrite NoDup_cons. intros [Hnotin Hnd].
  destruct (isWellFormed (address req)); [|auto].
  rewrite fmap_cons. apply NoDup_cons. split; [|auto].
  intros Hin. apply Hnotin. apply list_elem_of_fmap in Hin as (r & -> & Hr).
  apply list_elem_of_fmap. exists r. split; [reflexivity|].
  now apply (proj1 (encodable_elem queue r)) in Hr as [Hr _].
Qed.

Lemma drain_calls_elem params queue call :
  call ∈ drain_calls params queue ->
  exists req r, req ∈ queue
    /\ getAutoCompleteResults_request params (address req) (options req)
       = Return r
    /\ call = new_call r (InDrain req).
Proof.
  unfold drain_calls. rewrite list_elem_of_omap. intros (req & Hin & H).
  unfold drain_call in H.
  destruct (getAutoCompleteResults_request params (address req) (options req))
    as [r|] eqn:E; [|discriminate].
  injection H as <-. eauto.
Qed.

Lemma dispose_eq w :
  dispose w =
    match _queue (client w) with
    | Some queue =>
        clearTimeout (_timeout (client w)) (reject_all queue w)
    | None => clearTimeout (_timeout (client w)) w
    end.
Proof.
  unfold dispose, reject_all. destruct (_queue (client w)) as [q|]; [|reflexivity].
  fold (reject_all q w). now destruct (reject_all_frame q w) as (-> & _).
Qed.

Lemma clearTimeout_frame h w :
  client (clearTimeout h w) = client w
  /\ promises (clearTimeout h w) = promises w
  /\ calls (clearTimeout h w) = calls w.
Proof.
  unfold clearTimeout, mark_timer. destruct h as [t|]; [|auto].
  destruct (timers w !! t) as [[d []]|]; cbn; auto.
Qed.

Lemma clearTimeout_not_pending h w t :
  pending_timer (clearTimeout h w) t -> pending_timer w t /\ h <> Some t.
Proof.
  unfold clearTimeout, mark_timer, pending_timer.
  destruct h as [t'|]; [|intros H; split; [assumption|discriminate]].
  destruct (timers w !! t') as [[d st]|] eqn:E.
  - destruct st; cbn; intros (tm & H1 & H2).
    + destruct (decide (t = t')) as [->|Hne].
      * rewrite list_lookup_insert_eq in H1 by now apply lookup_lt_Some in E.
        injection H1 as <-. discriminate.
      * rewrite list_lookup_insert_ne in H1 by congruence.
        split; [eauto|congruence].
    + split; [eauto|]. intros [= ->]. rewrite E in H1.
      injection H1 as <-. discriminate.
    + split; [eauto|]. intros [= ->]. rewrite E in H1.
      injection H1 as <-. discriminate.
  - intros (tm & H1 & H2). split; [eauto|]. intros [= ->]. congruence.
Qed.

(** [dispose] never touches the queue field nor the timer field. *)
Lemma dispose_client w : client (dispose w) = client w.
Proof.
  rewrite dispose_eq. destruct (_queue (client w)) as [q|].
  - destruct (clearTimeout_frame (_timeout (client w)) (reject_all q w)) as (-> & _).
    now destruct (reject_all_frame q w) as (-> & _).
  - now destruct (clearTimeout_frame (_timeout (client w)) w) as (-> & _).
Qed.

Lemma dispose_calls w : calls (dispose w) = calls w.
Proof.
  rewrite dispose_eq. destruct (_queue (client w)) as [q|].
  - destruct (clearTimeout_frame (_timeout (client w)) (reject_all q w))
      as (_ & _ & ->).
    now destruct (reject_all_frame q w) as (_ & -> & _).
  - now destruct (clearTimeout_frame (_timeout (client w)) w) as (_ & _ & ->).
Qed.

Lemma dispose_promises w :
  promises (dispose w) =
    match _queue (client w) with
    | Some queue => promises (reject_all queue w)
    | None => promises w
    end.
Proof.
  rewrite dispose_eq. destruct (_queue (client w)) as [q|].
  - now destruct (clearTimeout_frame (_timeout (client w)) (reject_all q w))
      as (_ & -> & _).
  - now destruct (clearTimeout_frame (_timeout (client w)) w) as (_ & -> & _).
Qed.

Lemma dispose_no_new_timer w t :
  pending_timer (dispose w) t ->
  pending_timer w t /\ _timeout (client w) <> Some t.
Proof.
  rewrite dispose_eq. destruct (_queue (client w)) as [q|]; intros H;
    apply clearTimeout_not_pending in H as [H1 H2]; split; try assumption.
  unfold pending_timer in *.
  now destruct (reject_all_frame q w) as (_ & _ & <- & _).
Qed.

(** ** The rate-limit queue: one step at a time *)

Lemma autoComplete_idle a o w req :
  Idle w ->
  getAutoCompleteResults_request (_params (client w)) a o = Return req ->
  autoComplete a o w =
    ({| client := client w;
        promises := promises w ++ [Pending];
        calls := calls w ++ [new_call req
                               (InRunAutoComplete (length (promises w)) a o)];
        timers := timers w |},
     length (promises w)).
Proof.
  unfold Idle, autoComplete, _runAutoComplete. intros -> E. cbn.
  now rewrite E.
Qed.

(** While idle, an address that cannot be encoded is refused on the spot:
    the promise handed to the caller is rejected and nothing else changes. *)
Lemma autoComplete_idle_throw a o w err :
  Idle w ->
  getAutoCompleteResults_request (_params (client w)) a o = Throw err ->
  autoComplete a o w =
    ({| client := client w;
        promises := promises w ++ [Rejected err];
        calls := calls w;
        timers := timers w |},
     length (promises w)).
Proof.
  unfold Idle, autoComplete, _runAutoComplete. intros -> E. cbn.
  rewrite E. apply getAutoCompleteResults_request_throw in E as [-> _].
  cbn. unfold settle. cbn. rewrite lookup_snoc. unfold set_promises. cbn.
  now rewrite insert_snoc.
Qed.

Lemma autoComplete_draining a o w queue :
  _queue (client w) = Some queue ->
  autoComplete a o w =
    ({| client := set_queue (Some (queue ++ [queued a o (length (promises w))]))
                            (client w);
        promises := promises w ++ [Pending];
        calls := calls w;
        timers := timers w |},
     length (promises w)).
Proof. unfold autoComplete. intros ->. reflexivity. Qed.

Lemma _handleDelay_idle r w :
  Idle w ->
  _handleDelay r w =
    {| client := set_timeout (Some (length (timers w)))
                             (set_queue (Some [r]) (client w));
       promises := promises w;
       calls := calls w;
       timers := timers w ++ [fresh_timer w] |}.
Proof. unfold Idle, _handleDelay. intros ->. reflexivity. Qed.

Lemma _handleDelay_draining r w queue :
  _queue (client w) = Some queue ->
  _handleDelay r w =
    {| client := set_queue (Some (queue ++ [r])) (client w);
       promises := promises w;
       calls := calls w;
       timers := timers w |}.
Proof. unfold _handleDelay. intros ->. reflexivity. Qed.

Lemma _runAutoComplete_resume_eq p a o out w :
  _runAutoComplete_resume p a o out w =
    if rate_limited (resume out)
    then settle p (Adopted (length (promises w)))
           (_handleDelay (queued a o (length (promises w)))
              (set_promises (promises w ++ [Pending]) w))
    else settle p (outcome_state (resume out)) w.
Proof.
  unfold _runAutoComplete_resume.
  destruct (resume out) as [v|[]]; reflexivity.
Qed.

Lemma drain_resume_eq req out w :
  drain_resume req out w
  = settle (promise req) (outcome_state (resume out)) w.
Proof. unfold drain_resume. destruct (resume out); reflexivity. Qed.

Lemma step_settles w c call out :
  calls w !! c = Some call -> settled call = false ->
  step w (AxiosSettles c out) =
    let w1 := set_calls (<[c := settled_call call]> (calls w)) w in
    match cont call with
    | InRunAutoComplete p a o => _runAutoComplete_resume p a o out w1
    | InDrain req => drain_resume req out w1
    end.
Proof.
  intros H Hs. unfold step, mark_settled. rewrite H.
  destruct call as [r k s]. cbn in Hs. subst s. reflexivity.
Qed.

Lemma step_settles_noop w c out :
  (forall call, calls w !! c = Some call -> settled call = true) ->
  step w (AxiosSettles c out) = w.
Proof.
  intros H. unfold step. destruct (calls w !! c) as [[r k s]|]; [|reflexivity].
  specialize (H _ eq_refl). cbn in H. now subst s.
Qed.

Lemma drain_eq w queue :
  _queue (client w) = Some queue ->
  drain w =
    {| client := set_queue None (client w);
       promises := promises (drain_rejects (_params (client w)) queue w);
       calls := calls w ++ drain_calls (_params (client w)) queue;
       timers := timers w |}.
Proof.
  unfold drain. intros ->. rewrite drain_fold.
  destruct (drain_rejects_frame (_params (client w)) queue w) as (E1 & _ & E3 & _).
  unfold set_client, set_calls. cbn. now rewrite E1, E3.
Qed.

Lemma step_timer w t tm :
  timers w !! t = Some tm -> timer_state tm = TimerPending ->
  step w (TimerFires t) =
    drain (set_timers (<[t := with_state TimerFired tm]> (timers w)) w).
Proof.
  intros H Hs. unfold step, mark_timer. rewrite H.
  destruct tm as [d s]. cbn in Hs. subst s. reflexivity.
Qed.

Lemma step_timer_noop w t :
  ~ pending_timer w t -> step w (TimerFires t) = w.
Proof.
  intros H. unfold step. destruct (timers w !! t) as [[d []]|] eqn:E; try reflexivity.
  exfalso. apply H. eexists. split; [exact E|reflexivity].
Qed.

(** ** Well-formed worlds *)

Lemma wf_boot (c : FuzzySearch) :
  _queue c = None -> _timeout c = None -> wf (boot c).
Proof.
  intros Hq Ht. split; unfold Draining, pending_timer; cbn.
  - congruence.
  - intros t (tm & H & _). discriminate H.
  - intros c0 call H. discriminate H.
  - intros queue req H. congruence.
Qed.

(** Worlds that agree on the client and the timers, with at least as many
    promises and the same continuations. *)
Lemma wf_transfer (w w' : World) :
  client w' = client w ->
  timers w' = timers w ->
  length (promises w) <= length (promises w') ->
  (forall c call, calls w' !! c = Some call ->
     exists call', calls w !! c = Some call' /\ cont call' = cont call) ->
  wf w -> wf w'.
Proof.
  intros Hc Ht Hl Hk [H1 H2 H3 H4].
  split; unfold Draining, pending_timer in *; rewrite ?Hc, ?Ht.
  - assumption.
  - assumption.
  - intros c call H. destruct (Hk _ _ H) as (call' & E & <-).
    specialize (H3 _ _ E). lia.
  - intros queue req Hq Hin. specialize (H4 _ _ Hq Hin). lia.
Qed.

Lemma wf_settle p st w : wf w -> wf (settle p st w).
Proof.
  apply wf_transfer.
  - apply settle_client.
  - apply settle_timers.
  - now rewrite settle_length.
  - intros c call. rewrite settle_calls. eauto.
Qed.

Lemma wf_new_promise w : wf w -> wf (set_promises (promises w ++ [Pending]) w).
Proof.
  apply wf_transfer; cbn; try reflexivity.
  - rewrite length_app. lia.
  - eauto.
Qed.

Lemma wf_mark_settled c call w :
  calls w !! c = Some call ->
  wf w -> wf (set_calls (<[c := settled_call call]> (calls w)) w).
Proof.
  intros E. apply wf_transfer; cbn; try reflexivity.
  intros c' call' H. destruct (decide (c' = c)) as [->|Hne].
  - rewrite list_lookup_insert_eq in H by now apply lookup_lt_Some in E.
    injection H as <-. eauto.
  - rewrite list_lookup_insert_ne in H by congruence. eauto.
Qed.

Lemma wf_reject_all queue w : wf w -> wf (reject_all queue w).
Proof.
  destruct (reject_all_frame queue w) as (H1 & H2 & H3 & H4).
  apply wf_transfer; try assumption.
  - now rewrite H4.
  - intros c call. rewrite H2. eauto.
Qed.

Lemma wf_dispose w : wf w -> wf (dispose w).
Proof.
  intros Hw. assert (Hw' := Hw). destruct Hw' as [H1 H2 H3 H4].
  split; unfold Draining in *; rewrite ?dispose_client, ?dispose_calls.
  - assumption.
  - intros t Ht. apply dispose_no_new_timer in Ht as [Ht Hne].
    now apply H2 in Ht as [Ht _].
  - intros c call E. specialize (H3 _ _ E).
    rewrite dispose_promises. destruct (_queue (client w)) as [q|]; [|assumption].
    now destruct (reject_all_frame q w) as (_ & _ & _ & ->).
  - intros queue req Hq Hin. specialize (H4 _ _ Hq Hin).
    rewrite dispose_promises, Hq.
    now destruct (reject_all_frame queue w) as (_ & _ & _ & ->).
Qed.

Lemma pending_timer_snoc w' w tm t :
  timers w' = timers w ++ [tm] ->
  pending_timer w' t -> pending_timer w t \/ t = length (timers w).
Proof.
  unfold pending_timer. intros -> (tm' & H & Hs).
  destruct (decide (t < length (timers w))) as [Hlt|Hge].
  - rewrite lookup_app_l in H by assumption. eauto.
  - right. apply lookup_lt_Some in H. rewrite length_app in H. cbn in H. lia.
Qed.

Lemma wf_handleDelay r w :
  promise r < length (promises w) -> wf w -> wf (_handleDelay r w).
Proof.
  intros Hr Hw. assert (Hw' := Hw). destruct Hw' as [H1 H2 H3 H4].
  destruct (_queue (client w)) as [q|] eqn:Eq.
  - rewrite (_handleDelay_draining _ _ _ Eq).
    split; unfold Draining, pending_timer in *; cbn.
    + intros _. apply H1. congruence.
    + intros t Ht. destruct (H2 _ Ht). split; [assumption|discriminate].
    + assumption.
    + intros queue req [= <-] Hin. apply elem_of_app in Hin as [Hin|Hin].
      * eapply H4; eauto.
      * apply list_elem_of_singleton in Hin. now subst req.
  - rewrite (_handleDelay_idle _ _ Eq).
    split; unfold Draining in *; cbn.
    + discriminate.
    + intros t Ht. split; [|discriminate].
      eapply pending_timer_snoc in Ht as [Ht| ->]; [|reflexivity|reflexivity].
      apply H2 in Ht as [_ Ht]. congruence.
    + assumption.
    + intros queue req [= <-] Hin.
      apply list_elem_of_singleton in Hin. now subst req.
Qed.

Lemma wf_autoComplete a o w : wf w -> wf (fst (autoComplete a o w)).
Proof.
  intros Hw. assert (Hw' := Hw). destruct Hw' as [H1 H2 H3 H4].
  destruct (_queue (client w)) as [q|] eqn:Eq.
  - rewrite (autoComplete_draining _ _ _ _ Eq). cbn [fst].
    split; unfold Draining, pending_timer in *; cbn.
    + intros _. apply H1. congruence.
    + intros t Ht. destruct (H2 _ Ht). split; [assumption|discriminate].
    + intros c call E. specialize (H3 _ _ E). rewrite length_app. lia.
    + intros queue req [= <-] Hin. rewrite length_app. cbn.
      apply elem_of_app in Hin as [Hin|Hin].
      * specialize (H4 _ _ eq_refl Hin). lia.
      * apply list_elem_of_singleton in Hin. subst req. cbn. lia.
  - destruct (getAutoCompleteResults_request (_params (client w)) a o)
      as [r|err] eqn:Er.
    + rewrite (autoComplete_idle _ _ _ _ Eq Er). cbn [fst].
      split; unfold Draining, pending_timer in *; cbn.
      * assumption.
      * assumption.
      * intros c call E. rewrite length_app. cbn.
        destruct (decide (c < length (calls w))) as [Hlt|Hge].
        -- rewrite lookup_app_l in E by assumption. specialize (H3 _ _ E). lia.
        -- rewrite lookup_app_r in E by lia.
           destruct (c - length (calls w)) as [|n]; [|destruct n; discriminate].
           injection E as <-. cbn. lia.
      * intros queue req Hq. congruence.
    + rewrite (autoComplete_idle_throw _ _ _ _ Eq Er). cbn [fst].
      split; unfold Draining, pending_timer in *; cbn.
      * assumption.
      * assumption.
      * intros c call E. rewrite length_app. cbn.
        specialize (H3 _ _ E). lia.
      * intros queue req Hq. congruence.
Qed.

Lemma wf_runAutoComplete_resume p a o out w :
  wf w -> wf (_runAutoComplete_resume p a o out w).
Proof.
  intros Hw. rewrite _runAutoComplete_resume_eq.
  destruct (rate_limited (resume out)).
  - apply wf_settle, wf_handleDelay.
    + cbn. rewrite length_app. cbn. lia.
    + now apply wf_new_promise.
  - now apply wf_settle.
Qed.

Lemma wf_drain w : wf w -> (forall t, ~ pending_timer w t) -> wf (drain w).
Proof.
  intros Hw Hnone. assert (Hw' := Hw). destruct Hw' as [H1 H2 H3 H4].
  destruct (_queue (client w)) as [q|] eqn:Eq;
    [|unfold drain; now rewrite Eq].
  rewrite (drain_eq _ _ Eq).
  destruct (drain_rejects_frame (_params (client w)) q w) as (_ & _ & _ & El).
  split; unfold Draining; cbn.
  - congruence.
  - intros t Ht. exfalso. now apply (Hnone t).
  - intros c call E. rewrite El.
    destruct (decide (c < length (calls w))) as [Hlt|Hge].
    + rewrite lookup_app_l in E by assumption. eauto.
    + rewrite lookup_app_r in E by lia.
      apply list_elem_of_lookup_2, drain_calls_elem in E
        as (req & r & Hin & _ & ->).
      cbn. eapply H4; [reflexivity|assumption].
  - discriminate.
Qed.

Lemma wf_step w e : wf w -> wf (step w e).
Proof.
  intros Hw. destruct e as [a o| |c out|t].
  - now apply wf_autoComplete.
  - now apply wf_dispose.
  - destruct (calls w !! c) as [call|] eqn:E.
    + destruct (settled call) eqn:Es.
      * rewrite step_settles_noop; [assumption|]. intros call' E'. congruence.
      * rewrite (step_settles _ _ _ _ E Es). cbv zeta.
        pose proof (wf_mark_settled _ _ _ E Hw) as Hw1.
        destruct (cont call) as [p a o|req].
        -- now apply wf_runAutoComplete_resume.
        -- rewrite drain_resume_eq. now apply wf_settle.
    + rewrite step_settles_noop; [assumption|]. intros call' E'. congruence.
  - destruct (timers w !! t) as [tm|] eqn:E.
    + destruct (timer_state tm) eqn:Es.
      * rewrite (step_timer _ _ _ E Es).
        assert (Hp : pending_timer w t) by (eexists; eauto).
        destruct (wf_timer _ Hw _ Hp) as [Hto Hd].
        apply wf_drain.
        -- destruct Hw as [H1 H2 H3 H4].
           split; unfold Draining, pending_timer in *; cbn; try assumption.
           intros t' (tm' & E' & Es').
           destruct (decide (t' = t)) as [->|Hne].
           ++ rewrite list_lookup_insert_eq in E' by now apply lookup_lt_Some in E.
              injection E' as <-. discriminate.
           ++ rewrite list_lookup_insert_ne in E' by congruence.
              apply H2. eauto.
        -- intros t' (tm' & E' & Es'). cbn in E'.
           destruct (decide (t' = t)) as [->|Hne].
           ++ rewrite list_lookup_insert_eq in E' by now apply lookup_lt_Some in E.
              injection E' as <-. discriminate.
           ++ rewrite list_lookup_insert_ne in E' by congruence.
              assert (Hp' : pending_timer w t') by (eexists; eauto).
              destruct (wf_timer _ Hw _ Hp') as [Hto' _]. congruence.
      * rewrite step_timer_noop; [assumption|].
        intros (tm' & E' & Es'). congruence.
      * rewrite step_timer_noop; [assumption|].
        intros (tm' & E' & Es'). congruence.
    + rewrite step_timer_noop; [assumption|].
      intros (tm' & E' & Es'). congruence.
Qed.

Lemma wf_run events w : wf w -> wf (run w events).
Proof.
  revert w. induction events as [|e events IH]; intros w Hw; [assumption|].
  cbn. apply IH. now apply wf_step.
Qed.

(** ** What a caller observes, and the effect of whole steps *)

Lemma observe_direct fuel ps p st :
  ps !! p = Some st -> (forall q, st <> Adopted q) -> observe fuel ps p = st.
Proof.
  intros H Hn. destruct fuel; cbn; rewrite H; destruct st; try reflexivity;
    now destruct (Hn p0).
Qed.

Lemma future_direct w p st :
  promises w !! p = Some st -> (forall q, st <> Adopted q) -> future w p = st.
Proof. apply observe_direct. Qed.

Lemma future_adopted w p q st :
  promises w !! p = Some (Adopted q) ->
  promises w !! q = Some st -> (forall r, st <> Adopted r) ->
  future w p = st.
Proof.
  intros Hp Hq Hn. unfold future.
  destruct (length (promises w)) as [|n] eqn:E.
  - apply lookup_lt_Some in Hp. lia.
  - cbn. rewrite Hp. now apply observe_direct.
Qed.

Lemma outcome_state_not_adopted r q : outcome_state r <> Adopted q.
Proof. destruct r; discriminate. Qed.

Lemma autoComplete_promise a o w : snd (autoComplete a o w) = length (promises w).
Proof.
  unfold autoComplete, _runAutoComplete.
  destruct (_queue (client w)); [reflexivity|]. cbn.
  now destruct (getAutoCompleteResults_request (_params (client w)) a o).
Qed.

Lemma resume_status_429 (err : AxiosError) :
  response_status err = Some 429%Z ->
  resume (AxiosReject err) = Throw TooManyRequestsError.
Proof.
  intros H. cbn. rewrite H. now rewrite bool_decide_eq_true_2.
Qed.

Lemma resume_status_other (err : AxiosError) :
  response_status err <> Some 429%Z ->
  resume (AxiosReject err) = Throw (Transport err).
Proof.
  intros H. cbn. now rewrite bool_decide_eq_false_2.
Qed.

Lemma resume_invalid (data : Data) (e : ValiError) :
  parseResponse data = inl e ->
  resume (AxiosResolve data) = Throw (Validation e).
Proof. intros H. cbn. now rewrite H. Qed.

Lemma step_submit_idle a o w :
  Idle w -> isWellFormed a = true ->
  step w (CallAutoComplete a o) =
    {| client := client w;
       promises := promises w ++ [Pending];
       calls := calls w ++ [new_call (encoded_request (_params (client w)) a o)
                              (InRunAutoComplete (length (promises w)) a o)];
       timers := timers w |}.
Proof.
  intros H Ha. cbn.
  now rewrite (autoComplete_idle a o w _ H
                 (getAutoCompleteResults_request_wf _ _ _ Ha)).
Qed.

Lemma step_submit_idle_throw a o w :
  Idle w -> isWellFormed a = false ->
  step w (CallAutoComplete a o) =
    {| client := client w;
       promises := promises w ++ [Rejected URIError];
       calls := calls w;
       timers := timers w |}.
Proof.
  intros H Ha. cbn. rewrite (autoComplete_idle_throw a o w URIError H);
    [reflexivity|].
  now rewrite getAutoCompleteResults_request_eq, Ha.
Qed.

(** Whatever the address, a submission leaves an idle client idle, with its
    timer field and the timers as they were. *)
Lemma step_submit_idle_client a o w :
  Idle w ->
  client (step w (CallAutoComplete a o)) = client w
  /\ timers (step w (CallAutoComplete a o)) = timers w.
Proof.
  intros H. destruct (isWellFormed a) eqn:Ha.
  - now rewrite step_submit_idle.
  - now rewrite step_submit_idle_throw.
Qed.

Lemma step_submit_draining a o w queue :
  _queue (client w) = Some queue ->
  step w (CallAutoComplete a o) =
    {| client := set_queue (Some (queue ++ [queued a o (length (promises w))]))
                           (client w);
       promises := promises w ++ [Pending];
       calls := calls w;
       timers := timers w |}.
Proof. intros H. cbn. now rewrite (autoComplete_draining _ _ _ _ H). Qed.

Lemma step_rate_limited_idle w c call p a o out :
  Idle w ->
  calls w !! c = Some call -> settled call = false ->
  cont call = InRunAutoComplete p a o ->
  promises w !! p = Some Pending ->
  rate_limited (resume out) = true ->
  step w (AxiosSettles c out) =
    {| client := set_timeout (Some (length (timers w)))
                   (set_queue (Some [queued a o (length (promises w))]) (client w));
       promises := <[p := Adopted (length (promises w))]> (promises w ++ [Pending]);
       calls := <[c := settled_call call]> (calls w);
       timers := timers w ++ [fresh_timer w] |}.
Proof.
  intros Hi Hc Hs Hk Hp Hr.
  rewrite (step_settles _ _ _ _ Hc Hs). cbv zeta. rewrite Hk.
  rewrite _runAutoComplete_resume_eq, Hr. cbn [promises set_calls].
  rewrite _handleDelay_idle by exact Hi.
  rewrite settle_pending; cbn [promises client calls timers set_promises set_calls].
  - reflexivity.
  - rewrite lookup_app_l; [assumption|]. now apply lookup_lt_Some in Hp.
Qed.

Lemma step_rate_limited_draining w c call p a o out queue :
  _queue (client w) = Some queue ->
  calls w !! c = Some call -> settled call = false ->
  cont call = InRunAutoComplete p a o ->
  promises w !! p = Some Pending ->
  rate_limited (resume out) = true ->
  step w (AxiosSettles c out) =
    {| client := set_queue (Some (queue ++ [queued a o (length (promises w))]))
                           (client w);
       promises := <[p := Adopted (length (promises w))]> (promises w ++ [Pending]);
       calls := <[c := settled_call call]> (calls w);
       timers := timers w |}.
Proof.
  intros Hq Hc Hs Hk Hp Hr.
  rewrite (step_settles _ _ _ _ Hc Hs). cbv zeta. rewrite Hk.
  rewrite _runAutoComplete_resume_eq, Hr. cbn [promises set_calls].
  rewrite (_handleDelay_draining _ _ queue) by exact Hq.
  rewrite settle_pending; cbn [promises client calls timers set_promises set_calls].
  - reflexivity.
  - rewrite lookup_app_l; [assumption|]. now apply lookup_lt_Some in Hp.
Qed.

Lemma step_run_settles w c call p a o out :
  calls w !! c = Some call -> settled call = false ->
  cont call = InRunAutoComplete p a o ->
  promises w !! p = Some Pending ->
  rate_limited (resume out) = false ->
  step w (AxiosSettles c out) =
    {| client := client w;
       promises := <[p := outcome_state (resume out)]> (promises w);
       calls := <[c := settled_call call]> (calls w);
       timers := timers w |}.
Proof.
  intros Hc Hs Hk Hp Hr.
  rewrite (step_settles _ _ _ _ Hc Hs). cbv zeta. rewrite Hk.
  rewrite _runAutoComplete_resume_eq, Hr.
  now rewrite settle_pending by exact Hp.
Qed.

Lemma step_drain_settles w c call req out :
  calls w !! c = Some call -> settled call = false ->
  cont call = InDrain req ->
  promises w !! promise req = Some Pending ->
  step w (AxiosSettles c out) =
    {| client := client w;
       promises := <[promise req := outcome_state (resume out)]> (promises w);
       calls := <[c := settled_call call]> (calls w);
       timers := timers w |}.
Proof.
  intros Hc Hs Hk Hp.
  rewrite (step_settles _ _ _ _ Hc Hs). cbv zeta. rewrite Hk.
  rewrite drain_resume_eq.
  now rewrite settle_pending by exact Hp.
Qed.

Lemma step_timer_draining w t tm queue :
  timers w !! t = Some tm -> timer_state tm = TimerPending ->
  _queue (client w) = Some queue ->
  step w (TimerFires t) =
    {| client := set_queue None (client w);
       promises := promises (drain_rejects (_params (client w)) queue w);
       calls := calls w ++ drain_calls (_params (client w)) queue;
       timers := <[t := with_state TimerFired tm]> (timers w) |}.
Proof.
  intros Ht Hs Hq. rewrite (step_timer _ _ _ Ht Hs).
  rewrite (drain_eq _ queue) by exact Hq.
  cbn [client calls timers set_timers]. f_equal.
  apply drain_rejects_set_timers.
Qed.

(** The drain of a queue whose addresses can all be encoded. *)
Lemma step_timer_draining_all w t tm queue :
  timers w !! t = Some tm -> timer_state tm = TimerPending ->
  _queue (client w) = Some queue ->
  (forall req, req ∈ queue -> isWellFormed (address req) = true) ->
  step w (TimerFires t) =
    {| client := set_queue None (client w);
       promises := promises w;
       calls := calls w
                ++ map (fun req =>
                          new_call (encoded_request (_params (client w))
                                      (address req) (options req))
                                   (InDrain req)) queue;
       timers := <[t := with_state TimerFired tm]> (timers w) |}.
Proof.
  intros Ht Hs Hq Hwf. rewrite (step_timer_draining _ _ _ _ Ht Hs Hq).
  now rewrite drain_rejects_none, drain_calls_all.
Qed.

(** ** The scenarios of the unit tests *)

Ltac world_simpl :=
  cbv beta iota delta
    [client promises calls timers _queue _timeout _delay _params
     set_queue set_timeout set_client set_promises set_calls set_timers
     fresh_timer queued promise address options cont settled request
     new_call settled_call with_state timer_state timer_delay].

Ltac queue_wf :=
  let req := fresh "req" in
  let Hin := fresh "Hin" in
  intros req Hin;
  repeat (apply elem_of_cons in Hin as [->|Hin]; [assumption|]);
  now apply elem_of_nil in Hin.

Ltac list_simpl :=
  repeat (first
    [ rewrite <- app_assoc
    | rewrite lookup_snoc
    | rewrite insert_snoc
    | rewrite lookup_app_plus
    | rewrite insert_app_r
    | rewrite length_app ];
    cbn [app length]);
  cbn [app length lookup insert list_lookup list_insert map].

(** The scenario of the unit tests, from any idle world: one submission,
    answered with 429, retried when the timer fires. *)
Lemma rate_limited_scenario
    (w : World) (a : string) (o : AutoCompleteOptions) (err : AxiosError)
    (retry : AxiosOutcome Data) :
  Idle w ->
  isWellFormed a = true ->
  response_status err = Some 429%Z ->
  let c := length (calls w) in
  let t := length (timers w) in
  let p := snd (autoComplete a o w) in
  let w1 := step w (CallAutoComplete a o) in
  let w2 := step w1 (AxiosSettles c (AxiosReject err)) in
  let w3 := step w2 (TimerFires t) in
  let w4 := step w3 (AxiosSettles (c + 1) retry) in
  (length (calls w1) = c + 1 /\ length (calls w2) = c + 1
   /\ Draining w2 /\ pending_timer w2 t /\ future w2 p = Pending)
  /\ length (calls w3) = c + 2
  /\ length (calls w4) = c + 2
  /\ future w4 p = outcome_state (resume retry)
  /\ (forall data res, retry = AxiosResolve data -> parseResponse data = inr res ->
      future w4 p = Fulfilled (map toAutoCompleteResult (Schema.results res)))
  /\ (forall err', retry = AxiosReject err' -> response_status err' = Some 429%Z ->
      future w4 p = Rejected TooManyRequestsError)
  /\ Idle w4
  /\ timers w4 = timers w ++ [with_state TimerFired (fresh_timer w)]
  /\ step w4 (TimerFires t) = w4
  /\ (forall out, step w4 (AxiosSettles c out) = w4
                  /\ step w4 (AxiosSettles (c + 1) out) = w4).
Proof.
  intros Hi Ha Hs c t p w1 w2 w3 w4.
  destruct w as [[d pr q tmo] ps cs ts]. unfold Idle in Hi. cbn in Hi. subst q.
  assert (Hp : p = length ps) by apply autoComplete_promise.
  cbn [calls timers] in c, t. subst c t.
  set (callA := new_call (encoded_request pr a o)
                         (InRunAutoComplete (length ps) a o)).
  set (reqA := queued a o (length ps + 1)).
  set (callR := new_call (encoded_request pr a o) (InDrain reqA)).
  assert (E1 : w1 =
    {| client := {| _delay := d; _params := pr; _queue := None; _timeout := tmo |};
       promises := ps ++ [Pending];
       calls := cs ++ [callA];
       timers := ts |}).
  { subst w1. now rewrite step_submit_idle by (reflexivity || assumption). }
  assert (E2 : w2 =
    {| client := {| _delay := d; _params := pr; _queue := Some [reqA];
                    _timeout := Some (length ts) |};
       promises := ps ++ [Adopted (length ps + 1); Pending];
       calls := cs ++ [settled_call callA];
       timers := ts ++ [{| timer_delay := d; timer_state := TimerPending |}] |}).
  { subst w2. rewrite E1.
    erewrite step_rate_limited_idle with (call := callA) (p := length ps);
      [ | reflexivity | apply lookup_snoc | reflexivity | reflexivity
        | apply lookup_snoc | now rewrite resume_status_429 ].
    world_simpl. list_simpl. reflexivity. }
  assert (E3 : w3 =
    {| client := {| _delay := d; _params := pr; _queue := None;
                    _timeout := Some (length ts) |};
       promises := ps ++ [Adopted (length ps + 1); Pending];
       calls := cs ++ [settled_call callA; callR];
       timers := ts ++ [{| timer_delay := d; timer_state := TimerFired |}] |}).
  { subst w3. rewrite E2.
    erewrite step_timer_draining_all;
      [ | apply lookup_snoc | reflexivity | reflexivity | queue_wf ].
    world_simpl. list_simpl. reflexivity. }
  assert (E4 : w4 =
    {| client := {| _delay := d; _params := pr; _queue := None;
                    _timeout := Some (length ts) |};
       promises := ps ++ [Adopted (length ps + 1); outcome_state (resume retry)];
       calls := cs ++ [settled_call callA; settled_call callR];
       timers := ts ++ [{| timer_delay := d; timer_state := TimerFired |}] |}).
  { subst w4. rewrite E3.
    erewrite step_drain_settles with (call := callR) (req := reqA);
      [ | world_simpl; now list_simpl | reflexivity | reflexivity
        | unfold reqA; world_simpl; now list_simpl ].
    unfold reqA. world_simpl. list_simpl. reflexivity. }
  assert (F4 : future w4 p = outcome_state (resume retry)).
  { rewrite E4, Hp. apply future_adopted with (q := length ps + 1).
    - world_simpl. apply lookup_snoc.
    - world_simpl. now list_simpl.
    - apply outcome_state_not_adopted. }
  split; [|split; [|split; [|split; [|split; [|split; [|split; [|split;
    [|split]]]]]]]].
  - rewrite E1, E2. world_simpl. rewrite !length_app. cbn [length].
    repeat split; try reflexivity.
    + discriminate.
    + eexists. split; [apply lookup_snoc|reflexivity].
    + rewrite Hp. apply future_adopted with (q := length ps + 1).
      * world_simpl. apply lookup_snoc.
      * world_simpl. now list_simpl.
      * discriminate.
  - rewrite E3. world_simpl. rewrite length_app. reflexivity.
  - rewrite E4. world_simpl. rewrite length_app. reflexivity.
  - exact F4.
  - intros data res -> Hres. rewrite F4.
    now rewrite (getAutoCompleteResults_success _ _ Hres).
  - intros err' -> Hs'. rewrite F4. now rewrite resume_status_429.
  - rewrite E4. reflexivity.
  - rewrite E4. reflexivity.
  - rewrite E4. apply step_timer_noop. intros (tm & Ht & Hst).
    world_simpl. cbn [timers] in Ht. rewrite lookup_snoc in Ht.
    injection Ht as <-. discriminate.
  - intros out. rewrite E4. split; apply step_settles_noop; intros call;
      world_simpl.
    + rewrite lookup_snoc. now intros [= <-].
    + list_simpl. now intros [= <-].
Qed.

Ltac drain_settles r req :=
  match goal with
  | |- context [step ?W (AxiosSettles ?c r)] =>
      erewrite (step_drain_settles W c _ req r);
      [ | world_simpl; now list_simpl | reflexivity | reflexivity
        | unfold req; world_simpl; now list_simpl ];
      unfold req; world_simpl; list_simpl
  end.

Lemma submit_while_draining (w : World) (queue : list QueuedRequest)
    (a : string) (o : AutoCompleteOptions) :
  _queue (client w) = Some queue ->
  let w' := step w (CallAutoComplete a o) in
  let p := snd (autoComplete a o w) in
  _queue (client w') = Some (queue ++ [queued a o p])
  /\ calls w' = calls w
  /\ timers w' = timers w
  /\ _timeout (client w') = _timeout (client w)
  /\ future w' p = Pending.
Proof.
  intros Hq w' p. subst w' p.
  rewrite autoComplete_promise, (step_submit_draining _ _ _ _ Hq).
  repeat split. apply future_direct; [|discriminate].
  cbn [promises]. apply lookup_snoc.
Qed.

(** The scenario of the unit test, from any idle world: A is answered with
    429, then B, C and D are submitted before the timer fires. *)
Lemma four_submissions_scenario
    (w : World) (a b c d : string) (oa ob oc od : AutoCompleteOptions)
    (err : AxiosError) (ra rb rc rd : AxiosOutcome Data) :
  Idle w ->
  isWellFormed a = true -> isWellFormed b = true ->
  isWellFormed c = true -> isWellFormed d = true ->
  response_status err = Some 429%Z ->
  let n := length (calls w) in
  let t := length (timers w) in
  let p := length (promises w) in
  let w1 := run w [CallAutoComplete a oa; AxiosSettles n (AxiosReject err)] in
  let w2 := run w1 [CallAutoComplete b ob; CallAutoComplete c oc;
                    CallAutoComplete d od] in
  let w3 := step w2 (TimerFires t) in
  let w4 := run w3 [AxiosSettles (n + 1) ra; AxiosSettles (n + 2) rb;
                    AxiosSettles (n + 3) rc; AxiosSettles (n + 4) rd] in
  (_queue (client w1) = Some [queued a oa (p + 1)] /\ pending_timer w1 t)
  /\ (_queue (client w2) =
        Some [queued a oa (p + 1); queued b ob (p + 2); queued c oc (p + 3);
              queued d od (p + 4)]
      /\ length (calls w2) = n + 1
      /\ timers w2 = timers w1
      /\ _timeout (client w2) = _timeout (client w1))
  /\ (Idle w3
      /\ length (calls w3) = n + 5
      /\ calls w3 = calls w2 ++ drain_calls (_params (client w))
           [queued a oa (p + 1); queued b ob (p + 2); queued c oc (p + 3);
            queued d od (p + 4)]
      /\ drain_calls (_params (client w))
           [queued a oa (p + 1); queued b ob (p + 2); queued c oc (p + 3);
            queued d od (p + 4)]
         = [new_call (encoded_request (_params (client w)) a oa)
                     (InDrain (queued a oa (p + 1)));
            new_call (encoded_request (_params (client w)) b ob)
                     (InDrain (queued b ob (p + 2)));
            new_call (encoded_request (_params (client w)) c oc)
                     (InDrain (queued c oc (p + 3)));
            new_call (encoded_request (_params (client w)) d od)
                     (InDrain (queued d od (p + 4)))])
  /\ (Idle w4
      /\ length (calls w4) = n + 5
      /\ future w4 p = outcome_state (resume ra)
      /\ future w4 (p + 2) = outcome_state (resume rb)
      /\ future w4 (p + 3) = outcome_state (resume rc)
      /\ future w4 (p + 4) = outcome_state (resume rd)).
Proof.
  intros Hi Ha Hb Hc Hd Hs n t p w1 w2 w3 w4.
  assert (Hdc : forall pr qa qb qc qd,
            address qa = a -> address qb = b -> address qc = c -> address qd = d ->
            drain_calls pr [qa; qb; qc; qd]
            = map (fun req => new_call (encoded_request pr (address req)
                                          (options req)) (InDrain req))
                  [qa; qb; qc; qd]).
  { intros pr qa qb qc qd <- <- <- <-. apply drain_calls_all. queue_wf. }
  destruct w as [[dl pr q tmo] ps cs ts]. unfold Idle in Hi. cbn in Hi. subst q.
  cbn [calls timers promises] in n, t, p. subst n t p.
  set (callA := new_call (encoded_request pr a oa)
                         (InRunAutoComplete (length ps) a oa)).
  set (qA := queued a oa (length ps + 1)).
  set (qB := queued b ob (length ps + 2)).
  set (qC := queued c oc (length ps + 3)).
  set (qD := queued d od (length ps + 4)).
  set (cl := fun q => {| _delay := dl; _params := pr; _queue := q;
                         _timeout := Some (length ts) |}).
  assert (E1 : w1 =
    {| client := cl (Some [qA]);
       promises := ps ++ [Adopted (length ps + 1); Pending];
       calls := cs ++ [settled_call callA];
       timers := ts ++ [{| timer_delay := dl; timer_state := TimerPending |}] |}).
  { subst w1. unfold run. cbn [fold_left].
    rewrite step_submit_idle by (reflexivity || assumption).
    erewrite step_rate_limited_idle with (call := callA) (p := length ps);
      [ | reflexivity | apply lookup_snoc | reflexivity | reflexivity
        | apply lookup_snoc | now rewrite resume_status_429 ].
    world_simpl. list_simpl. reflexivity. }
  assert (E2 : w2 =
    {| client := cl (Some [qA; qB; qC; qD]);
       promises := ps ++ [Adopted (length ps + 1); Pending; Pending; Pending;
                          Pending];
       calls := cs ++ [settled_call callA];
       timers := ts ++ [{| timer_delay := dl; timer_state := TimerPending |}] |}).
  { subst w2. rewrite E1. unfold run. cbn [fold_left].
    erewrite step_submit_draining by reflexivity.
    erewrite step_submit_draining by reflexivity.
    erewrite step_submit_draining by reflexivity.
    unfold cl. world_simpl. list_simpl. reflexivity. }
  assert (E3 : w3 =
    {| client := cl None;
       promises := ps ++ [Adopted (length ps + 1); Pending; Pending; Pending;
                          Pending];
       calls := cs ++ settled_call callA :: drain_calls pr [qA; qB; qC; qD];
       timers := ts ++ [{| timer_delay := dl; timer_state := TimerFired |}] |}).
  { subst w3. rewrite E2. rewrite Hdc by reflexivity.
    erewrite step_timer_draining_all;
      [ | apply lookup_snoc | reflexivity | reflexivity | queue_wf ].
    unfold cl. world_simpl. list_simpl. reflexivity. }
  assert (E4 : w4 =
    {| client := cl None;
       promises := ps ++ [Adopted (length ps + 1); outcome_state (resume ra);
                          outcome_state (resume rb); outcome_state (resume rc);
                          outcome_state (resume rd)];
       calls := cs ++ settled_call callA
                  :: map settled_call (drain_calls pr [qA; qB; qC; qD]);
       timers := ts ++ [{| timer_delay := dl; timer_state := TimerFired |}] |}).
  { subst w4. rewrite E3. rewrite Hdc by reflexivity.
    unfold run. cbn [fold_left map].
    drain_settles ra qA. drain_settles rb qB.
    drain_settles rc qC. drain_settles rd qD.
    unfold qA, qB, qC, qD, cl. world_simpl. list_simpl. reflexivity. }
  split; [|split; [|split]].
  - rewrite E1. split; [reflexivity|].
    eexists. split; [apply lookup_snoc|reflexivity].
  - rewrite E2, E1. world_simpl. rewrite length_app. repeat split.
  - rewrite E3, E2. rewrite !Hdc by reflexivity. world_simpl.
    rewrite length_app. repeat split. now list_simpl.
  - rewrite E4. rewrite Hdc by reflexivity. world_simpl. rewrite length_app. repeat split.
    + apply future_adopted with (q := length ps + 1).
      * world_simpl. apply lookup_snoc.
      * world_simpl. now list_simpl.
      * apply outcome_state_not_adopted.
    + apply future_direct; [|apply outcome_state_not_adopted].
      world_simpl. now list_simpl.
    + apply future_direct; [|apply outcome_state_not_adopted].
      world_simpl. now list_simpl.
    + apply future_direct; [|apply outcome_state_not_adopted].
      world_simpl. now list_simpl.
Qed.

Lemma drain_rejects_rejects params queue w req :
  req ∈ queue -> isWellFormed (address req) = false ->
  promises w !! promise req = Some Pending ->
  promises (drain_rejects params queue w) !! promise req
  = Some (Rejected URIError).
Proof.
  revert w. induction queue as [|r queue IH]; intros w Hin Ha Hp.
  - now apply elem_of_nil in Hin.
  - cbn. unfold drain_rejects in *.
    assert (Hstable : forall w0,
              promises w0 !! promise req = Some (Rejected URIError) ->
              promises (fold_left (fun w' r' => drain_reject params r' w') queue w0)
                !! promise req = Some (Rejected URIError)).
    { intros w0 H0.
      destruct (drain_rejects_lookup params queue w0 (promise req))
        as [E|(E & _)]; unfold drain_rejects in *; congruence. }
    apply elem_of_cons in Hin as [->|Hin].
    + apply Hstable. unfold drain_reject.
      rewrite getAutoCompleteResults_request_eq, Ha.
      rewrite settle_pending by assumption. cbn.
      apply list_lookup_insert_eq. now apply lookup_lt_Some in Hp.
    + unfold drain_reject at 2.
      destruct (getAutoCompleteResults_request params (address r) (options r))
        as [x|err] eqn:Er; [now apply IH|].
      apply getAutoCompleteResults_request_throw in Er as [-> Er].
      destruct (settle_lookup (promise req) (promise r) (Rejected URIError) w)
        as [E|(E0 & E1 & E2)].
      * apply IH; [assumption|assumption|congruence].
      * now apply Hstable.
Qed.

(** A queued request whose address cannot be encoded is refused by the
    drain: no call is issued for it and its promise is rejected with the
    [URIError]. *)
Lemma drain_refuses_unencodable (w : World) (t : nat)
    (queue : list QueuedRequest) (req : QueuedRequest) :
  pending_timer w t -> _queue (client w) = Some queue ->
  req ∈ queue -> isWellFormed (address req) = false ->
  promises w !! promise req = Some Pending ->
  let w' := step w (TimerFires t) in
  future w' (promise req) = Rejected URIError
  /\ calls w' = calls w ++ drain_calls (_params (client w)) queue
  /\ (forall call, call ∈ drain_calls (_params (client w)) queue ->
        cont call <> InDrain req).
Proof.
  intros (tm & Ht & Hs) Hq Hin Ha Hp w'. subst w'.
  rewrite (step_timer_draining w t tm queue Ht Hs Hq). split; [|split].
  - apply future_direct; [|discriminate]. cbn [promises].
    now apply drain_rejects_rejects.
  - reflexivity.
  - intros call Hc. apply drain_calls_elem in Hc as (r & x & _ & Hr & ->).
    cbn. intros [= ->].
    apply getAutoCompleteResults_request_return in Hr as [Hr _]. congruence.
Qed.

(** C4: while the queue is set, a submission is appended at the end of
    that queue and its pending promise is returned; no call is issued, no
    timer is created or cancelled and the timer field is untouched.  In the
    scenario of four submissions whose addresses can be encoded, the queue
    holds A, B, C, D in that order, the drain issues their calls in that
    order, five calls are issued in all, each caller's promise settles with
    the outcome of its own call, and the queue is unset after the drain.  A
    queued request whose address cannot be encoded gets no call from the
    drain: its promise is rejected with the [URIError]. *)
Theorem submissions_while_draining_join_the_queue :
  (forall (w : World) (queue : list QueuedRequest) (a : string)
          (o : AutoCompleteOptions),
     _queue (client w) = Some queue ->
     let w' := step w (CallAutoComplete a o) in
     let p := snd (autoComplete a o w) in
     _queue (client w') = Some (queue ++ [queued a o p])
     /\ calls w' = calls w
     /\ timers w' = timers w
     /\ _timeout (client w') = _timeout (client w)
     /\ future w' p = Pending)
  /\ (forall (w : World) (a b c d : string) (oa ob oc od : AutoCompleteOptions)
             (err : AxiosError) (ra rb rc rd : AxiosOutcome Data),
        Idle w ->
        isWellFormed a = true -> isWellFormed b = true ->
        isWellFormed c = true -> isWellFormed d = true ->
        response_status err = Some 429%Z ->
        let n := length (calls w) in
        let t := length (timers w) in
        let p := length (promises w) in
        let w1 := run w [CallAutoComplete a oa; AxiosSettles n (AxiosReject err)] in
        let w2 := run w1 [CallAutoComplete b ob; CallAutoComplete c oc;
                          CallAutoComplete d od] in
        let w3 := step w2 (TimerFires t) in
        let w4 := run w3 [AxiosSettles (n + 1) ra; AxiosSettles (n + 2) rb;
                          AxiosSettles (n + 3) rc; AxiosSettles (n + 4) rd] in
        (_queue (client w1) = Some [queued a oa (p + 1)] /\ pending_timer w1 t)
        /\ (_queue (client w2) =
              Some [queued a oa (p + 1); queued b ob (p + 2);
                    queued c oc (p + 3); queued d od (p + 4)]
            /\ length (calls w2) = n + 1
            /\ timers w2 = timers w1
            /\ _timeout (client w2) = _timeout (client w1))
        /\ (Idle w3
            /\ length (calls w3) = n + 5
            /\ calls w3 = calls w2 ++ drain_calls (_params (client w))
                 [queued a oa (p + 1); queued b ob (p + 2); queued c oc (p + 3);
                  queued d od (p + 4)]
            /\ drain_calls (_params (client w))
                 [queued a oa (p + 1); queued b ob (p + 2); queued c oc (p + 3);
                  queued d od (p + 4)]
               = [new_call (encoded_request (_params (client w)) a oa)
                           (InDrain (queued a oa (p + 1)));
                  new_call (encoded_request (_params (client w)) b ob)
                           (InDrain (queued b ob (p + 2)));
                  new_call (encoded_request (_params (client w)) c oc)
                           (InDrain (queued c oc (p + 3)));
                  new_call (encoded_request (_params (client w)) d od)
                           (InDrain (queued d od (p + 4)))])
        /\ (Idle w4
            /\ length (calls w4) = n + 5
            /\ future w4 p = outcome_state (resume ra)
            /\ future w4 (p + 2) = outcome_state (resume rb)
            /\ future w4 (p + 3) = outcome_state (resume rc)
            /\ future w4 (p + 4) = outcome_state (resume rd)))
  /\ (forall (w : World) (t : nat) (queue : list QueuedRequest)
             (req : QueuedRequest),
        pending_timer w t -> _queue (client w) = Some queue ->
        req ∈ queue -> isWellFormed (address req) = false ->
        promises w !! promise req = Some Pending ->
        let w' := step w (TimerFires t) in
        future w' (promise req) = Rejected URIError
        /\ calls w' = calls w ++ drain_calls (_params (client w)) queue
        /\ (forall call, call ∈ drain_calls (_params (client w)) queue ->
              cont call <> InDrain req)).
Proof.
  split; [|split].
  - apply submit_while_draining.
  - apply four_submissions_scenario.
  - apply drain_refuses_unencodable.
Qed.

(** ** Lifecycle of the queue and the timer *)
Lemma new_FuzzySearch_fresh env options c :
  new_FuzzySearch env options = Return c ->
  _queue c = None /\ _timeout c = None.
Proof.
  unfold new_FuzzySearch. destruct (getParams env options); [|discriminate].
  intros [= <-]. auto.
Qed.

Lemma pending_timer_settle p st w t :
  pending_timer (settle p st w) t <-> pending_timer w t.
Proof. unfold pending_timer. now rewrite settle_timers. Qed.

Lemma reachable_wf w : reachable w -> wf w.
Proof.
  intros (env & options & c & events & Hc & ->).
  apply wf_run. apply new_FuzzySearch_fresh in Hc as [Hq Ht].
  now apply wf_boot.
Qed.

Lemma reachable_step w e :
  reachable w -> reachable (step w e).
Proof.
  intros (env & options & c & events & Hc & ->).
  exists env, options, c, (events ++ [e]). split; [assumption|].
  unfold run. now rewrite fold_left_app.
Qed.

Lemma run_app w events events' :
  run w (events ++ events') = run (run w events) events'.
Proof. unfold run. apply fold_left_app. Qed.

Lemma reachable_run w events :
  reachable w -> reachable (run w events).
Proof.
  intros (env & options & c & events0 & Hc & ->).
  exists env, options, c, (events0 ++ events). split; [assumption|].
  now rewrite run_app.
Qed.

(** The client of the world after a settled call: either unchanged, or the
    request joined or created the queue. *)
Lemma _runAutoComplete_resume_client p a o out w :
  let w' := _runAutoComplete_resume p a o out w in
  (client w' = client w /\ timers w' = timers w)
  \/ (exists queue, _queue (client w) = Some queue
        /\ client w' = set_queue (Some (queue ++ [queued a o (length (promises w))]))
                                 (client w)
        /\ timers w' = timers w)
  \/ (Idle w
      /\ client w' = set_timeout (Some (length (timers w)))
                       (set_queue (Some [queued a o (length (promises w))]) (client w))
      /\ timers w' = timers w ++ [fresh_timer w]).
Proof.
  cbv zeta. rewrite _runAutoComplete_resume_eq.
  destruct (rate_limited (resume out)).
  - rewrite settle_client, settle_timers.
    destruct (_queue (client w)) as [q|] eqn:Eq.
    + right. left. exists q. split; [reflexivity|].
      now rewrite (_handleDelay_draining _ _ q) by exact Eq.
    + right. right. split; [exact Eq|].
      now rewrite _handleDelay_idle by exact Eq.
  - left. now rewrite settle_client, settle_timers.
Qed.

Lemma step_settles_client w c out :
  let w' := step w (AxiosSettles c out) in
  (client w' = client w /\ timers w' = timers w)
  \/ (exists queue r, _queue (client w) = Some queue
        /\ client w' = set_queue (Some (queue ++ [r])) (client w)
        /\ timers w' = timers w)
  \/ (Idle w
      /\ (exists r, client w' = set_timeout (Some (length (timers w)))
                                  (set_queue (Some [r]) (client w)))
      /\ timers w' = timers w ++ [fresh_timer w]).
Proof.
  cbv zeta. destruct (calls w !! c) as [call|] eqn:E.
  - destruct (settled call) eqn:Es.
    + rewrite step_settles_noop; [auto|]. intros call' E'. congruence.
    + rewrite (step_settles _ _ _ _ E Es). cbv zeta.
      destruct (cont call) as [p a o|req].
      * destruct (_runAutoComplete_resume_client p a o out
                    (set_calls (<[c:=settled_call call]> (calls w)) w))
          as [H|[(q & Hq & Hc & Ht)|(Hi & Hc & Ht)]].
        -- left. exact H.
        -- right. left. exists q. eexists. split; [exact Hq|].
           split; [exact Hc|exact Ht].
        -- right. right. split; [exact Hi|]. split; [eexists; exact Hc|exact Ht].
      * left. rewrite drain_resume_eq. now rewrite settle_client, settle_timers.
  - rewrite step_settles_noop; [auto|]. intros call' E'. congruence.
Qed.

Lemma step_timer_client w t :
  _timeout (client (step w (TimerFires t))) = _timeout (client w)
  /\ (pending_timer w t -> Idle (step w (TimerFires t)))
  /\ (Idle w -> Idle (step w (TimerFires t))).
Proof.
  destruct (timers w !! t) as [tm|] eqn:E.
  - destruct (timer_state tm) eqn:Es.
    + destruct (_queue (client w)) as [q|] eqn:Eq.
      * rewrite (step_timer_draining _ _ _ _ E Es Eq). unfold Idle. cbn. auto.
      * rewrite (step_timer _ _ _ E Es). unfold drain, Idle.
        cbn [client set_timers]. rewrite Eq. cbn. auto.
    + rewrite step_timer_noop.
      * split; [reflexivity|]. split; [|auto].
        intros (tm' & E' & Es'). congruence.
      * intros (tm' & E' & Es'). congruence.
    + rewrite step_timer_noop.
      * split; [reflexivity|]. split; [|auto].
        intros (tm' & E' & Es'). congruence.
      * intros (tm' & E' & Es'). congruence.
  - rewrite step_timer_noop.
    + split; [reflexivity|]. split; [|auto].
      intros (tm' & E' & Es'). congruence.
    + intros (tm' & E' & Es'). congruence.
Qed.

(** Entering Draining sets the queue and a fresh pending timer together. *)
Lemma entering_draining w e :
  Idle w -> Draining (step w e) ->
  _timeout (client (step w e)) = Some (length (timers w))
  /\ pending_timer (step w e) (length (timers w)).
Proof.
  intros Hi Hd. destruct e as [a o| |c out|t].
  - exfalso. apply Hd. unfold Idle.
    now destruct (step_submit_idle_client a o w Hi) as [-> _].
  - exfalso. apply Hd. cbn. now rewrite dispose_client.
  - destruct (step_settles_client w c out)
      as [[Hc Ht]|[(q & r & Hq & _)|(_ & (r & Hc) & Ht)]].
    + exfalso. apply Hd. unfold Idle in *. now rewrite Hc.
    + unfold Idle in Hi. congruence.
    + rewrite Hc. split; [reflexivity|].
      unfold pending_timer. rewrite Ht. eexists.
      split; [apply lookup_snoc|reflexivity].
  - exfalso. apply Hd. now apply step_timer_client.
Qed.

(** ** After [dispose]: the stranded queue *)

Lemma _handleDelay_frame r w :
  promises (_handleDelay r w) = promises w /\ calls (_handleDelay r w) = calls w.
Proof. unfold _handleDelay. now destruct (_queue (client w)). Qed.

Lemma _runAutoComplete_resume_calls p a o out w :
  calls (_runAutoComplete_resume p a o out w) = calls w.
Proof.
  rewrite _runAutoComplete_resume_eq. destruct (rate_limited (resume out));
    rewrite settle_calls; [|reflexivity].
  now destruct (_handleDelay_frame (queued a o (length (promises w)))
                  (set_promises (promises w ++ [Pending]) w)) as [_ ->].
Qed.

(** What a settled call does to the state of a promise [q]: nothing, unless
    [q] is the promise of the continuation and was pending. *)
Lemma _runAutoComplete_resume_lookup p a o out w q st :
  promises w !! q = Some st ->
  promises (_runAutoComplete_resume p a o out w) !! q = Some st
  \/ (q = p /\ st = Pending).
Proof.
  intros Hq. rewrite _runAutoComplete_resume_eq.
  assert (Hlt : q < length (promises w)) by now apply lookup_lt_Some in Hq.
  destruct (rate_limited (resume out)).
  - match goal with |- context [settle p ?s ?w'] =>
      destruct (settle_lookup q p s w') as [E|(-> & E & _)];
      destruct (_handleDelay_frame (queued a o (length (promises w)))
                  (set_promises (promises w ++ [Pending]) w)) as [Ep _]
    end.
    + left. rewrite E, Ep. cbn. now rewrite lookup_app_l.
    + right. split; [reflexivity|]. rewrite Ep in E. cbn in E.
      rewrite lookup_app_l in E by assumption. congruence.
  - destruct (settle_lookup q p (outcome_state (resume out)) w)
      as [E|(-> & E & _)].
    + left. congruence.
    + right. split; [reflexivity|]. congruence.
Qed.

Lemma step_lookup w e q st :
  promises w !! q = Some st ->
  promises (step w e) !! q = Some st
  \/ (st = Pending
      /\ ((e = CallDispose
           /\ promises (step w e) !! q = Some (Rejected clearing_queue))
          \/ (exists c call out,
               e = AxiosSettles c out /\ calls w !! c = Some call
               /\ settled call = false /\ cont_promise (cont call) = q)
          \/ (exists t queue req,
               e = TimerFires t /\ pending_timer w t
               /\ _queue (client w) = Some queue /\ req ∈ queue
               /\ promise req = q /\ isWellFormed (address req) = false
               /\ promises (step w e) !! q = Some (Rejected URIError)))).
Proof.
  intros Hq.
  assert (Hlt : q < length (promises w)) by now apply lookup_lt_Some in Hq.
  destruct e as [a o| |c out|t].
  - left. destruct (_queue (client w)) as [queue|] eqn:Eq.
    + rewrite (step_submit_draining _ _ _ _ Eq). cbn. now rewrite lookup_app_l.
    + destruct (isWellFormed a) eqn:Ha.
      * rewrite step_submit_idle by assumption. cbn. now rewrite lookup_app_l.
      * rewrite step_submit_idle_throw by assumption. cbn.
        now rewrite lookup_app_l.
  - cbn [step]. rewrite dispose_promises.
    destruct (_queue (client w)) as [queue|]; [|now left].
    destruct (reject_all_lookup queue w q) as [E|[E1 E2]].
    + left. congruence.
    + right. split; [congruence|]. left. auto.
  - destruct (calls w !! c) as [call|] eqn:E.
    + destruct (settled call) eqn:Es.
      * left. rewrite step_settles_noop; [assumption|]. intros call' E'. congruence.
      * rewrite (step_settles _ _ _ _ E Es). cbv zeta.
        destruct (cont call) as [p a o|req] eqn:Ek.
        -- destruct (_runAutoComplete_resume_lookup p a o out
                       (set_calls (<[c:=settled_call call]> (calls w)) w) q st Hq)
             as [H|[-> ->]]; [now left|].
           right. split; [reflexivity|]. right. left. exists c, call, out.
           rewrite Ek. auto.
        -- rewrite drain_resume_eq.
           match goal with |- context [settle ?p' ?s ?w'] =>
             destruct (settle_lookup q p' s w') as [H|(-> & H & _)]
           end.
           ++ left. cbn in H. congruence.
           ++ right. cbn in H. split; [congruence|]. right. left.
              exists c, call, out. rewrite Ek. auto.
    + left. rewrite step_settles_noop; [assumption|]. intros call' E'. congruence.
  - destruct (timers w !! t) as [tm|] eqn:E;
      [destruct (timer_state tm) eqn:Es|];
      try (left; rewrite step_timer_noop; [assumption|];
           intros (tm' & E' & Es'); congruence).
    destruct (_queue (client w)) as [queue|] eqn:Eq.
    + rewrite (step_timer_draining _ _ _ _ E Es Eq). cbn [promises].
      destruct (drain_rejects_lookup (_params (client w)) queue w q)
        as [H|(H1 & (req & Hin & Hp & Ha) & H2)].
      * left. congruence.
      * right. split; [congruence|]. right. right. exists t, queue, req.
        repeat split; try assumption. exists tm. auto.
    + left. rewrite (step_timer _ _ _ E Es). unfold drain.
      cbn [client set_timers]. now rewrite Eq.
Qed.

(** A settled promise never changes. *)
Lemma step_settled_stable w e q st :
  promises w !! q = Some st -> st <> Pending ->
  promises (step w e) !! q = Some st.
Proof.
  intros Hq Hn. destruct (step_lookup w e q st Hq) as [H|[H _]];
    [assumption|contradiction].
Qed.

Lemma run_settled_stable events w q st :
  promises w !! q = Some st -> st <> Pending ->
  promises (run w events) !! q = Some st.
Proof.
  revert w. induction events as [|e events IH]; intros w Hq Hn; [assumption|].
  cbn. apply IH; [|assumption]. now apply step_settled_stable.
Qed.

Lemma stranded_step w e : stranded w -> stranded (step w e).
Proof.
  intros [Hd Hn]. destruct (_queue (client w)) as [queue|] eqn:Eq;
    [|now destruct Hd].
  destruct e as [a o| |c out|t].
  - rewrite (step_submit_draining _ _ _ _ Eq). split; [discriminate|exact Hn].
  - cbn [step]. split.
    + unfold Draining. now rewrite dispose_client.
    + intros t Ht. apply dispose_no_new_timer in Ht as [Ht _]. now apply (Hn t).
  - destruct (step_settles_client w c out)
      as [[Hc Ht]|[(q & r & Hq & Hc & Ht)|(Hi & _)]].
    + split; unfold Draining, pending_timer; rewrite ?Hc, ?Ht; assumption.
    + split; unfold Draining, pending_timer; rewrite ?Hc, ?Ht;
        [discriminate|assumption].
    + unfold Idle in Hi. congruence.
  - rewrite step_timer_noop by apply Hn. now split.
Qed.

Lemma stranded_run events w : stranded w -> stranded (run w events).
Proof.
  revert w. induction events as [|e events IH]; intros w Hs; [assumption|].
  cbn. apply IH. now apply stranded_step.
Qed.

Lemma calls_avoid_step p w e :
  stranded w -> calls_avoid p w -> calls_avoid p (step w e).
Proof.
  intros [Hd Hn] Ha. destruct (_queue (client w)) as [queue|] eqn:Eq;
    [|now destruct Hd].
  destruct e as [a o| |c out|t].
  - now rewrite (step_submit_draining _ _ _ _ Eq).
  - cbn [step]. unfold calls_avoid. now rewrite dispose_calls.
  - destruct (calls w !! c) as [call|] eqn:E.
    + destruct (settled call) eqn:Es.
      * rewrite step_settles_noop; [assumption|]. intros call' E'. congruence.
      * rewrite (step_settles _ _ _ _ E Es). cbv zeta.
        assert (Ha' : calls_avoid p
                  (set_calls (<[c:=settled_call call]> (calls w)) w)).
        { intros c' call' E'. cbn in E'.
          destruct (decide (c' = c)) as [->|Hne].
          - rewrite list_lookup_insert_eq in E' by now apply lookup_lt_Some in E.
            injection E' as <-. cbn. eapply Ha; eauto.
          - rewrite list_lookup_insert_ne in E' by congruence. eapply Ha; eauto. }
        destruct (cont call) as [p0 a o|req].
        -- unfold calls_avoid. now rewrite _runAutoComplete_resume_calls.
        -- rewrite drain_resume_eq. unfold calls_avoid. now rewrite settle_calls.
    + rewrite step_settles_noop; [assumption|]. intros call' E'. congruence.
  - now rewrite step_timer_noop by apply Hn.
Qed.

(** A request that joined a stranded queue: its promise stays pending until
    a later [dispose] rejects it, and nothing else ever settles it. *)
Lemma stranded_promise events w p :
  stranded w -> calls_avoid p w -> promises w !! p = Some Pending ->
  promises (run w events) !! p = Some Pending
  \/ (CallDispose ∈ events
      /\ promises (run w events) !! p = Some (Rejected clearing_queue)).
Proof.
  revert w. induction events as [|e events IH]; intros w Hs Ha Hp; [now left|].
  cbn [run fold_left].
  destruct (step_lookup w e p Pending Hp)
    as [H|(_ & [[-> H]|[(c & call & out & -> & Hc & _ & Hk)
                       |(t & queue & req & -> & Ht & _)]])].
  - destruct (IH (step w e)) as [H'|[Hin H']];
      [now apply stranded_step|now apply calls_avoid_step|assumption| |].
    + now left.
    + right. split; [now apply list_elem_of_further|assumption].
  - right. split; [apply list_elem_of_here|].
    now apply run_settled_stable.
  - exfalso. now apply (Ha c call).
  - exfalso. now apply (proj2 Hs t).
Qed.

(** C2, amended: in every world reachable from a new client, whenever the
    queue is set the timer field is set too.  The two are set together when
    the client enters Draining: the step that sets the queue stores the handle
    of a timer created by that step, which is pending.  When a pending timer
    fires, the queue is unset and the timer field keeps its handle. *)
Theorem queue_set_only_with_timer_set
    (env : option string) (options : FuzzySearchOptions) (c : FuzzySearch)
    (events : list (Event Data)) :
  new_FuzzySearch env options = Return c ->
  let w := run (boot c) events in
  (Draining w -> _timeout (client w) <> None)
  /\ (forall e, Idle w -> Draining (step w e) ->
        _timeout (client (step w e)) = Some (length (timers w))
        /\ pending_timer (step w e) (length (timers w)))
  /\ (forall t, pending_timer w t ->
        Idle (step w (TimerFires t))
        /\ _timeout (client (step w (TimerFires t))) = _timeout (client w)).
Proof.
  intros Hc w.
  assert (Hw : wf w).
  { apply reachable_wf. exists env, options, c, events. auto. }
  split; [|split].
  - apply (wf_timeout _ Hw).
  - intros e. apply entering_draining.
  - intros t Ht. destruct (step_timer_client w t) as (H1 & H2 & _).
    auto.
Qed.

(** C5: a validation failure is thrown on as the validator's error, a
    transport failure with status 429 becomes [TooManyRequestsError], and
    any other transport failure is thrown on as the fault that was caught.
    A call that fails with anything but the rate-limit error rejects the
    promise waiting for it with that very error; no call is issued, and
    the queue, the timer field and the timers are untouched. *)
Theorem failures_are_propagated_not_retried :
  (forall data e, parseResponse data = inl e ->
     resume (AxiosResolve data) = Throw (Validation e))
  /\ (forall err, response_status err = Some 429%Z ->
        resume (AxiosReject err) = Throw TooManyRequestsError)
  /\ (forall err, response_status err <> Some 429%Z ->
        resume (AxiosReject err) = Throw (Transport err))
  /\ (forall w c call out e,
        calls w !! c = Some call -> settled call = false ->
        promises w !! cont_promise (cont call) = Some Pending ->
        resume out = Throw e -> e <> TooManyRequestsError ->
        let w' := step w (AxiosSettles c out) in
        future w' (cont_promise (cont call)) = Rejected e
        /\ length (calls w') = length (calls w)
        /\ client w' = client w
        /\ timers w' = timers w).
Proof.
  split; [|split; [|split]].
  - apply resume_invalid.
  - apply resume_status_429.
  - apply resume_status_other.
  - intros w c call out e Hc Hs Hp Hr Hne w'. subst w'.
    assert (Hlt : cont_promise (cont call) < length (promises w))
      by now apply lookup_lt_Some in Hp.
    destruct (cont call) as [p a o|req] eqn:Ek; cbn [cont_promise] in *.
    + rewrite (step_run_settles w c call p a o out Hc Hs Ek Hp).
      * rewrite Hr. cbn [client calls timers outcome_state].
        rewrite length_insert. repeat split.
        apply future_direct; [|discriminate]. cbn [promises].
        now apply list_lookup_insert_eq.
      * rewrite Hr. now destruct e.
    + rewrite (step_drain_settles w c call req out Hc Hs Ek Hp).
      rewrite Hr. cbn [client calls timers outcome_state].
      rewrite length_insert. repeat split.
      apply future_direct; [|discriminate]. cbn [promises].
      now apply list_lookup_insert_eq.
Qed.

(** C10, amended: after [dispose] in a reachable world whose queue is set,
    the queue stays set whatever happens next; every later [autoComplete]
    appends its request to that queue, issues no call, and no timer is
    pending to drain it; the promise it returns is never fulfilled: it stays
    pending, unless a later [dispose] rejects it with the clearing error. *)
Theorem dispose_while_draining_strands_the_queue
    (env : option string) (options : FuzzySearchOptions) (c : FuzzySearch)
    (events later after : list (Event Data))
    (a : string) (o : AutoCompleteOptions) :
  new_FuzzySearch env options = Return c ->
  let w := run (boot c) events in
  Draining w ->
  let w1 := run (dispose w) later in
  let p := snd (autoComplete a o w1) in
  let w2 := step w1 (CallAutoComplete a o) in
  Draining w1
  /\ (exists queue, _queue (client w1) = Some queue
        /\ _queue (client w2) = Some (queue ++ [queued a o p]))
  /\ calls w2 = calls w1
  /\ (forall t, ~ pending_timer w2 t)
  /\ Draining (run w2 after)
  /\ (future (run w2 after) p = Pending
      \/ (CallDispose ∈ after
          /\ future (run w2 after) p = Rejected clearing_queue)).
Proof.
  intros Hc w Hd w1 p w2.
  assert (Hw : wf w).
  { apply reachable_wf. exists env, options, c, events. auto. }
  assert (Hs0 : stranded (dispose w)).
  { split.
    - unfold Draining. now rewrite dispose_client.
    - intros t Ht. apply dispose_no_new_timer in Ht as [Ht Hne].
      now apply (wf_timer _ Hw) in Ht as [Ht _]. }
  assert (Hs1 : stranded w1) by now apply stranded_run.
  assert (Hw1 : wf w1) by now apply wf_run, wf_dispose.
  assert (Hp : p = length (promises w1)) by apply autoComplete_promise.
  destruct (_queue (client w1)) as [queue|] eqn:Eq; [|now destruct Hs1].
  assert (E2 : w2 = _) by exact (step_submit_draining a o w1 queue Eq).
  assert (Hs2 : stranded w2) by now apply stranded_step.
  assert (Ha : calls_avoid p w2).
  { rewrite E2. intros c0 call E. cbn in E.
    apply (wf_calls _ Hw1) in E. lia. }
  assert (Hp2 : promises w2 !! p = Some Pending).
  { rewrite E2, Hp. apply lookup_snoc. }
  split; [apply Hs1|]. split; [|split; [|split; [|split]]].
  - exists queue. split; [reflexivity|]. rewrite E2, Hp. reflexivity.
  - rewrite E2. reflexivity.
  - apply Hs2.
  - now apply stranded_run.
  - destruct (stranded_promise after w2 p Hs2 Ha Hp2) as [H|[Hin H]].
    + left. apply future_direct; [assumption|discriminate].
    + right. split; [assumption|].
      apply future_direct; [assumption|discriminate].
Qed.

(* ===================================================================== *)
(** * Further properties of the code *)

(** ** Construction *)

Lemma getParams_key_throw (env : option string) (o : FuzzySearchOptions) :
  throws (getParams env o) ->
  getParams env o = Throw (Error missing_key_message).
Proof.
  unfold getParams. destruct (nullish (apiKey o) env) as [k|]; cbn; [|auto].
  destruct (bool_decide (k = "")); cbn; tauto.
Qed.


(** X1: constructing a client fails exactly when no key can be resolved,
    with the error of [getParams], whatever the delay and the limit are; a
    constructed client holds the parameters of [getParams], has no queue and
    no timer, and its delay is the option given, 5000 only when the option
    is left out. *)
Theorem new_FuzzySearch_construction (env : option string)
    (o : FuzzySearchOptions) :
  (forall e, new_FuzzySearch env o = Throw e <-> getParams env o = Throw e)
  /\ (throws (new_FuzzySearch env o)
      <-> not_key (nullish (apiKey o) env) = true)
  /\ (forall c, new_FuzzySearch env o = Return c ->
        getParams env o = Return (_params c)
        /\ _queue c = None /\ _timeout c = None
        /\ _delay c = match delay o with
                      | Some d => d
                      | None => of_Z 5000
                      end).
Proof.
  unfold new_FuzzySearch. split; [|split].
  - intros e. destruct (getParams env o); split; intros H; congruence.
  - rewrite <- getParams_throws. now destruct (getParams env o).
  - intros c. destruct (getParams env o) as [p|e]; [|discriminate].
    intros [= <-]. cbn. repeat split.
Qed.

(** ** Disposal *)

Lemma settle_not_pending p st w :
  promises w !! p <> Some Pending -> settle p st w = w.
Proof.
  intros H. unfold settle. destruct (promises w !! p) as [[]|]; congruence.
Qed.

Lemma reject_all_noop queue w :
  (forall req, req ∈ queue -> promises w !! promise req <> Some Pending) ->
  reject_all queue w = w.
Proof.
  induction queue as [|r queue IH]; intros H; [reflexivity|].
  cbn. rewrite settle_not_pending by (apply H; apply list_elem_of_here).
  apply IH. intros req Hin. apply H. now apply list_elem_of_further.
Qed.

Lemma reject_all_settles queue w req :
  req ∈ queue -> promises (reject_all queue w) !! promise req <> Some Pending.
Proof.
  intros Hin. destruct (promises w !! promise req) as [st|] eqn:E.
  - destruct st.
    + rewrite (reject_all_rejects queue w req Hin E). discriminate.
    + destruct (reject_all_lookup queue w (promise req)) as [H|[H _]];
        congruence.
    + destruct (reject_all_lookup queue w (promise req)) as [H|[H _]];
        congruence.
    + destruct (reject_all_lookup queue w (promise req)) as [H|[H _]];
        congruence.
  - destruct (reject_all_lookup queue w (promise req)) as [H|[H _]];
      congruence.
Qed.

Lemma clearTimeout_noop h w :
  (forall t, h = Some t -> ~ pending_timer w t) -> clearTimeout h w = w.
Proof.
  intros H. unfold clearTimeout. destruct h as [t|]; [|reflexivity].
  destruct (timers w !! t) as [[d []]|] eqn:E; try reflexivity.
  exfalso. apply (H t eq_refl). eexists. split; [exact E|reflexivity].
Qed.

(** X2: in a world reachable from a new client, [dispose] on an idle
    client changes nothing at all. *)
Theorem dispose_idle_is_noop (w : World) :
  reachable w -> Idle w -> dispose w = w.
Proof.
  intros Hr Hi. apply reachable_wf in Hr.
  rewrite dispose_eq. unfold Idle in Hi. rewrite Hi.
  apply clearTimeout_noop. intros t _ Ht.
  apply (wf_timer _ Hr) in Ht as [_ Hd]. now apply Hd.
Qed.

(** X3: [dispose] is idempotent: in any world, a second call right after
    the first changes nothing. *)
Theorem dispose_twice (w : World) : dispose (dispose w) = dispose w.
Proof.
  rewrite (dispose_eq (dispose w)), dispose_client.
  assert (Ht : forall t, _timeout (client w) = Some t ->
                         ~ pending_timer (dispose w) t).
  { intros t Ht Hp. apply dispose_no_new_timer in Hp as [_ Hne]. congruence. }
  destruct (_queue (client w)) as [queue|] eqn:Eq.
  - rewrite reject_all_noop.
    + now apply clearTimeout_noop.
    + intros req Hin. rewrite dispose_promises, Eq.
      now apply reject_all_settles.
  - now apply clearTimeout_noop.
Qed.

(** X4: in a reachable world, [dispose] rejects every queued request that
    is still pending with the clearing error, leaves every settled promise
    as it is, leaves no timer pending and issues no call. *)
Theorem dispose_rejects_the_queue (w : World) (queue : list QueuedRequest) :
  reachable w -> _queue (client w) = Some queue ->
  (forall req, req ∈ queue -> promises w !! promise req = Some Pending ->
     future (dispose w) (promise req) = Rejected clearing_queue)
  /\ (forall p st, promises w !! p = Some st -> st <> Pending ->
        promises (dispose w) !! p = Some st)
  /\ (forall t, ~ pending_timer (dispose w) t)
  /\ calls (dispose w) = calls w.
Proof.
  intros Hr Hq. apply reachable_wf in Hr.
  split; [|split; [|split]].
  - intros req Hin Hp. apply future_direct; [|discriminate].
    rewrite dispose_promises, Hq. now apply reject_all_rejects.
  - intros p st Hp Hne. rewrite dispose_promises, Hq.
    destruct (reject_all_lookup queue w p) as [H|[H _]]; congruence.
  - intros t Ht. apply dispose_no_new_timer in Ht as [Ht Hne].
    now apply (wf_timer _ Hr) in Ht as [Ht _].
  - apply dispose_calls.
Qed.

(** ** Timers *)

(** X13: in every reachable world at most one timer is pending; it is the
    one whose handle the client holds, and the client is draining. *)
Theorem at_most_one_pending_timer (w : World) (t t' : nat) :
  reachable w -> pending_timer w t -> pending_timer w t' ->
  t = t' /\ _timeout (client w) = Some t /\ Draining w.
Proof.
  intros Hr Ht Ht'. apply reachable_wf in Hr.
  destruct (wf_timer _ Hr _ Ht) as [H1 Hd].
  destruct (wf_timer _ Hr _ Ht') as [H2 _].
  split; [congruence|]. split; assumption.
Qed.

(** ** Retry amplification is bounded *)

Lemma first_attempts_in_flight_app cs cs' :
  first_attempts_in_flight (cs ++ cs')
  = first_attempts_in_flight cs + first_attempts_in_flight cs'.
Proof. induction cs as [|call cs IH]; cbn; [reflexivity|]. rewrite IH. lia. Qed.

Lemma first_attempts_in_flight_drain params queue :
  first_attempts_in_flight (drain_calls params queue) = 0.
Proof.
  unfold drain_calls. induction queue as [|req queue IH]; cbn; [reflexivity|].
  unfold drain_call at 1.
  destruct (getAutoCompleteResults_request params (address req) (options req));
    [exact IH|exact IH].
Qed.

Lemma first_attempts_in_flight_settled cs : forall c call,
  cs !! c = Some call -> settled call = false ->
  first_attempts_in_flight (<[c := settled_call call]> cs)
  + (match cont call with InRunAutoComplete _ _ _ => 1 | InDrain _ => 0 end)
  = first_attempts_in_flight cs.
Proof.
  induction cs as [|call0 cs IH]; intros c call Hc Hs; [discriminate|].
  destruct c as [|c]; cbn [lookup list_lookup insert list_insert
                           first_attempts_in_flight] in *.
  - injection Hc as ->. unfold first_attempt_in_flight, settled_call.
    cbn [cont settled]. rewrite Hs.
    destruct (cont call); cbn [negb]; lia.
  - rewrite <- (IH c call Hc Hs). symmetry. apply Nat.add_assoc.
Qed.

(** What the client may still cost: the calls issued, the requests waiting
    in the queue and the first attempts not answered yet. *)
Lemma step_budget (w : World) (e : Event Data) :
  length (calls (step w e)) + queue_length (step w e)
  + first_attempts_in_flight (calls (step w e))
  <= length (calls w) + queue_length w + first_attempts_in_flight (calls w)
     + 2 * submissions [e].
Proof.
  unfold queue_length. destruct e as [a o| |c out|t]; cbn [submissions].
  - destruct (_queue (client w)) as [q|] eqn:Eq.
    + rewrite (step_submit_draining _ _ _ _ Eq). cbn. rewrite length_app. cbn. lia.
    + destruct (isWellFormed a) eqn:Ha.
      * rewrite step_submit_idle by assumption. cbn. rewrite Eq, length_app.
        rewrite first_attempts_in_flight_app. cbn. lia.
      * rewrite step_submit_idle_throw by assumption. cbn. rewrite Eq. lia.
  - cbn [step]. rewrite dispose_client, dispose_calls. lia.
  - destruct (calls w !! c) as [call|] eqn:E.
    + destruct (settled call) eqn:Es.
      * rewrite step_settles_noop; [lia|]. intros call' E'. congruence.
      * pose proof (first_attempts_in_flight_settled _ _ _ E Es) as Hf.
        rewrite (step_settles _ _ _ _ E Es). cbv zeta.
        destruct (cont call) as [p a o|req].
        -- rewrite _runAutoComplete_resume_calls. cbn [calls set_calls].
           rewrite length_insert.
           destruct (_runAutoComplete_resume_client p a o out
                       (set_calls (<[c:=settled_call call]> (calls w)) w))
             as [[Hc _]|[(q & Hq & Hc & _)|(Hi & Hc & _)]]; rewrite Hc; cbn.
           ++ destruct (_queue (client w)); lia.
           ++ cbn in Hq. rewrite Hq, length_app. cbn. lia.
           ++ unfold Idle in Hi. cbn in Hi. rewrite Hi. lia.
        -- rewrite drain_resume_eq, settle_client, settle_calls. cbn.
           rewrite length_insert. destruct (_queue (client w)); lia.
    + rewrite step_settles_noop; [lia|]. intros call' E'. congruence.
  - destruct (timers w !! t) as [tm|] eqn:E.
    + destruct (timer_state tm) eqn:Es.
      * destruct (_queue (client w)) as [q|] eqn:Eq.
        -- rewrite (step_timer_draining _ _ _ _ E Es Eq). cbn.
           rewrite length_app.
           rewrite first_attempts_in_flight_app, first_attempts_in_flight_drain.
           pose proof (drain_calls_length (_params (client w)) q). lia.
        -- rewrite (step_timer _ _ _ E Es). unfold drain.
           cbn [client set_timers]. rewrite Eq. cbn. rewrite Eq. lia.
      * rewrite step_timer_noop; [lia|]. intros (tm' & E' & Es'). congruence.
      * rewrite step_timer_noop; [lia|]. intros (tm' & E' & Es'). congruence.
    + rewrite step_timer_noop; [lia|]. intros (tm' & E' & Es'). congruence.
Qed.

Lemma run_budget (events : list (Event Data)) : forall w,
  length (calls (run w events)) + queue_length (run w events)
  + first_attempts_in_flight (calls (run w events))
  <= length (calls w) + queue_length w + first_attempts_in_flight (calls w)
     + 2 * submissions events.
Proof.
  induction events as [|e events IH]; intros w; [cbn; lia|].
  cbn [run fold_left]. fold (run (step w e) events).
  specialize (IH (step w e)). pose proof (step_budget w e) as Hs.
  assert (submissions (e :: events) = submissions [e] + submissions events)
    as -> by (destruct e; reflexivity).
  lia.
Qed.

(** X6: a client issues at most two calls per submission, whatever the
    transport answers and however the events interleave: the first attempt
    and at most one retry. *)
Theorem at_most_two_calls_per_submission
    (env : option string) (o : FuzzySearchOptions) (c : FuzzySearch)
    (events : list (Event Data)) :
  new_FuzzySearch env o = Return c ->
  length (calls (run (boot c) events)) <= 2 * submissions events.
Proof.
  intros Hc. apply new_FuzzySearch_fresh in Hc as [Hq _].
  pose proof (run_budget events (boot c)) as H.
  unfold queue_length in H at 2. cbn in H. rewrite Hq in H. lia.
Qed.

(** ** Every request is built from the parameters of the constructor *)

Lemma step_params (w : World) (e : Event Data) :
  _params (client (step w e)) = _params (client w).
Proof.
  destruct e as [a o| |c out|t].
  - destruct (_queue (client w)) as [q|] eqn:Eq.
    + now rewrite (step_submit_draining _ _ _ _ Eq).
    + now destruct (step_submit_idle_client a o w Eq) as [-> _].
  - cbn [step]. now rewrite dispose_client.
  - destruct (step_settles_client w c out)
      as [[-> _]|[(q & r & _ & -> & _)|(_ & (r & ->) & _)]]; reflexivity.
  - destruct (timers w !! t) as [tm|] eqn:E;
      [destruct (timer_state tm) eqn:Es|];
      try (rewrite step_timer_noop; [reflexivity|];
           intros (tm' & E' & Es'); congruence).
    destruct (_queue (client w)) as [q|] eqn:Eq.
    + now rewrite (step_timer_draining _ _ _ _ E Es Eq).
    + rewrite (step_timer _ _ _ E Es). unfold drain.
      cbn [client set_timers]. now rewrite Eq.
Qed.

Lemma step_request_shape (w : World) (e : Event Data) (i : nat) (call : Call) :
  calls (step w e) !! i = Some call ->
  (exists call0, calls w !! i = Some call0
     /\ request call0 = request call /\ cont call0 = cont call)
  \/ getAutoCompleteResults_request (_params (client w))
       (cont_address (cont call)) (cont_options (cont call))
     = Return (request call).
Proof.
  assert (Hsnoc : forall (l k : list Call),
            (l ++ k) !! i = Some call ->
            (forall j, k !! j = Some call ->
               getAutoCompleteResults_request (_params (client w))
                 (cont_address (cont call)) (cont_options (cont call))
               = Return (request call)) ->
            (exists call0, l !! i = Some call0
               /\ request call0 = request call /\ cont call0 = cont call)
            \/ getAutoCompleteResults_request (_params (client w))
                 (cont_address (cont call)) (cont_options (cont call))
               = Return (request call)).
  { intros l k H Hk. destruct (decide (i < length l)) as [Hlt|Hge].
    - rewrite lookup_app_l in H by assumption. left. eauto.
    - rewrite lookup_app_r in H by lia. right. eauto. }
  assert (Hins : forall c call0,
            calls w !! c = Some call0 ->
            <[c := settled_call call0]> (calls w) !! i = Some call ->
            exists call1, calls w !! i = Some call1
              /\ request call1 = request call /\ cont call1 = cont call).
  { intros c call0 E H. destruct (decide (i = c)) as [->|Hne].
    - rewrite list_lookup_insert_eq in H by now apply lookup_lt_Some in E.
      injection H as <-. eauto.
    - rewrite list_lookup_insert_ne in H by congruence. eauto. }
  destruct e as [a o| |c out|t].
  - destruct (_queue (client w)) as [q|] eqn:Eq.
    + rewrite (step_submit_draining _ _ _ _ Eq). cbn. left. eauto.
    + destruct (isWellFormed a) eqn:Ha.
      * rewrite step_submit_idle by assumption. cbn. intros H.
        apply (Hsnoc _ _ H). intros [|[|j]] Hj; try discriminate.
        injection Hj as <-. cbn. now apply getAutoCompleteResults_request_wf.
      * rewrite step_submit_idle_throw by assumption. cbn. left. eauto.
  - cbn [step]. rewrite dispose_calls. left. eauto.
  - destruct (calls w !! c) as [call0|] eqn:E.
    + destruct (settled call0) eqn:Es.
      * rewrite step_settles_noop; [left; eauto|]. intros call' E'. congruence.
      * rewrite (step_settles _ _ _ _ E Es). cbv zeta.
        destruct (cont call0) as [p a o|req].
        -- rewrite _runAutoComplete_resume_calls. cbn. left. eauto.
        -- rewrite drain_resume_eq, settle_calls. cbn. left. eauto.
    + rewrite step_settles_noop; [left; eauto|]. intros call' E'. congruence.
  - destruct (timers w !! t) as [tm|] eqn:E;
      [destruct (timer_state tm) eqn:Es|];
      try (rewrite step_timer_noop; [left; eauto|];
           intros (tm' & E' & Es'); congruence).
    destruct (_queue (client w)) as [q|] eqn:Eq.
    + rewrite (step_timer_draining _ _ _ _ E Es Eq). cbn. intros H.
      apply (Hsnoc _ _ H). intros j Hj.
      apply list_elem_of_lookup_2, drain_calls_elem in Hj
        as (req & r & _ & Hr & ->).
      exact Hr.
    + rewrite (step_timer _ _ _ E Es). unfold drain.
      cbn [client set_timers]. rewrite Eq. cbn. left. eauto.
Qed.

Lemma run_request_shape (events : list (Event Data)) : forall w params,
  _params (client w) = params ->
  (forall i call, calls w !! i = Some call ->
     getAutoCompleteResults_request params
       (cont_address (cont call)) (cont_options (cont call))
     = Return (request call)) ->
  _params (client (run w events)) = params
  /\ forall i call, calls (run w events) !! i = Some call ->
       getAutoCompleteResults_request params
         (cont_address (cont call)) (cont_options (cont call))
       = Return (request call).
Proof.
  induction events as [|e events IH]; intros w params Hp Hc; [auto|].
  cbn [run fold_left]. apply IH.
  - now rewrite step_params.
  - intros i call H.
    destruct (step_request_shape w e i call H) as [(call0 & E & Hr & Hk)|Hnew].
    + rewrite <- Hr, <- Hk. now apply (Hc i).
    + now rewrite <- Hp.
Qed.

(** In a reachable world, every call in the log carries the request that
    [getAutoCompleteResults] builds for the client's parameters and for the
    address and the options of its continuation; in particular that address
    can be encoded. *)
Lemma reachable_request_shape (w : World) (i : nat) (call : Call) :
  reachable w -> calls w !! i = Some call ->
  getAutoCompleteResults_request (_params (client w))
    (cont_address (cont call)) (cont_options (cont call))
  = Return (request call).
Proof.
  intros (env & o & c & events & Hc & ->) Hi.
  destruct (run_request_shape events (boot c) (_params c) eq_refl) as [Hp Hr].
  { intros j call0 Hj. discriminate Hj. }
  rewrite Hp. now apply (Hr i).
Qed.

(** X7: every request a client ever sends, first attempt or retry, is the
    request of [getAutoCompleteResults] for the parameters built by the
    constructor and for the address and the options of the submission it
    belongs to: the country filter is always the constant, the key is never
    empty, and the parameters of the client never change. *)
Theorem every_request_uses_the_client_params
    (env : option string) (o : FuzzySearchOptions) (c : FuzzySearch)
    (events : list (Event Data)) (i : nat) (call : Call) :
  new_FuzzySearch env o = Return c ->
  calls (run (boot c) events) !! i = Some call ->
  getAutoCompleteResults_request (_params c)
    (cont_address (cont call)) (cont_options (cont call))
  = Return (request call)
  /\ countrySet (config_params (request call)) = COUNTRY_CODE
  /\ key (config_params (request call)) <> ""
  /\ _params (client (run (boot c) events)) = _params c.
Proof.
  intros Hc Hi.
  destruct (run_request_shape events (boot c) (_params c) eq_refl) as [Hp Hr].
  { intros j call0 Hj. discriminate Hj. }
  specialize (Hr i call Hi).
  unfold new_FuzzySearch in Hc.
  destruct (getParams env o) as [p|e] eqn:Eg; [|discriminate].
  injection Hc as <-. cbn [_params] in *.
  apply getParams_Return in Eg as (_ & Hk & Hcs & _).
  split; [exact Hr|].
  apply getAutoCompleteResults_request_return in Hr as [_ ->]. cbn. auto.
Qed.

(** ** Submissions that are not rate-limited *)

(** X11: a submission made while the client is idle, for an address that
    can be encoded, issues exactly one call, for the client's parameters and
    the caller's address and options; when that call is then answered
    with anything but the rate-limit error, the caller's promise is settled
    with that outcome (the mapped results in payload order on success), and
    the client is left idle as it was: no queue, no timer, no further call.  For
    an address that [encodeURIComponent] refuses, no call is issued at all:
    the promise is rejected with the [URIError] and the client is left as it
    was. *)
Theorem idle_submission_answered_directly
    (w : World) (a : string) (o : AutoCompleteOptions) (out : AxiosOutcome Data) :
  Idle w ->
  let n := length (calls w) in
  let p := snd (autoComplete a o w) in
  let w1 := step w (CallAutoComplete a o) in
  let w2 := step w1 (AxiosSettles n out) in
  (isWellFormed a = true ->
   rate_limited (resume out) = false ->
   (calls w1 = calls w ++ [new_call (encoded_request (_params (client w)) a o)
                             (InRunAutoComplete p a o)]
    /\ future w1 p = Pending)
   /\ future w2 p = outcome_state (resume out)
   /\ (forall data res, out = AxiosResolve data -> parseResponse data = inr res ->
       future w2 p = Fulfilled (map toAutoCompleteResult (Schema.results res)))
   /\ length (calls w2) = n + 1
   /\ client w2 = client w
   /\ timers w2 = timers w)
  /\ (isWellFormed a = false ->
      calls w1 = calls w
      /\ future w1 p = Rejected URIError
      /\ client w1 = client w
      /\ timers w1 = timers w
      /\ w2 = w1).
Proof.
  intros Hi n p w1 w2.
  assert (Hp : p = length (promises w)) by apply autoComplete_promise.
  split.
  - intros Ha Hr.
    assert (E1 : w1 = _) by exact (step_submit_idle a o w Hi Ha).
    assert (E2 : w2 =
      {| client := client w;
         promises := promises w ++ [outcome_state (resume out)];
         calls := calls w ++ [settled_call
                                (new_call (encoded_request (_params (client w)) a o)
                                          (InRunAutoComplete p a o))];
         timers := timers w |}).
    { subst w2 n. rewrite E1, Hp.
      erewrite step_run_settles;
        [ | apply lookup_snoc | reflexivity | reflexivity | apply lookup_snoc
          | exact Hr ].
      cbn [client promises calls timers]. now rewrite !insert_snoc. }
    assert (F2 : future w2 p = outcome_state (resume out)).
    { rewrite E2, Hp. apply future_direct; [|apply outcome_state_not_adopted].
      apply lookup_snoc. }
    split; [|split; [|split; [|split; [|split]]]].
    + rewrite E1, Hp. split; [reflexivity|].
      apply future_direct; [|discriminate]. apply lookup_snoc.
    + exact F2.
    + intros data res -> Hres. rewrite F2.
      now rewrite (getAutoCompleteResults_success _ _ Hres).
    + rewrite E2. cbn. rewrite length_app. reflexivity.
    + rewrite E2. reflexivity.
    + rewrite E2. reflexivity.
  - intros Ha.
    assert (E1 : w1 = _) by exact (step_submit_idle_throw a o w Hi Ha).
    repeat split.
    + now rewrite E1.
    + rewrite E1, Hp. apply future_direct; [|discriminate]. apply lookup_snoc.
    + now rewrite E1.
    + now rewrite E1.
    + subst w2 n. apply step_settles_noop. intros call Hc.
      rewrite E1 in Hc. cbn in Hc. apply lookup_lt_Some in Hc. lia.
Qed.

(** ** Concurrent submissions *)


(** ** The answers of a drain wave are independent *)

(** X14: the answers to two different calls of a drain wave commute: the
    world after both is the same whichever is answered first, so a request's
    outcome never depends on the order in which its siblings are answered. *)
Theorem drain_answers_commute
    (w : World) (c1 c2 : nat) (call1 call2 : Call) (r1 r2 : QueuedRequest)
    (o1 o2 : AxiosOutcome Data) :
  calls w !! c1 = Some call1 -> settled call1 = false -> cont call1 = InDrain r1 ->
  calls w !! c2 = Some call2 -> settled call2 = false -> cont call2 = InDrain r2 ->
  c1 <> c2 -> promise r1 <> promise r2 ->
  promises w !! promise r1 = Some Pending ->
  promises w !! promise r2 = Some Pending ->
  step (step w (AxiosSettles c1 o1)) (AxiosSettles c2 o2)
  = step (step w (AxiosSettles c2 o2)) (AxiosSettles c1 o1).
Proof.
  intros H1 S1 K1 H2 S2 K2 Hc Hp P1 P2.
  rewrite (step_drain_settles w c1 call1 r1 o1 H1 S1 K1 P1).
  rewrite (step_drain_settles w c2 call2 r2 o2 H2 S2 K2 P2).
  erewrite (step_drain_settles _ c2 call2 r2 o2);
    [ | cbn; now rewrite list_lookup_insert_ne | assumption | assumption
      | cbn; now rewrite list_lookup_insert_ne ].
  erewrite (step_drain_settles _ c1 call1 r1 o1);
    [ | cbn; now rewrite list_lookup_insert_ne by congruence | assumption
      | assumption | cbn; now rewrite list_lookup_insert_ne by congruence ].
  cbn [client promises calls timers]. f_equal.
  - apply list_insert_insert_ne. congruence.
  - apply list_insert_insert_ne. congruence.
Qed.

(** ** The request URL *)

Lemma hex_digit_unreserved (k : nat) : k < 16 -> unreserved (hex_digit k) = true.
Proof.
  intros H. do 16 (destruct k as [|k]; [reflexivity|]). lia.
Qed.

Lemma percent_encode_chars (s : string) :
  Forall (fun c => unreserved c = true \/ c = "%"%char)
         (list_ascii_of_string (percent_encode s)).
Proof.
  induction s as [|c s IH]; cbn [percent_encode]; [constructor|].
  destruct (unreserved c) eqn:E; cbn [list_ascii_of_string].
  - constructor; [now left|exact IH].
  - pose proof (nat_ascii_bounded c) as Hb.
    constructor; [now right|].
    constructor; [left; apply hex_digit_unreserved|].
    { apply Nat.Div0.div_lt_upper_bound. lia. }
    constructor; [left; apply hex_digit_unreserved|exact IH].
    apply Nat.mod_upper_bound. lia.
Qed.

Lemma percent_decode_unreserved (c : ascii) (s : string) :
  unreserved c = true ->
  percent_decode (String c s) = String c (percent_decode s).
Proof.
  destruct c as [[] [] [] [] [] [] [] []]; intros H;
    try discriminate H; reflexivity.
Qed.

Lemma percent_decode_escaped (c : ascii) (s : string) :
  unreserved c = false ->
  percent_decode
    (String "%" (String (hex_digit (nat_of_ascii c / 16))
       (String (hex_digit (nat_of_ascii c mod 16)) s)))
  = String c (percent_decode s).
Proof.
  destruct c as [[] [] [] [] [] [] [] []]; intros H;
    try discriminate H; reflexivity.
Qed.

Lemma percent_decode_percent_encode (s : string) :
  percent_decode (percent_encode s) = s.
Proof.
  induction s as [|c s IH]; cbn [percent_encode]; [reflexivity|].
  destruct (unreserved c) eqn:E.
  - rewrite percent_decode_unreserved by exact E. now rewrite IH.
  - rewrite percent_decode_escaped by exact E. now rewrite IH.
Qed.

Lemma list_ascii_of_string_append (s1 s2 : string) :
  list_ascii_of_string (s1 ++ s2)%string
  = list_ascii_of_string s1 ++ list_ascii_of_string s2.
Proof.
  induction s1 as [|c s1 IH]; [reflexivity|].
  change (c :: list_ascii_of_string (s1 ++ s2)%string
          = c :: (list_ascii_of_string s1 ++ list_ascii_of_string s2)).
  now rewrite IH.
Qed.

Lemma append_inv_tail (s1 s2 t : string) :
  (s1 ++ t)%string = (s2 ++ t)%string -> s1 = s2.
Proof.
  intros H. apply (f_equal list_ascii_of_string) in H.
  rewrite !list_ascii_of_string_append in H. apply app_inv_tail in H.
  rewrite <- (string_of_list_ascii_of_string s1).
  rewrite <- (string_of_list_ascii_of_string s2). now rewrite H.
Qed.

Lemma encodeURIComponent_return (a segment : string) :
  encodeURIComponent a = Return segment ->
  isWellFormed a = true /\ segment = percent_encode a.
Proof.
  unfold encodeURIComponent. destruct (isWellFormed a); [|discriminate].
  now intros [= <-].
Qed.

(** X8: the URL of a request is the fixed base, a slash, the encoded
    address and [.json]; the encoded address consists of unreserved
    characters and percent signs only, so no address can add a path
    segment, a query string or a fragment to the URL. *)
Theorem request_url_is_well_formed (params : AutoCompleteParams)
    (address : string) (options : AutoCompleteOptions) (req : AxiosRequest) :
  getAutoCompleteResults_request params address options = Return req ->
  exists segment,
    encodeURIComponent address = Return segment
    /\ url req = (SEARCH_URL ++ "/" ++ segment ++ ".json")%string
    /\ config_options req = options
    /\ config_params req = params
    /\ Forall (fun c => unreserved c = true \/ c = "%"%char)
              (list_ascii_of_string segment)
    /\ forall c, In c (list_ascii_of_string segment) ->
         c <> "/"%char /\ c <> "?"%char /\ c <> "#"%char /\ c <> "&"%char
         /\ c <> "="%char /\ c <> " "%char /\ c <> "+"%char /\ c <> ":"%char.
Proof.
  intros H. apply getAutoCompleteResults_request_return in H as [Ha ->].
  exists (percent_encode address).
  split; [unfold encodeURIComponent; now rewrite Ha|].
  split; [reflexivity|]. split; [reflexivity|]. split; [reflexivity|]. split.
  - apply percent_encode_chars.
  - intros c Hin.
    pose proof (percent_encode_chars address) as Hall.
    rewrite List.Forall_forall in Hall. specialize (Hall c Hin).
    repeat split; intros ->; destruct Hall as [H|H]; discriminate H.
Qed.

(** X9: the encoding loses nothing: percent-decoding the encoded address
    gives the address back, so two requests have the same URL only if they
    are for the same address. *)
Theorem request_url_determines_the_address
    (params params' : AutoCompleteParams) (a b : string)
    (options options' : AutoCompleteOptions) :
  (forall segment, encodeURIComponent a = Return segment ->
     percent_decode segment = a)
  /\ (forall ra rb,
        getAutoCompleteResults_request params a options = Return ra ->
        getAutoCompleteResults_request params' b options' = Return rb ->
        url ra = url rb -> a = b).
Proof.
  split.
  - intros segment H. apply encodeURIComponent_return in H as [_ ->].
    apply percent_decode_percent_encode.
  - intros ra rb Ha Hb H.
    apply getAutoCompleteResults_request_return in Ha as [_ ->].
    apply getAutoCompleteResults_request_return in Hb as [_ ->].
    cbn [url encoded_request] in H.
    apply String.app_inj in H. apply (String.app_inj "/") in H.
    apply append_inv_tail in H.
    rewrite <- (percent_decode_percent_encode a).
    rewrite <- (percent_decode_percent_encode b). now rewrite H.
Qed.

(** ** The one-shot function *)

(** X10: the one-shot function fails with the missing-key error, whatever
    the address and whatever the transport would answer, when the
    environment holds no key.  With a key, an address that
    [encodeURIComponent] refuses makes it fail with the [URIError] without
    consulting the transport; for any other address its result is that of
    the single lookup for the key of the environment, the country filter
    and the maximum limit 100: the mapped results on success,
    [TooManyRequestsError] on status 429, with no retry. *)
Theorem getAutoCompleteDetails_one_lookup
    (env : option string) (transport : AxiosRequest -> AxiosOutcome Data)
    (address : string) (options : option AutoCompleteOptions) :
  (not_key env = true ->
   getAutoCompleteDetails env transport address options
   = Throw (Error missing_key_message))
  /\ (forall k, env = Some k -> k <> "" -> isWellFormed address = false ->
        getAutoCompleteDetails env transport address options = Throw URIError)
  /\ (forall k, env = Some k -> k <> "" -> isWellFormed address = true ->
        let req := encoded_request
                     {| key := k; countrySet := COUNTRY_CODE;
                        params_limit := MAX_LIMIT |}
                     address (default default_options options) in
        getAutoCompleteResults_request
          {| key := k; countrySet := COUNTRY_CODE; params_limit := MAX_LIMIT |}
          address (default default_options options) = Return req
        /\ getAutoCompleteDetails env transport address options
           = getAutoCompleteResults_resume (transport req)
        /\ (forall data res, transport req = AxiosResolve data ->
              parseResponse data = inr res ->
              getAutoCompleteDetails env transport address options
              = Return (map toAutoCompleteResult (Schema.results res)))
        /\ (forall err, transport req = AxiosReject err ->
              response_status err = Some 429%Z ->
              getAutoCompleteDetails env transport address options
              = Throw TooManyRequestsError)).
Proof.
  unfold getAutoCompleteDetails, getAutoCompleteResults. split; [|split].
  - intros Hk.
    assert (Ht : throws (getParams env no_options))
      by now apply getParams_throws.
    now rewrite (getParams_key_throw env no_options Ht).
  - intros k -> Hne Ha.
    rewrite (getParams_Some (Some k) no_options k eq_refl Hne).
    now rewrite getAutoCompleteResults_request_eq, Ha.
  - intros k -> Hne Ha. cbv zeta.
    rewrite (getParams_Some (Some k) no_options k eq_refl Hne).
    cbn [limit no_options].
    rewrite (getAutoCompleteResults_request_wf _ _ _ Ha).
    split; [reflexivity|]. split; [reflexivity|]. split.
    + intros data res -> Hres. now apply getAutoCompleteResults_success.
    + intros err -> Hs. now apply resume_status_429.
Qed.

(** ** Parameters are a fixed point of the builder *)

Lemma clamp_limit_idempotent (l : number) :
  clamp_limit (clamp_limit l) = clamp_limit l.
Proof.
  destruct (number_trichotomy l) as [-> | [H | [H | H]]].
  - reflexivity.
  - now rewrite (clamp_limit_below _ H).
  - now rewrite !(clamp_limit_within _ H).
  - now rewrite (clamp_limit_above _ H).
Qed.

(** X17: building parameters again from built parameters changes nothing:
    whatever the environment, [getParams] on the key and the limit of
    parameters it returned returns the same parameters. *)
Theorem getParams_is_idempotent (env env' : option string)
    (o : FuzzySearchOptions) (p : AutoCompleteParams) (d : option number) :
  getParams env o = Return p ->
  getParams env' {| apiKey := Some (key p); delay := d;
                    limit := Some (params_limit p) |} = Return p.
Proof.
  intros H. apply getParams_Return in H as (_ & Hk & Hc & Hl).
  rewrite (getParams_Some env'
             {| apiKey := Some (key p); delay := d;
                limit := Some (params_limit p) |} (key p) eq_refl Hk).
  cbn [limit].
  assert (Hfix : clamp_limit (params_limit p) = params_limit p).
  { rewrite Hl. destruct (limit o); [apply clamp_limit_idempotent|reflexivity]. }
  rewrite Hfix, <- Hc. now destruct p.
Qed.

(** ** Queued requests wait for the drain *)

Lemma queue_sound_idle (w : World) : Idle w -> queue_sound w.
Proof. unfold Idle. intros H. split; intros; congruence. Qed.

(** A request with a fresh promise joins the queue, or starts it. *)
Lemma queue_sound_append (w w' : World) (a : string) (o : AutoCompleteOptions) :
  wf w -> queue_sound w ->
  _queue (client w')
  = Some (default [] (_queue (client w)) ++ [queued a o (length (promises w))]) ->
  (forall t, pending_timer w' t -> Draining w -> pending_timer w t) ->
  (forall c call, calls w' !! c = Some call ->
     exists call0, calls w !! c = Some call0 /\ cont call0 = cont call) ->
  (forall queue req, _queue (client w) = Some queue -> req ∈ queue ->
     promises w' !! promise req = promises w !! promise req) ->
  promises w' !! length (promises w) = Some Pending ->
  queue_sound w'.
Proof.
  intros Hw [Hn Hc Hp] Hq' Ht Hcalls Hold Hnew.
  assert (Hin_old : forall req, req ∈ default [] (_queue (client w)) ->
            exists queue, _queue (client w) = Some queue /\ req ∈ queue).
  { intros req Hin. destruct (_queue (client w)) as [q|]; cbn in Hin; [eauto|].
    now apply elem_of_nil in Hin. }
  split; rewrite Hq'.
  - intros ? [= <-]. rewrite fmap_app. apply NoDup_app.
    split; [|split; [|apply NoDup_singleton]].
    + destruct (_queue (client w)) as [q|] eqn:Eq; cbn;
        [now apply Hn|apply NoDup_nil_2].
    + intros x Hx Hx'. apply list_elem_of_singleton in Hx'. cbn in Hx'. subst x.
      apply list_elem_of_fmap in Hx as (req & Hreq & Hin).
      destruct (Hin_old _ Hin) as (q & Eq & Hin').
      pose proof (wf_queue _ Hw _ _ Eq Hin'). lia.
  - intros ? req c call [= <-] Hin Hcall.
    destruct (Hcalls _ _ Hcall) as (call0 & E & <-).
    apply elem_of_app in Hin as [Hin|Hin].
    + destruct (Hin_old _ Hin) as (q & Eq & Hin').
      now apply (Hc q req c call0).
    + apply list_elem_of_singleton in Hin. subst req. cbn.
      pose proof (wf_calls _ Hw _ _ E). lia.
  - intros ? req t [= <-] Hpt Hin.
    apply elem_of_app in Hin as [Hin|Hin].
    + destruct (Hin_old _ Hin) as (q & Eq & Hin').
      rewrite (Hold q req Eq Hin'). apply (Hp q req t Eq); [|assumption].
      apply Ht; [assumption|]. unfold Draining. congruence.
    + apply list_elem_of_singleton in Hin. now subst req.
Qed.

(** A promise that some call continues into is settled. *)
Lemma queue_sound_settle (w w' : World) (p : nat) :
  queue_sound w ->
  client w' = client w -> timers w' = timers w ->
  (forall c call, calls w' !! c = Some call ->
     exists call0, calls w !! c = Some call0 /\ cont call0 = cont call) ->
  (exists c call, calls w !! c = Some call /\ cont_promise (cont call) = p) ->
  (forall q, q <> p -> promises w' !! q = promises w !! q) ->
  queue_sound w'.
Proof.
  intros [Hn Hc Hp] Hcl Ht Hcalls (c0 & call0 & E0 & Hk0) Hother.
  split; rewrite Hcl.
  - exact Hn.
  - intros queue req c call Hq Hin Hcall.
    destruct (Hcalls _ _ Hcall) as (call' & E & <-). now apply (Hc queue req c call').
  - intros queue req t Hq Hpt Hin. rewrite Hother.
    + apply (Hp queue req t Hq); [|assumption].
      unfold pending_timer in *. now rewrite <- Ht.
    + intros Heq. apply (Hc queue req c0 call0 Hq Hin E0). congruence.
Qed.

Lemma lookup_insert_settled (cs : list Call) (c : nat) (call0 : Call) :
  cs !! c = Some call0 ->
  forall i call, <[c := settled_call call0]> cs !! i = Some call ->
    exists call1, cs !! i = Some call1 /\ cont call1 = cont call.
Proof.
  intros E i call H. destruct (decide (i = c)) as [->|Hne].
  - rewrite list_lookup_insert_eq in H by now apply lookup_lt_Some in E.
    injection H as <-. eauto.
  - rewrite list_lookup_insert_ne in H by congruence. eauto.
Qed.

Lemma queue_sound_step (w : World) (e : Event Data) :
  wf w -> queue_sound w -> queue_sound (step w e).
Proof.
  intros Hw Hs. destruct e as [a o| |c out|t].
  - destruct (_queue (client w)) as [q|] eqn:Eq.
    + rewrite (step_submit_draining _ _ _ _ Eq).
      apply (queue_sound_append w _ a o Hw Hs); cbn.
      * now rewrite Eq.
      * auto.
      * eauto.
      * intros queue req Hq Hin. apply lookup_app_l.
        eapply (wf_queue _ Hw); eauto.
      * apply lookup_snoc.
    + apply queue_sound_idle. unfold Idle.
      now destruct (step_submit_idle_client a o w Eq) as [-> _].
  - cbn [step]. destruct Hs as [Hn Hc Hp].
    split; rewrite dispose_client.
    + exact Hn.
    + intros queue req c call Hq Hin. rewrite dispose_calls.
      exact (Hc queue req c call Hq Hin).
    + intros queue req t Hq Hpt Hin. exfalso.
      apply dispose_no_new_timer in Hpt as [Hpt Hne].
      now apply (wf_timer _ Hw) in Hpt as [Hpt _].
  - destruct (calls w !! c) as [call0|] eqn:E.
    + destruct (settled call0) eqn:Es.
      * rewrite step_settles_noop; [assumption|]. intros call' E'. congruence.
      * rewrite (step_settles _ _ _ _ E Es). cbv zeta.
        pose proof (lookup_insert_settled _ _ _ E) as Hins.
        assert (Hlt : cont_promise (cont call0) < length (promises w))
          by apply (wf_calls _ Hw _ _ E).
        destruct (cont call0) as [p a o|req0] eqn:Ek; cbn [cont_promise] in Hlt.
        -- rewrite _runAutoComplete_resume_eq.
           destruct (rate_limited (resume out)).
           ++ cbn [promises set_calls].
              match goal with |- queue_sound (settle p ?st (_handleDelay ?r ?W)) =>
                destruct (_handleDelay_frame r W) as [Hfp Hfc];
                assert (Hpr : forall q, q <> p ->
                          promises (settle p st (_handleDelay r W)) !! q
                          = (promises w ++ [Pending]) !! q)
                  by (intros q Hq; rewrite settle_lookup_ne by assumption;
                      now rewrite Hfp);
                assert (Hcs : calls (settle p st (_handleDelay r W))
                              = <[c := settled_call call0]> (calls w))
                  by (rewrite settle_calls; now rewrite Hfc)
              end.
              apply (queue_sound_append w _ a o Hw Hs).
              ** rewrite settle_client.
                 destruct (_queue (client w)) as [q|] eqn:Eq.
                 --- now rewrite (_handleDelay_draining _ _ q) by exact Eq.
                 --- now rewrite _handleDelay_idle by exact Eq.
              ** intros t Ht Hd. unfold pending_timer in *.
                 rewrite settle_timers in Ht.
                 destruct (_queue (client w)) as [q|] eqn:Eq; [|now destruct Hd].
                 now rewrite (_handleDelay_draining _ _ q) in Ht by exact Eq.
              ** intros i call. rewrite Hcs. apply Hins.
              ** intros queue req Hq Hin. rewrite Hpr.
                 --- apply lookup_app_l. eapply (wf_queue _ Hw); eauto.
                 --- intros Heq. apply (qs_calls _ Hs queue req c call0 Hq Hin E).
                     rewrite Ek. cbn. congruence.
              ** rewrite Hpr by lia. apply lookup_snoc.
           ++ apply (queue_sound_settle w _ p Hs).
              ** now rewrite settle_client.
              ** now rewrite settle_timers.
              ** intros i call. rewrite settle_calls. apply Hins.
              ** exists c, call0. rewrite Ek. auto.
              ** intros q Hq. now rewrite settle_lookup_ne.
        -- rewrite drain_resume_eq.
           apply (queue_sound_settle w _ (promise req0) Hs).
           ++ now rewrite settle_client.
           ++ now rewrite settle_timers.
           ++ intros i call. rewrite settle_calls. apply Hins.
           ++ exists c, call0. rewrite Ek. auto.
           ++ intros q Hq. now rewrite settle_lookup_ne.
    + rewrite step_settles_noop; [assumption|]. intros call' E'. congruence.
  - destruct (timers w !! t) as [tm|] eqn:E.
    + destruct (timer_state tm) eqn:Es.
      * apply queue_sound_idle.
        destruct (step_timer_client w t) as (_ & H & _). apply H. eexists; eauto.
      * rewrite step_timer_noop; [assumption|].
        intros (tm' & E' & Es'). congruence.
      * rewrite step_timer_noop; [assumption|].
        intros (tm' & E' & Es'). congruence.
    + rewrite step_timer_noop; [assumption|].
      intros (tm' & E' & Es'). congruence.
Qed.

Lemma reachable_queue_sound (w : World) : reachable w -> wf w /\ queue_sound w.
Proof.
  intros (env & options & c & events & Hc & ->).
  apply new_FuzzySearch_fresh in Hc as [Hq Ht].
  assert (H0 : wf (boot c) /\ queue_sound (boot c)).
  { split; [now apply wf_boot|now apply queue_sound_idle]. }
  revert H0. generalize (boot c). clear.
  induction events as [|e events IH]; intros w [Hw Hs]; [now split|].
  cbn [run fold_left]. apply IH. split; [now apply wf_step|].
  now apply queue_sound_step.
Qed.

(** X15: in every reachable world the queued requests have pairwise
    distinct promises, and while a timer is pending every one of them is
    still pending: nothing but the drain or [dispose] settles a queued
    request. *)
Theorem queued_requests_wait_for_the_drain
    (w : World) (queue : list QueuedRequest) :
  reachable w -> _queue (client w) = Some queue ->
  NoDup (promise <$> queue)
  /\ (forall t req, pending_timer w t -> req ∈ queue ->
        future w (promise req) = Pending)
  /\ (forall req c call, req ∈ queue -> calls w !! c = Some call ->
        cont_promise (cont call) <> promise req).
Proof.
  intros Hr Hq. apply reachable_queue_sound in Hr as [Hw Hs].
  split; [|split].
  - now apply (qs_nodup _ Hs).
  - intros t req Ht Hin. apply future_direct; [|discriminate].
    now apply (qs_pending _ Hs queue req t).
  - intros req c call Hin Hc. now apply (qs_calls _ Hs queue req c call).
Qed.

(** ** A whole drain wave *)

Lemma drain_wave (params : AutoCompleteParams) :
  forall (queue : list QueuedRequest) (outs : list (AxiosOutcome Data))
         (w0 : World) (pre : list Call),
  length outs = length queue ->
  calls w0 = pre ++ map (retry_call params) queue ->
  NoDup (promise <$> queue) ->
  (forall req, req ∈ queue -> promises w0 !! promise req = Some Pending) ->
  let w' := run w0 (imap (fun i out => AxiosSettles (length pre + i) out) outs) in
  client w' = client w0
  /\ timers w' = timers w0
  /\ length (calls w') = length (calls w0)
  /\ (forall i req out, queue !! i = Some req -> outs !! i = Some out ->
        promises w' !! promise req = Some (outcome_state (resume out)))
  /\ (forall p, (forall req, req ∈ queue -> promise req <> p) ->
        promises w' !! p = promises w0 !! p).
Proof.
  induction queue as [|r queue IH]; intros outs w0 pre Hlen Hcalls Hnd Hpend.
  - destruct outs; [|discriminate]. cbn. repeat split; try reflexivity.
    intros i req out H. discriminate H.
  - destruct outs as [|o outs]; [discriminate|].
    cbn in Hlen. injection Hlen as Hlen.
    rewrite fmap_cons in Hnd. apply NoDup_cons in Hnd as [Hnotin Hnd].
    set (call := retry_call params r).
    assert (Hr : promises w0 !! promise r = Some Pending)
      by (apply Hpend; apply list_elem_of_here).
    assert (Hne : forall req, req ∈ queue -> promise req <> promise r).
    { intros req Hin Heq. apply Hnotin. rewrite <- Heq.
      apply list_elem_of_fmap. eauto. }
    assert (Hstep : step w0 (AxiosSettles (length pre + 0) o) =
      {| client := client w0;
         promises := <[promise r := outcome_state (resume o)]> (promises w0);
         calls := (pre ++ [settled_call call]) ++ map (retry_call params) queue;
         timers := timers w0 |}).
    { erewrite (step_drain_settles w0 (length pre + 0) call r o);
        [ | rewrite Hcalls, lookup_app_plus; reflexivity | reflexivity
          | reflexivity | exact Hr ].
      rewrite Hcalls, insert_app_r. cbn. now rewrite <- app_assoc. }
    cbv zeta. rewrite imap_cons. cbn [run fold_left]. rewrite Hstep.
    match goal with |- context [fold_left (step) ?es ?W] =>
      assert (Hes : es = imap (fun i out =>
                      AxiosSettles (length (pre ++ [settled_call call]) + i) out)
                      outs)
    end.
    { apply imap_ext. intros i out _. unfold compose. rewrite length_app.
      cbn [length]. f_equal. lia. }
    rewrite Hes.
    match goal with |- context [fold_left (step) _ ?W] =>
      destruct (IH outs W (pre ++ [settled_call call]) Hlen eq_refl Hnd)
        as (H1 & H2 & H3 & H4 & H5)
    end.
    { intros req Hin. cbn. rewrite list_lookup_insert_ne by (apply not_eq_sym; auto).
      apply Hpend. now apply list_elem_of_further. }
    unfold run in *. cbv zeta in *.
    rewrite H1, H2, H3. cbn [client timers calls].
    split; [reflexivity|]. split; [reflexivity|]. split.
    { rewrite Hcalls. repeat rewrite length_app.
      cbn [map length]. lia. }
    split.
    + intros [|i] req out Hq Ho; cbn in Hq, Ho.
      * injection Hq as <-. injection Ho as <-.
        rewrite H5 by auto. cbn. apply list_lookup_insert_eq.
        now apply lookup_lt_Some in Hr.
      * now apply (H4 i).
    + intros p Hp. rewrite H5.
      * cbn. apply list_lookup_insert_ne. apply Hp. apply list_elem_of_here.
      * intros req Hin. apply Hp. now apply list_elem_of_further.
Qed.

(** X16: in a reachable world, when the pending timer fires the drain
    issues one call per queued request whose address can be encoded, in
    queue order, and rejects the others with the [URIError]; once the
    transport has answered the calls, one after the other, every such
    request is settled with the outcome of its own call, a failure of one
    leaving the others alone, no promise outside the queue has changed, the
    client is idle and no timer is pending. *)
Theorem drain_settles_every_queued_request
    (w : World) (t : nat) (queue : list QueuedRequest)
    (outs : list (AxiosOutcome Data)) :
  reachable w -> pending_timer w t -> _queue (client w) = Some queue ->
  length outs = length (encodable queue) ->
  let n := length (calls w) in
  let w1 := step w (TimerFires t) in
  let w2 := run w1 (imap (fun i out => AxiosSettles (n + i) out) outs) in
  calls w1
  = calls w ++ map (retry_call (_params (client w))) (encodable queue)
  /\ Idle w2
  /\ length (calls w2) = n + length (encodable queue)
  /\ (forall t', ~ pending_timer w2 t')
  /\ (forall i req out, encodable queue !! i = Some req -> outs !! i = Some out ->
        future w2 (promise req) = outcome_state (resume out))
  /\ (forall req, req ∈ queue -> isWellFormed (address req) = false ->
        future w2 (promise req) = Rejected URIError)
  /\ (forall p, (forall req, req ∈ queue -> promise req <> p) ->
        promises w2 !! p = promises w !! p).
Proof.
  intros Hr (tm & Ht & Hst) Hq Hlen n w1 w2.
  apply reachable_queue_sound in Hr as [Hw Hs].
  assert (Hpt : pending_timer w t) by (eexists; eauto).
  assert (E1 : w1 = _) by exact (step_timer_draining w t tm queue Ht Hst Hq).
  rewrite drain_calls_encodable in E1.
  assert (Hnd : NoDup (promise <$> queue)) by now apply (qs_nodup _ Hs).
  assert (Hbad : forall req, req ∈ queue -> isWellFormed (address req) = false ->
            forall r, r ∈ encodable queue -> promise r <> promise req).
  { intros req Hin Ha r Hr' Heq. apply encodable_elem in Hr' as [Hr' Hwf].
    assert (r = req); [|congruence].
    apply list_elem_of_lookup in Hin as (i & Hi).
    apply list_elem_of_lookup in Hr' as (j & Hj).
    assert (i = j); [|congruence].
    apply (NoDup_lookup _ i j (promise req) Hnd);
      rewrite list_lookup_fmap; [now rewrite Hi|rewrite Hj; cbn; congruence]. }
  destruct (drain_wave (_params (client w)) (encodable queue) outs w1 (calls w)
              Hlen) as (H1 & H2 & H3 & H4 & H5).
  { now rewrite E1. }
  { now apply encodable_NoDup. }
  { intros req Hin. apply encodable_elem in Hin as [Hin Ha].
    rewrite E1. cbn [promises]. rewrite drain_rejects_other.
    - now apply (qs_pending _ Hs queue req t).
    - intros r Hr' Hb Heq. apply (Hbad r Hr' Hb req); [|congruence].
      now apply encodable_elem. }
  fold n in H1, H2, H3, H4, H5. fold w2 in H1, H2, H3, H4, H5.
  split; [now rewrite E1|]. split; [|split; [|split; [|split; [|split]]]].
  - unfold Idle. rewrite H1, E1. reflexivity.
  - rewrite H3, E1. cbn. rewrite length_app. now rewrite length_map.
  - intros t' (tm' & Ht' & Hst'). rewrite H2, E1 in Ht'. cbn in Ht'.
    destruct (decide (t' = t)) as [->|Hne].
    + rewrite list_lookup_insert_eq in Ht' by now apply lookup_lt_Some in Ht.
      injection Ht' as <-. discriminate.
    + rewrite list_lookup_insert_ne in Ht' by congruence.
      assert (Hpt' : pending_timer w t') by (eexists; eauto).
      destruct (wf_timer _ Hw _ Hpt) as [Ha _].
      destruct (wf_timer _ Hw _ Hpt') as [Hb _]. congruence.
  - intros i req out Hi Ho. apply future_direct;
      [now apply (H4 i)|apply outcome_state_not_adopted].
  - intros req Hin Ha. apply future_direct; [|discriminate].
    rewrite H5 by now apply Hbad. rewrite E1. cbn [promises].
    apply drain_rejects_rejects; try assumption.
    now apply (qs_pending _ Hs queue req t).
  - intros p Hp. rewrite H5.
    + rewrite E1. cbn [promises]. apply drain_rejects_other.
      intros req Hin _. now apply Hp.
    + intros req Hin. apply Hp. now apply encodable_elem in Hin as [Hin _].
Qed.

(** ** A rate-limited submission is retried once *)

Lemma awaited_insert_settled (cs : list Call) (c : nat) (call0 : Call) :
  cs !! c = Some call0 ->
  awaited <$> <[c := settled_call call0]> cs = awaited <$> cs.
Proof.
  intros H. rewrite list_fmap_insert. apply list_insert_id.
  rewrite list_lookup_fmap, H. reflexivity.
Qed.

Lemma awaited_unique (w : World) (i j : nat) (call1 call2 : Call) :
  calls_sound w ->
  calls w !! i = Some call1 -> calls w !! j = Some call2 ->
  cont_promise (cont call1) = cont_promise (cont call2) -> i = j.
Proof.
  intros [Hn _] H1 H2 Heq.
  apply (NoDup_lookup _ i j (awaited call1) Hn); rewrite list_lookup_fmap.
  - now rewrite H1.
  - rewrite H2. cbn. unfold awaited. now rewrite Heq.
Qed.

Lemma reject_all_other queue w p :
  (forall req, req ∈ queue -> promise req <> p) ->
  promises (reject_all queue w) !! p = promises w !! p.
Proof.
  revert w. induction queue as [|r queue IH]; intros w H; [reflexivity|].
  cbn. unfold reject_all in IH. rewrite IH.
  - apply settle_lookup_ne. apply not_eq_sym, H, list_elem_of_here.
  - intros req Hin. apply H. now apply list_elem_of_further.
Qed.

Lemma queue_promise_inj (queue : list QueuedRequest) (r req : QueuedRequest) :
  NoDup (promise <$> queue) -> r ∈ queue -> req ∈ queue ->
  promise r = promise req -> r = req.
Proof.
  intros Hnd Hr Hreq Heq.
  apply list_elem_of_lookup in Hr as (i & Hi).
  apply list_elem_of_lookup in Hreq as (j & Hj).
  assert (i = j); [|congruence].
  apply (NoDup_lookup _ i j (promise req) Hnd);
    rewrite list_lookup_fmap; [rewrite Hi; cbn; congruence|now rewrite Hj].
Qed.

Lemma calls_sound_boot (c : FuzzySearch) : calls_sound (boot c).
Proof.
  split; cbn.
  - apply NoDup_nil_2.
  - intros i call H. discriminate H.
Qed.

(** Worlds with the same calls, whose old promises are as they were. *)
Lemma calls_sound_frame (w w' : World) :
  wf w -> calls_sound w ->
  calls w' = calls w ->
  (forall q st, q < length (promises w) -> promises w !! q = Some st ->
                (exists c call, calls w !! c = Some call /\ awaited call = q) ->
                promises w' !! q = Some st) ->
  calls_sound w'.
Proof.
  intros Hw [Hn Hp] Hc Hold. split; rewrite Hc.
  - exact Hn.
  - intros c call H Hs. apply Hold.
    + apply (wf_calls _ Hw _ _ H).
    + now apply (Hp c).
    + now exists c, call.
Qed.

(** The answer to a call settles the promise of that call alone. *)
Lemma calls_sound_answer (w w' : World) (c : nat) (call0 : Call) :
  calls_sound w ->
  calls w !! c = Some call0 ->
  calls w' = <[c := settled_call call0]> (calls w) ->
  (forall q st, q <> awaited call0 -> promises w !! q = Some st ->
                promises w' !! q = Some st) ->
  calls_sound w'.
Proof.
  intros Hcs E Hc Hother. assert (Hcs' := Hcs). destruct Hcs' as [Hn Hp].
  split; rewrite Hc.
  - now rewrite awaited_insert_settled.
  - intros i call H Hs. destruct (decide (i = c)) as [->|Hne].
    + rewrite list_lookup_insert_eq in H by now apply lookup_lt_Some in E.
      injection H as <-. discriminate Hs.
    + rewrite list_lookup_insert_ne in H by congruence.
      apply Hother; [|now apply (Hp i)].
      intros Heq. apply Hne. now apply (awaited_unique w i c call call0).
Qed.

Lemma calls_sound_step (w : World) (e : Event Data) :
  wf w -> queue_sound w -> calls_sound w -> calls_sound (step w e).
Proof.
  intros Hw Hq Hcs. assert (Hcs' := Hcs). destruct Hcs' as [Hn Hp].
  destruct e as [a o| |c out|t].
  - destruct (_queue (client w)) as [queue|] eqn:Eq.
    + rewrite (step_submit_draining _ _ _ _ Eq).
      apply (calls_sound_frame w); try assumption; [reflexivity|].
      intros q st Hlt H _. cbn. now rewrite lookup_app_l.
    + destruct (isWellFormed a) eqn:Ha.
      * rewrite step_submit_idle by assumption. split; cbn.
        -- rewrite fmap_app. apply NoDup_app. split; [exact Hn|].
           split; [|apply NoDup_singleton].
           intros x Hx Hx'. apply list_elem_of_singleton in Hx'. cbn in Hx'.
           apply list_elem_of_fmap in Hx as (call & -> & Hin).
           apply list_elem_of_lookup in Hin as (i & Hi).
           pose proof (wf_calls _ Hw _ _ Hi). unfold awaited in Hx'. lia.
        -- intros i call H Hs.
           destruct (decide (i < length (calls w))) as [Hlt|Hge].
           ++ rewrite lookup_app_l in H by assumption.
              rewrite lookup_app_l by apply (wf_calls _ Hw _ _ H).
              now apply (Hp i).
           ++ rewrite lookup_app_r in H by lia.
              destruct (i - length (calls w)) as [|n]; [|destruct n; discriminate].
              injection H as <-. cbn. apply lookup_snoc.
      * rewrite step_submit_idle_throw by assumption.
        apply (calls_sound_frame w); try assumption; [reflexivity|].
        intros q st Hlt H _. cbn. now rewrite lookup_app_l.
  - cbn [step]. apply (calls_sound_frame w); try assumption;
      [apply dispose_calls|].
    intros q st Hlt H (c & call & Hc & Hk). rewrite dispose_promises.
    destruct (_queue (client w)) as [queue|] eqn:Eq; [|assumption].
    rewrite reject_all_other; [assumption|].
    intros req Hin Heq. apply (qs_calls _ Hq queue req c call Eq Hin Hc).
    unfold awaited in Hk. congruence.
  - destruct (calls w !! c) as [call0|] eqn:E;
      [destruct (settled call0) eqn:Es|];
      try (rewrite step_settles_noop; [assumption|];
           intros call' E'; congruence).
    rewrite (step_settles _ _ _ _ E Es). cbv zeta.
    apply (calls_sound_answer w _ c call0 Hcs E).
    + destruct (cont call0) as [p a o|req].
      * now rewrite _runAutoComplete_resume_calls.
      * rewrite drain_resume_eq. now rewrite settle_calls.
    + intros q st Hne H. unfold awaited in Hne.
      destruct (cont call0) as [p a o|req]; cbn [cont_promise] in Hne.
      * destruct (_runAutoComplete_resume_lookup p a o out
                    (set_calls (<[c:=settled_call call0]> (calls w)) w) q st H)
          as [H'|[H' _]]; [assumption|contradiction].
      * rewrite drain_resume_eq. now rewrite settle_lookup_ne.
  - destruct (timers w !! t) as [tm|] eqn:E;
      [destruct (timer_state tm) eqn:Es|];
      try (rewrite step_timer_noop; [assumption|];
           intros (tm' & E' & Es'); congruence).
    assert (Hpt : pending_timer w t) by (eexists; eauto).
    destruct (_queue (client w)) as [queue|] eqn:Eq.
    + rewrite (step_timer_draining _ _ _ _ E Es Eq).
      rewrite drain_calls_encodable.
      assert (Hrej : forall q,
                (forall req, req ∈ queue ->
                   isWellFormed (address req) = false -> promise req <> q) ->
                promises (drain_rejects (_params (client w)) queue w) !! q
                = promises w !! q) by apply drain_rejects_other.
      split; cbn [calls promises].
      * rewrite fmap_app. apply NoDup_app. split; [exact Hn|]. split.
        -- intros x Hx Hx'.
           apply list_elem_of_fmap in Hx as (call & -> & Hin).
           apply list_elem_of_lookup in Hin as (i & Hi).
           apply list_elem_of_fmap in Hx' as (call' & Heq & Hin').
           apply list_elem_of_fmap in Hin' as (req & -> & Hreq).
           apply encodable_elem in Hreq as [Hreq _].
           apply (qs_calls _ Hq queue req i call Eq Hreq Hi). exact Heq.
        -- rewrite <- list_fmap_compose.
           apply (encodable_NoDup queue), (qs_nodup _ Hq _ Eq).
      * intros i call H Hs.
        destruct (decide (i < length (calls w))) as [Hlt|Hge].
        -- rewrite lookup_app_l in H by assumption.
           rewrite Hrej; [now apply (Hp i)|].
           intros req Hin _ Heq.
           now apply (qs_calls _ Hq queue req i call Eq Hin H).
        -- rewrite lookup_app_r in H by lia.
           apply list_elem_of_lookup_2, list_elem_of_fmap in H
             as (req & -> & Hreq).
           apply encodable_elem in Hreq as [Hreq Ha]. cbn.
           rewrite Hrej; [now apply (qs_pending _ Hq queue req t)|].
           intros r Hr Hb Heq.
           assert (r = req); [|congruence].
           now apply (queue_promise_inj queue r req (qs_nodup _ Hq _ Eq)).
    + rewrite (step_timer _ _ _ E Es). unfold drain.
      cbn [client set_timers]. rewrite Eq.
      now apply (calls_sound_frame w).
Qed.

(** The three invariants hold in every world a client can be in. *)
Lemma reachable_sound (w : World) :
  reachable w -> wf w /\ queue_sound w /\ calls_sound w.
Proof.
  intros (env & options & c & events & Hc & ->).
  apply new_FuzzySearch_fresh in Hc as [Hq Ht].
  assert (H0 : wf (boot c) /\ queue_sound (boot c) /\ calls_sound (boot c)).
  { split; [now apply wf_boot|].
    split; [now apply queue_sound_idle|apply calls_sound_boot]. }
  revert H0. generalize (boot c). clear.
  induction events as [|e events IH]; intros w (Hw & Hs & Hcs); [auto|].
  cbn [run fold_left]. apply IH. split; [now apply wf_step|].
  split; [now apply queue_sound_step|now apply calls_sound_step].
Qed.

Lemma run_params (events : list (Event Data)) (w : World) :
  _params (client (run w events)) = _params (client w).
Proof.
  revert w. induction events as [|e events IH]; intros w; [reflexivity|].
  cbn [run fold_left]. fold (run (step w e) events).
  now rewrite IH, step_params.
Qed.

Lemma step_settles_length (w : World) (c : nat) (out : AxiosOutcome Data) :
  length (calls (step w (AxiosSettles c out))) = length (calls w).
Proof.
  destruct (calls w !! c) as [call0|] eqn:E;
    [destruct (settled call0) eqn:Es|];
    try (rewrite step_settles_noop; [reflexivity|];
         intros call' E'; congruence).
  rewrite (step_settles _ _ _ _ E Es). cbv zeta.
  destruct (cont call0) as [p a o|req].
  - rewrite _runAutoComplete_resume_calls. cbn. apply length_insert.
  - rewrite drain_resume_eq, settle_calls. cbn. apply length_insert.
Qed.

(** While the timer is pending, nothing but that timer or [dispose] takes
    a request out of the queue, and no call is issued. *)
Lemma draining_step (w : World) (e : Event Data) (queue : list QueuedRequest)
    (t : nat) :
  wf w -> _queue (client w) = Some queue -> pending_timer w t ->
  e <> CallDispose -> e <> TimerFires t ->
  exists more,
    _queue (client (step w e)) = Some (queue ++ more)
    /\ pending_timer (step w e) t
    /\ length (calls (step w e)) = length (calls w).
Proof.
  intros Hw Hq Ht Hnd Hnt. destruct e as [a o| |c out|t'].
  - rewrite (step_submit_draining _ _ _ _ Hq). eexists. cbn. eauto.
  - congruence.
  - pose proof (step_settles_length w c out) as Hl.
    destruct (step_settles_client w c out)
      as [[Hc Htm]|[(q & r & Hq' & Hc & Htm)|(Hi & _)]].
    + exists []. rewrite app_nil_r, Hc. unfold pending_timer. rewrite Htm. auto.
    + exists [r]. rewrite Hc. unfold pending_timer. rewrite Htm. cbn.
      split; [congruence|auto].
    + unfold Idle in Hi. congruence.
  - exists []. rewrite app_nil_r. rewrite step_timer_noop; [auto|].
    intros Ht'. destruct (wf_timer _ Hw _ Ht) as [H1 _].
    destruct (wf_timer _ Hw _ Ht') as [H2 _]. congruence.
Qed.

Lemma draining_run (events : list (Event Data)) :
  forall (w : World) (queue : list QueuedRequest) (t : nat),
  wf w -> _queue (client w) = Some queue -> pending_timer w t ->
  CallDispose ∉ events -> TimerFires t ∉ events ->
  exists more,
    _queue (client (run w events)) = Some (queue ++ more)
    /\ pending_timer (run w events) t
    /\ length (calls (run w events)) = length (calls w).
Proof.
  induction events as [|e events IH]; intros w queue t Hw Hq Ht Hnd Hnt.
  - exists []. rewrite app_nil_r. auto.
  - apply not_elem_of_cons in Hnd as [Hnd Hnd'].
    apply not_elem_of_cons in Hnt as [Hnt Hnt'].
    destruct (draining_step w e queue t Hw Hq Ht) as (more & Hq1 & Ht1 & Hl1);
      [congruence|congruence|].
    destruct (IH (step w e) (queue ++ more) t) as (more' & Hq2 & Ht2 & Hl2);
      try assumption; [now apply wf_step|].
    exists (more ++ more'). cbn [run fold_left]. fold (run (step w e) events).
    rewrite app_assoc. split; [assumption|]. split; [assumption|]. congruence.
Qed.

(** A call stays in the log where it is, with its request and its
    continuation; nothing but its answer changes it. *)
Lemma step_call_kept (w : World) (e : Event Data) (i : nat) (call : Call) :
  calls w !! i = Some call ->
  exists call', calls (step w e) !! i = Some call'
    /\ cont call' = cont call /\ request call' = request call
    /\ ((forall out, e <> AxiosSettles i out) -> call' = call).
Proof.
  intros H. assert (Hlt : i < length (calls w)) by now apply lookup_lt_Some in H.
  destruct e as [a o| |c out|t].
  - exists call. destruct (_queue (client w)) as [queue|] eqn:Eq.
    + rewrite (step_submit_draining _ _ _ _ Eq). cbn. auto.
    + destruct (isWellFormed a) eqn:Ha.
      * rewrite step_submit_idle by assumption. cbn.
        rewrite lookup_app_l by assumption. auto.
      * rewrite step_submit_idle_throw by assumption. cbn. auto.
  - exists call. cbn [step]. rewrite dispose_calls. auto.
  - destruct (calls w !! c) as [call0|] eqn:E;
      [destruct (settled call0) eqn:Es|];
      try (exists call; rewrite step_settles_noop; [auto|];
           intros call' E'; congruence).
    assert (Hcalls : calls (step w (AxiosSettles c out))
                     = <[c := settled_call call0]> (calls w)).
    { rewrite (step_settles _ _ _ _ E Es). cbv zeta.
      destruct (cont call0) as [p a o|req].
      - now rewrite _runAutoComplete_resume_calls.
      - rewrite drain_resume_eq. now rewrite settle_calls. }
    rewrite Hcalls. destruct (decide (i = c)) as [->|Hne].
    + exists (settled_call call0).
      rewrite list_lookup_insert_eq by assumption.
      assert (call0 = call) as -> by congruence.
      repeat split. intros Hno. now destruct (Hno out).
    + exists call. rewrite list_lookup_insert_ne by congruence. auto.
  - exists call.
    destruct (timers w !! t) as [tm|] eqn:E;
      [destruct (timer_state tm) eqn:Es|];
      try (rewrite step_timer_noop; [auto|];
           intros (tm' & E' & Es'); congruence).
    destruct (_queue (client w)) as [queue|] eqn:Eq.
    + rewrite (step_timer_draining _ _ _ _ E Es Eq). cbn.
      rewrite lookup_app_l by assumption. auto.
    + rewrite (step_timer _ _ _ E Es). unfold drain.
      cbn [client set_timers]. rewrite Eq. cbn. auto.
Qed.

Lemma run_call_kept (events : list (Event Data)) :
  forall (w : World) (i : nat) (call : Call),
  calls w !! i = Some call ->
  exists call', calls (run w events) !! i = Some call'
    /\ cont call' = cont call /\ request call' = request call
    /\ ((forall out, AxiosSettles i out ∉ events) -> call' = call).
Proof.
  induction events as [|e events IH]; intros w i call H.
  - exists call. auto.
  - destruct (step_call_kept w e i call H) as (call1 & H1 & Hk1 & Hr1 & Hs1).
    destruct (IH (step w e) i call1 H1) as (call2 & H2 & Hk2 & Hr2 & Hs2).
    exists call2. cbn [run fold_left]. fold (run (step w e) events).
    split; [assumption|]. split; [congruence|]. split; [congruence|].
    intros Hno. rewrite Hs2, Hs1; [reflexivity| |].
    + intros out ->. apply (Hno out), list_elem_of_here.
    + intros out Hin. apply (Hno out). now apply list_elem_of_further.
Qed.

Lemma outcome_state_not_pending r : outcome_state r <> Pending.
Proof. destruct r; discriminate. Qed.

(** C1, amended: take any world a client can be in, and in it a first
    attempt that is answered with status 429 while the client is idle or
    its timer is pending.  The answer queues the request behind a pending
    timer without issuing a call.  As long as [dispose] is not called and
    that timer has not fired, whatever else happens, the timer stays
    pending, the promise stays pending and no call is issued.  When the
    timer fires, the drain issues one call for the request, with the very
    request of the first attempt.  Whatever happens next, the first attempt
    and that call are the only calls ever made for the submission, and the
    answer to the retry settles the caller's promise for good: fulfilled
    with the mapped results if the retry succeeds, rejected with
    [TooManyRequestsError] if it is answered with 429 again, rejected with
    the error of the lookup otherwise; the answer changes neither the queue
    nor the timers and issues no call.  For a submission made while the
    client is idle this gives the scenario of the tests: two calls in all,
    the client idle again, no timer added besides the one that fired, and
    neither that timer nor the two calls can trigger anything further. *)
Theorem rate_limited_submission_retried_once :
  (forall (w : World) (c : nat) (call : Call) (p : nat) (a : string)
          (o : AutoCompleteOptions) (err : AxiosError),
     reachable w ->
     calls w !! c = Some call -> settled call = false ->
     cont call = InRunAutoComplete p a o ->
     response_status err = Some 429%Z ->
     Idle w \/ (exists t, pending_timer w t) ->
     let w1 := step w (AxiosSettles c (AxiosReject err)) in
     let req := queued a o (length (promises w)) in
     (length (calls w1) = length (calls w) /\ future w1 p = Pending)
     /\ exists t,
          pending_timer w1 t
          /\ (exists queue, _queue (client w1) = Some queue /\ req ∈ queue)
          /\ forall between : list (Event Data),
               CallDispose ∉ between -> TimerFires t ∉ between ->
               let w2 := run w1 between in
               let w3 := step w2 (TimerFires t) in
               (length (calls w2) = length (calls w1)
                /\ pending_timer w2 t /\ future w2 p = Pending)
               /\ exists i,
                    length (calls w2) <= i
                    /\ calls w3 !! i = Some (new_call (request call) (InDrain req))
                    /\ forall (later : list (Event Data)) (retry : AxiosOutcome Data),
                         (forall out, AxiosSettles i out ∉ later) ->
                         let w4 := run w3 later in
                         let w5 := step w4 (AxiosSettles i retry) in
                         (future w4 p = Pending
                          /\ forall j call', calls w4 !! j = Some call' ->
                               cont_promise (cont call') = promise req -> j = i)
                         /\ future w5 p = outcome_state (resume retry)
                         /\ (forall data res, retry = AxiosResolve data ->
                               parseResponse data = inr res ->
                               future w5 p
                               = Fulfilled (map toAutoCompleteResult
                                              (Schema.results res)))
                         /\ (forall err', retry = AxiosReject err' ->
                               response_status err' = Some 429%Z ->
                               future w5 p = Rejected TooManyRequestsError)
                         /\ (client w5 = client w4 /\ timers w5 = timers w4
                             /\ length (calls w5) = length (calls w4))
                         /\ forall after : list (Event Data),
                              let w6 := run w5 after in
                              future w6 p = outcome_state (resume retry)
                              /\ (forall j call', calls w6 !! j = Some call' ->
                                    cont_promise (cont call') = promise req ->
                                    j = i)
                              /\ (forall j call', calls w6 !! j = Some call' ->
                                    cont_promise (cont call') = p -> j = c))
  /\ (forall (w : World) (a : string) (o : AutoCompleteOptions)
             (err : AxiosError) (retry : AxiosOutcome Data),
       Idle w ->
       isWellFormed a = true ->
       response_status err = Some 429%Z ->
       let c := length (calls w) in
       let t := length (timers w) in
       let p := snd (autoComplete a o w) in
       let w1 := step w (CallAutoComplete a o) in
       let w2 := step w1 (AxiosSettles c (AxiosReject err)) in
       let w3 := step w2 (TimerFires t) in
       let w4 := step w3 (AxiosSettles (c + 1) retry) in
       (length (calls w1) = c + 1 /\ length (calls w2) = c + 1
        /\ Draining w2 /\ pending_timer w2 t /\ future w2 p = Pending)
       /\ length (calls w3) = c + 2
       /\ length (calls w4) = c + 2
       /\ future w4 p = outcome_state (resume retry)
       /\ (forall data res, retry = AxiosResolve data -> parseResponse data = inr res ->
           future w4 p = Fulfilled (map toAutoCompleteResult (Schema.results res)))
       /\ (forall err', retry = AxiosReject err' -> response_status err' = Some 429%Z ->
           future w4 p = Rejected TooManyRequestsError)
       /\ Idle w4
       /\ timers w4 = timers w ++ [with_state TimerFired (fresh_timer w)]
       /\ step w4 (TimerFires t) = w4
       /\ (forall out, step w4 (AxiosSettles c out) = w4
                       /\ step w4 (AxiosSettles (c + 1) out) = w4)).
Proof.
  split; [|exact rate_limited_scenario].
  intros w c call p a o err Hr Hc Hs Hk He Hns w1 req.
  destruct (reachable_sound w Hr) as (Hw & Hq & Hcs).
  assert (Hp : promises w !! p = Some Pending).
  { pose proof (cs_pending _ Hcs c call Hc Hs) as H. now rewrite Hk in H. }
  assert (Hplt : p < length (promises w)) by now apply lookup_lt_Some in Hp.
  assert (Hrl : rate_limited (resume (AxiosReject err)) = true)
    by now rewrite resume_status_429.
  assert (Hreq : request call = encoded_request (_params (client w)) a o
                 /\ isWellFormed a = true).
  { pose proof (reachable_request_shape w c call Hr Hc) as H.
    rewrite Hk in H. cbn in H.
    apply getAutoCompleteResults_request_return in H as [H1 H2]. auto. }
  destruct Hreq as [Hreq Ha].
  assert (Hr1 : reachable w1) by now apply reachable_step.
  assert (H1 : promises w1 !! p = Some (Adopted (promise req))
               /\ length (calls w1) = length (calls w)
               /\ exists t queue, pending_timer w1 t
                    /\ _queue (client w1) = Some queue /\ req ∈ queue).
  { destruct (_queue (client w)) as [queue|] eqn:Eq.
    - destruct Hns as [Hi|(t & Ht)]; [unfold Idle in Hi; congruence|].
      subst w1.
      rewrite (step_rate_limited_draining w c call p a o _ queue Eq Hc Hs Hk Hp Hrl).
      cbn. split; [apply list_lookup_insert_eq; rewrite length_app; lia|].
      split; [apply length_insert|].
      exists t, (queue ++ [req]). split; [exact Ht|]. split; [reflexivity|].
      apply elem_of_app. right. now apply list_elem_of_singleton.
    - subst w1.
      rewrite (step_rate_limited_idle w c call p a o _ Eq Hc Hs Hk Hp Hrl).
      cbn. split; [apply list_lookup_insert_eq; rewrite length_app; lia|].
      split; [apply length_insert|].
      exists (length (timers w)), [req].
      split; [|split; [reflexivity|now apply list_elem_of_singleton]].
      exists (fresh_timer w). split; [apply lookup_snoc|reflexivity]. }
  destruct H1 as (Hp1 & Hl1 & t & queue1 & Ht1 & Hq1 & Hin1).
  destruct (reachable_sound w1 Hr1) as (Hw1 & Hqs1 & Hcs1).
  assert (Hne : p <> promise req) by (cbn; lia).
  split.
  { split; [exact Hl1|].
    apply future_adopted with (q := promise req); [exact Hp1| |discriminate].
    now apply (qs_pending _ Hqs1 queue1 req t). }
  exists t. split; [exact Ht1|]. split; [eauto|].
  intros between Hnd Hnt w2 w3.
  destruct (draining_run between w1 queue1 t Hw1 Hq1 Ht1 Hnd Hnt)
    as (more & Hq2 & Ht2 & Hl2).
  fold w2 in Hq2, Ht2, Hl2.
  assert (Hr2 : reachable w2) by now apply reachable_run.
  destruct (reachable_sound w2 Hr2) as (Hw2 & Hqs2 & Hcs2).
  assert (Hin2 : req ∈ queue1 ++ more) by (apply elem_of_app; now left).
  assert (Hp2 : promises w2 !! p = Some (Adopted (promise req)))
    by now apply run_settled_stable.
  split.
  { split; [exact Hl2|]. split; [exact Ht2|].
    apply future_adopted with (q := promise req); [exact Hp2| |discriminate].
    now apply (qs_pending _ Hqs2 (queue1 ++ more) req t). }
  destruct Ht2 as (tm & Htm & Hst).
  assert (E3 : w3 = _)
    by exact (step_timer_draining w2 t tm (queue1 ++ more) Htm Hst Hq2).
  rewrite drain_calls_encodable in E3.
  assert (Henc : req ∈ encodable (queue1 ++ more))
    by (apply encodable_elem; auto).
  apply list_elem_of_lookup in Henc as (j & Hj).
  set (i := length (calls w2) + j).
  set (callR := new_call (request call) (InDrain req)).
  assert (Hi3 : calls w3 !! i = Some callR).
  { rewrite E3. cbn [calls]. unfold i.
    rewrite lookup_app_plus, list_lookup_fmap, Hj. cbn.
    unfold retry_call, callR. rewrite Hreq. cbn [address options req queued].
    unfold w2. rewrite run_params. unfold w1. now rewrite step_params. }
  assert (Hr3 : reachable w3) by now apply reachable_step.
  assert (Hp3 : promises w3 !! p = Some (Adopted (promise req)))
    by now apply step_settled_stable.
  exists i. split; [unfold i; lia|]. split; [exact Hi3|].
  intros later retry Hno w4 w5.
  assert (Hr4 : reachable w4) by now apply reachable_run.
  destruct (reachable_sound w4 Hr4) as (Hw4 & Hqs4 & Hcs4).
  destruct (run_call_kept later w3 i callR Hi3) as (call4 & Hi4 & _ & _ & Hsame).
  fold w4 in Hi4. rewrite (Hsame Hno) in Hi4. clear call4 Hsame.
  assert (Hp4 : promises w4 !! p = Some (Adopted (promise req)))
    by now apply run_settled_stable.
  assert (Hpend4 : promises w4 !! promise req = Some Pending)
    by exact (cs_pending _ Hcs4 i callR Hi4 eq_refl).
  assert (Huniq : forall W, reachable W ->
            (exists callW, calls W !! i = Some callW /\ cont callW = InDrain req) ->
            forall k call', calls W !! k = Some call' ->
              cont_promise (cont call') = promise req -> k = i).
  { intros W HrW (callW & HiW & HkW) k call' Hk' Heq.
    destruct (reachable_sound W HrW) as (_ & _ & HcsW).
    apply (awaited_unique W k i call' callW HcsW Hk' HiW).
    now rewrite HkW. }
  assert (E5 : w5 = _)
    by exact (step_drain_settles w4 i callR req retry Hi4 eq_refl eq_refl Hpend4).
  assert (Hr5 : reachable w5) by now apply reachable_step.
  assert (Hp5 : promises w5 !! p = Some (Adopted (promise req))).
  { rewrite E5. cbn [promises]. now rewrite list_lookup_insert_ne by congruence. }
  assert (Hq5 : promises w5 !! promise req
                = Some (outcome_state (resume retry))).
  { rewrite E5. cbn [promises]. apply list_lookup_insert_eq.
    now apply lookup_lt_Some in Hpend4. }
  assert (F5 : future w5 p = outcome_state (resume retry)).
  { apply future_adopted with (q := promise req);
      [exact Hp5|exact Hq5|apply outcome_state_not_adopted]. }
  split.
  { split.
    - apply future_adopted with (q := promise req);
        [exact Hp4|exact Hpend4|discriminate].
    - apply (Huniq w4 Hr4). now exists callR. }
  split; [exact F5|]. split.
  { intros data res -> Hres. rewrite F5.
    now rewrite (getAutoCompleteResults_success _ _ Hres). }
  split.
  { intros err' -> Hs'. rewrite F5. now rewrite resume_status_429. }
  split.
  { rewrite E5. cbn [client timers calls]. rewrite length_insert. auto. }
  intros after w6.
  assert (Hr6 : reachable w6) by now apply reachable_run.
  split; [|split].
  - apply future_adopted with (q := promise req).
    + apply run_settled_stable; [exact Hp5|discriminate].
    + apply run_settled_stable; [exact Hq5|apply outcome_state_not_pending].
    + apply outcome_state_not_adopted.
  - apply (Huniq w6 Hr6).
    destruct (run_call_kept after w5 i (settled_call callR))
      as (call6 & Hi6 & Hk6 & _).
    { rewrite E5. cbn [calls]. apply list_lookup_insert_eq.
      now apply lookup_lt_Some in Hi4. }
    exists call6. split; [exact Hi6|]. now rewrite Hk6.
  - assert (Hw6 : w6 = run w ((AxiosSettles c (AxiosReject err) :: between)
                              ++ (TimerFires t :: later)
                              ++ (AxiosSettles i retry :: after))).
    { now rewrite !run_app. }
    destruct (run_call_kept
                ((AxiosSettles c (AxiosReject err) :: between)
                 ++ (TimerFires t :: later) ++ (AxiosSettles i retry :: after))
                w c call Hc) as (call6 & Hc6 & Hk6 & _).
    rewrite <- Hw6 in Hc6.
    intros k call' Hk' Heq.
    destruct (reachable_sound w6 Hr6) as (_ & _ & Hcs6).
    apply (awaited_unique w6 k c call' call6 Hcs6 Hk' Hc6).
    now rewrite Hk6, Hk.
Qed.

End Client.

(* ===================================================================== *)
(** * Instances on the fixtures of the unit tests *)

(** C6, as stated, does not hold: an explicit option that is the empty
    string is not replaced by the key of the environment, so [getParams]
    throws although the environment yields a non-empty string. *)
Lemma getParams_empty_option_hides_env :
  ~ (forall (env : option string) (o : FuzzySearchOptions),
       throws (getParams env o)
       <-> (not_key (apiKey o) = true /\ not_key env = true)).
Proof.
  intros H.
  destruct (H (Some "env-key")
              {| apiKey := Some ""; delay := None; limit := None |}) as [H1 _].
  destruct (H1 I) as [_ Henv]. discriminate Henv.
Qed.

Lemma getParams_key_resolution_witness :
  getParams (Some "from-env") (test_options None) = Return test_params
  /\ key test_params = "test".
Proof.
  destruct (getParams_key_resolution (Some "from-env") (test_options None))
    as (_ & _ & H).
  split; [reflexivity|].
  exact (proj2 (H test_params eq_refl)).
Defined.

(** C9, as stated, does not hold: a limit of 5/2 lies within the range and
    is passed through, and it is not an integer. *)
Lemma getParams_fractional_limit :
  ~ (forall (env : option string) (o : FuzzySearchOptions) (p : AutoCompleteParams),
       getParams env o = Return p ->
       isInteger (params_limit p) = true
       /\ in_range (of_Z 1) MAX_LIMIT (params_limit p) = true
       /\ countrySet p = COUNTRY_CODE).
Proof.
  intros H.
  destruct (H None (test_options (Some (Finite (Q2Qc (5 # 2))))) _ eq_refl)
    as [Hint _].
  discriminate Hint.
Qed.

Lemma getParams_invariant_witness :
  let p := {| key := "test"; countrySet := "AU"; params_limit := of_Z 100 |} in
  getParams None (test_options (Some (of_Z 200))) = Return p
  /\ in_range (of_Z 1) MAX_LIMIT (params_limit p) = true
  /\ isInteger (params_limit p) = true
  /\ countrySet p = COUNTRY_CODE.
Proof.
  intros p.
  assert (Hn : limit (test_options (Some (of_Z 200))) <> Some NaN)
    by discriminate.
  destruct (getParams_invariant None (test_options (Some (of_Z 200))) p
              eq_refl Hn) as (H1 & H2 & H3).
  split; [reflexivity|]. split; [exact H1|]. split; [|exact H3].
  apply H2. reflexivity.
Defined.

Lemma getAutoCompleteResults_maps_in_order_witness :
  mock_parseResponse (inr VALID_RESPONSE) = inr VALID_RESPONSE
  /\ exists results : list AutoCompleteResult,
       getAutoCompleteResults_resume mock_parseResponse mock_valid
       = Return results
       /\ length results = 2.
Proof.
  split; [reflexivity|].
  destruct (getAutoCompleteResults_maps_in_order mock_parseResponse
              (inr VALID_RESPONSE) VALID_RESPONSE eq_refl)
    as (results & Hr & Hlen & _).
  exists results. split; [exact Hr | exact Hlen].
Defined.

(** C2, as stated, does not hold: after a rate-limited submission and the
    drain, the queue is unset while the timer field still holds the handle
    of the timer that fired. *)
Lemma timer_handle_outlives_drain :
  ~ (forall (env : option string) (options : FuzzySearchOptions)
            (c : FuzzySearch) (events : list (Event MockData)),
       new_FuzzySearch env options = Return c ->
       let w := run mock_parseResponse (boot c) events in
       _queue (client w) = None <-> _timeout (client w) = None).
Proof.
  intros H.
  destruct (H None (test_options None) test_client
              [CallAutoComplete "Test address" default_options;
               AxiosSettles 0 (mock_status 429); TimerFires 0] eq_refl)
    as [H1 _].
  specialize (H1 eq_refl). vm_compute in H1. discriminate H1.
Qed.

Lemma queue_set_only_with_timer_set_witness :
  let w := run mock_parseResponse (boot test_client)
             [CallAutoComplete "Test address" default_options;
              AxiosSettles 0 (mock_status 429)] in
  new_FuzzySearch None (test_options None) = Return test_client
  /\ Draining w /\ _timeout (client w) <> None.
Proof.
  intros w. split; [reflexivity|].
  assert (Hd : Draining w) by discriminate.
  split; [exact Hd|].
  exact (proj1 (queue_set_only_with_timer_set mock_parseResponse None
                  (test_options None) test_client _ eq_refl) Hd).
Defined.

(** C3 at its failing input: [dispose] never changes the fields of the
    client.  Called while a request is queued, it rejects the request and
    cancels the timer, and leaves the queue set: the client is not idle. *)
Theorem dispose_leaves_the_queue_set :
  (forall w, client (dispose w) = client w)
  /\ let w := run mock_parseResponse (boot test_client)
                [CallAutoComplete "Test address" default_options;
                 AxiosSettles 0 (mock_status 429)] in
     Draining w
     /\ pending_timer w 0
     /\ future (dispose w) 0 = Rejected clearing_queue
     /\ timers (dispose w) = [{| timer_delay := of_Z 500;
                                 timer_state := TimerCleared |}]
     /\ _queue (client (dispose w))
        = Some [queued "Test address" default_options 1]
     /\ ~ Idle (dispose w)
     /\ _timeout (client (dispose w)) = Some 0.
Proof.
  split; [apply dispose_client|].
  cbv zeta. split; [intros H; vm_compute in H; discriminate H|].
  split; [eexists; split; reflexivity|].
  repeat split; try reflexivity. intros H. vm_compute in H. discriminate H.
Qed.

(** C10, as stated, does not hold: a request that joined the queue left
    behind by [dispose] is rejected by the next [dispose]. *)
Lemma later_dispose_rejects_stranded_request :
  ~ (forall after : list (Event MockData),
       let w := run mock_parseResponse (boot test_client)
                  [CallAutoComplete "A" default_options;
                   AxiosSettles 0 (mock_status 429); CallDispose] in
       let p := snd (autoComplete "B" default_options w) in
       let w2 := step mock_parseResponse w (CallAutoComplete "B" default_options) in
       future (run mock_parseResponse w2 after) p = Pending).
Proof.
  intros H. specialize (H [CallDispose]). vm_compute in H. discriminate H.
Qed.

Lemma dispose_while_draining_strands_the_queue_witness :
  let w := run mock_parseResponse (boot test_client)
             [CallAutoComplete "A" default_options;
              AxiosSettles 0 (mock_status 429)] in
  let w2 := step mock_parseResponse (dispose w)
              (CallAutoComplete "B" default_options) in
  new_FuzzySearch None (test_options None) = Return test_client
  /\ Draining w
  /\ Draining (run mock_parseResponse w2 [TimerFires 0])
  /\ calls w2 = calls (dispose w).
Proof.
  intros w w2.
  assert (Hd : Draining w) by discriminate.
  destruct (dispose_while_draining_strands_the_queue mock_parseResponse
              None (test_options None) test_client
              [CallAutoComplete "A" default_options;
               AxiosSettles 0 (mock_status 429)]
              [] [TimerFires 0] "B" default_options eq_refl Hd)
    as (_ & _ & Hcalls & _ & Hdr & _).
  split; [reflexivity|]. split; [exact Hd|]. split; [exact Hdr|exact Hcalls].
Defined.

Lemma failures_are_propagated_not_retried_witness :
  let w := step mock_parseResponse (boot test_client)
             (CallAutoComplete "Test address" default_options) in
  let w' := step mock_parseResponse w (AxiosSettles 0 mock_invalid) in
  future w' 0 = Rejected (Validation {| issues := "Invalid type" |})
  /\ length (calls w') = 1.
Proof.
  intros w w'.
  destruct (failures_are_propagated_not_retried mock_parseResponse)
    as (_ & _ & _ & H).
  destruct (H w 0 (new_call (encoded_request test_params "Test address"
                               default_options)
                            (InRunAutoComplete 0 "Test address" default_options))
              mock_invalid (Validation {| issues := "Invalid type" |})
              eq_refl eq_refl eq_refl eq_refl)
    as (H1 & H2 & _); [discriminate|].
  split; [exact H1|exact H2].
Defined.

(** C1, as stated, does not hold: [dispose] called while the request
    waits in the queue rejects it and cancels the timer, so no retry is
    ever issued, however many times [dispose] is called. *)
Lemma dispose_cancels_the_retry :
  ~ (forall n : nat,
       let w := run mock_parseResponse test_world
                  ([CallAutoComplete "Test address" default_options;
                    AxiosSettles 0 (mock_status 429)]
                   ++ repeat CallDispose n
                   ++ [TimerFires 0; AxiosSettles 1 mock_valid]) in
       future w 0 = Fulfilled VALID_RESULTS /\ length (calls w) = 2).
Proof.
  intros H. destruct (H 1) as [Hf _]. vm_compute in Hf. discriminate Hf.
Qed.

Lemma rate_limited_submission_retried_once_witness :
  let w := step mock_parseResponse test_world
             (CallAutoComplete "Test address" default_options) in
  let first := new_call (encoded_request test_params "Test address"
                           default_options)
                        (InRunAutoComplete 0 "Test address" default_options) in
  let req := queued "Test address" default_options 1 in
  let w1 := step mock_parseResponse w
              (AxiosSettles 0 (AxiosReject rate_limit_fault)) in
  (reachable mock_parseResponse w
   /\ calls w !! 0 = Some first
   /\ response_status rate_limit_fault = Some 429%Z
   /\ Idle w)
  /\ exists t i,
       let w3 := step mock_parseResponse (run mock_parseResponse w1 [])
                   (TimerFires t) in
       let w5 := step mock_parseResponse (run mock_parseResponse w3 [])
                   (AxiosSettles i mock_valid) in
       calls w3 !! i = Some (new_call (request first) (InDrain req))
       /\ future w5 0 = Fulfilled VALID_RESULTS.
Proof.
  intros w first req w1.
  assert (Hr : reachable mock_parseResponse w).
  { exists None, (test_options None), test_client,
      [CallAutoComplete "Test address" default_options].
    split; reflexivity. }
  assert (Hc : calls w !! 0 = Some first) by reflexivity.
  assert (Hs : response_status rate_limit_fault = Some 429%Z) by reflexivity.
  assert (Hi : Idle w) by reflexivity.
  split; [auto|].
  destruct (proj1 (rate_limited_submission_retried_once mock_parseResponse)
              w 0 first 0 "Test address" default_options rate_limit_fault
              Hr Hc eq_refl eq_refl Hs (or_introl Hi))
    as (_ & t & _ & _ & H).
  destruct (H [] (not_elem_of_nil _) (not_elem_of_nil _)) as (_ & i & _ & Hi3 & Hl).
  destruct (Hl [] mock_valid (fun out => not_elem_of_nil _)) as (_ & Hf & _).
  exists t, i. split; [exact Hi3|exact Hf].
Defined.

(** C4, as stated, does not hold for every address: a queued request whose
    address cannot be encoded gets no call from the drain, so the scenario
    of four submissions ends with four calls, not five. *)
Lemma drain_skips_unencodable_request :
  ~ (forall b : string,
       let w := run mock_parseResponse test_world
                  [CallAutoComplete "Test address" default_options;
                   AxiosSettles 0 (mock_status 429);
                   CallAutoComplete b default_options;
                   CallAutoComplete "Test address 2" default_options;
                   CallAutoComplete "Test address 3" default_options;
                   TimerFires 0] in
       length (calls w) = 5).
Proof.
  intros H. specialize (H lone_surrogate). vm_compute in H. discriminate H.
Qed.

Lemma submissions_while_draining_join_the_queue_witness :
  let w1 := run mock_parseResponse test_world
              [CallAutoComplete "Test address" default_options;
               AxiosSettles 0 (AxiosReject rate_limit_fault)] in
  let w2 := run mock_parseResponse w1
              [CallAutoComplete "Test address 1" default_options;
               CallAutoComplete "Test address 2" default_options;
               CallAutoComplete "Test address 3" default_options] in
  let w3 := step mock_parseResponse w2 (TimerFires 0) in
  let w4 := run mock_parseResponse w3
              [AxiosSettles 1 mock_valid; AxiosSettles 2 mock_valid;
               AxiosSettles 3 mock_valid; AxiosSettles 4 mock_valid] in
  Idle test_world
  /\ response_status rate_limit_fault = Some 429%Z
  /\ option_map (map address) (_queue (client w2))
     = Some ["Test address"; "Test address 1"; "Test address 2";
             "Test address 3"]
  /\ length (calls w4) = 5
  /\ Idle w4
  /\ future w4 3 = Fulfilled VALID_RESULTS.
Proof.
  intros w1 w2 w3 w4.
  assert (Hi : Idle test_world) by reflexivity.
  assert (Hs : response_status rate_limit_fault = Some 429%Z) by reflexivity.
  destruct (proj1 (proj2 (submissions_while_draining_join_the_queue
                             mock_parseResponse))
              test_world "Test address" "Test address 1" "Test address 2"
              "Test address 3" default_options default_options default_options
              default_options rate_limit_fault mock_valid mock_valid mock_valid
              mock_valid Hi eq_refl eq_refl eq_refl eq_refl Hs)
    as (_ & (Hq & _) & _ & (Hidle & Hcalls & _ & _ & Hfut & _)).
  split; [exact Hi|]. split; [exact Hs|].
  split; [exact (f_equal (option_map (map address)) Hq)|].
  split; [exact Hcalls|]. split; [exact Hidle|exact Hfut].
Defined.

(** ** The unit tests of the parameter builder, the mapper and the executor *)

Example getParams_provided_key :
  getParams None {| apiKey := Some "test"; delay := None; limit := None |}
  = Return test_params.
Proof. reflexivity. Qed.

Example getParams_no_key :
  getParams (Some "") no_options = Throw (Error missing_key_message).
Proof. reflexivity. Qed.

Example getParams_key_from_environment :
  getParams (Some "test") no_options = Return test_params.
Proof. reflexivity. Qed.

Example getParams_limit_too_large :
  getParams None (test_options (Some (of_Z 200))) = Return test_params.
Proof. reflexivity. Qed.

Example getParams_limit_too_small :
  getParams None (test_options (Some (of_Z 0)))
  = Return {| key := "test"; countrySet := "AU"; params_limit := of_Z 1 |}.
Proof. reflexivity. Qed.

Example getParams_limit_infinite :
  getParams None (test_options (Some PosInfinity)) = Return test_params.
Proof. reflexivity. Qed.

Example request_url_is_encoded :
  getAutoCompleteResults_request test_params "Test address" default_options
  = Return {| url := "https://api.tomtom.com/search/2/search/Test%20address.json";
              config_options := default_options;
              config_params := test_params |}.
Proof. reflexivity. Qed.

Example multibyte_address_is_encoded :
  encodeURIComponent
    ("caf" ++ String (ascii_of_nat 195) (String (ascii_of_nat 169) ""))%string
  = Return "caf%C3%A9".
Proof. reflexivity. Qed.

Example lone_surrogate_is_refused :
  encodeURIComponent lone_surrogate = Throw URIError
  /\ getAutoCompleteResults_request test_params lone_surrogate default_options
     = Throw URIError.
Proof. split; reflexivity. Qed.

Example unencodable_submission_issues_no_call :
  let w := step mock_parseResponse test_world
             (CallAutoComplete lone_surrogate default_options) in
  future w 0 = Rejected URIError /\ calls w = [] /\ Idle w.
Proof. repeat split. Qed.

Example unencodable_queued_request_is_rejected_by_the_drain :
  let w := run mock_parseResponse test_world
             [CallAutoComplete "Test address" default_options;
              AxiosSettles 0 (mock_status 429);
              CallAutoComplete lone_surrogate default_options;
              TimerFires 0; AxiosSettles 1 mock_valid] in
  future w 0 = Fulfilled VALID_RESULTS
  /\ future w 2 = Rejected URIError
  /\ length (calls w) = 2
  /\ Idle w.
Proof. repeat split. Qed.

Example valid_response_is_mapped :
  getAutoCompleteResults_resume mock_parseResponse mock_valid
  = Return VALID_RESULTS.
Proof. reflexivity. Qed.

Example invalid_response_throws_ValiError :
  getAutoCompleteResults_resume mock_parseResponse mock_invalid
  = Throw (Validation {| issues := "Invalid type" |}).
Proof. reflexivity. Qed.

Example status_429_throws_TooManyRequestsError :
  getAutoCompleteResults_resume mock_parseResponse (mock_status 429)
  = Throw TooManyRequestsError.
Proof. reflexivity. Qed.

Example other_failure_is_rethrown :
  getAutoCompleteResults_resume mock_parseResponse mock_network_failure
  = Throw (Transport {| message := "Failed"; response_status := None |}).
Proof. reflexivity. Qed.

Example always_rate_limited_fails_after_two_calls :
  let w := run mock_parseResponse test_world
             [CallAutoComplete "Test address" default_options;
              AxiosSettles 0 (mock_status 429); TimerFires 0;
              AxiosSettles 1 (mock_status 429)] in
  future w 0 = Rejected TooManyRequestsError
  /\ length (calls w) = 2
  /\ Idle w.
Proof. repeat split. Qed.

(* ===================================================================== *)
(** * Instances of the further properties *)

Definition rate_limited_world : World :=
  run mock_parseResponse test_world
    [CallAutoComplete "Test address" default_options;
     AxiosSettles 0 (AxiosReject rate_limit_fault)].

Definition draining_two_world : World :=
  run mock_parseResponse rate_limited_world
    [CallAutoComplete "Test address 1" default_options].

Lemma rate_limited_world_reachable : reachable mock_parseResponse rate_limited_world.
Proof.
  exists None, (test_options None), test_client,
    [CallAutoComplete "Test address" default_options;
     AxiosSettles 0 (AxiosReject rate_limit_fault)].
  split; reflexivity.
Qed.

Lemma test_world_reachable : reachable mock_parseResponse test_world.
Proof.
  exists None, (test_options None), test_client, []. split; reflexivity.
Qed.

Lemma new_FuzzySearch_construction_witness :
  new_FuzzySearch None (test_options None) = Return test_client
  /\ _delay test_client = of_Z 500.
Proof.
  destruct (new_FuzzySearch_construction None (test_options None)) as (_ & _ & H).
  split; [reflexivity|]. exact (proj2 (proj2 (proj2 (H test_client eq_refl)))).
Defined.

Lemma dispose_idle_is_noop_witness :
  Idle test_world /\ dispose test_world = test_world.
Proof.
  assert (Hi : Idle test_world) by reflexivity.
  split; [exact Hi|].
  exact (dispose_idle_is_noop mock_parseResponse test_world
           test_world_reachable Hi).
Defined.

Lemma dispose_rejects_the_queue_witness :
  _queue (client rate_limited_world)
  = Some [queued "Test address" default_options 1]
  /\ future (dispose rate_limited_world) 1 = Rejected clearing_queue
  /\ calls (dispose rate_limited_world) = calls rate_limited_world.
Proof.
  assert (Hq : _queue (client rate_limited_world)
               = Some [queued "Test address" default_options 1])
    by reflexivity.
  destruct (dispose_rejects_the_queue mock_parseResponse rate_limited_world _
              rate_limited_world_reachable Hq) as (H1 & _ & _ & H4).
  split; [exact Hq|]. split; [|exact H4].
  apply (H1 (queued "Test address" default_options 1)).
  - apply list_elem_of_here.
  - reflexivity.
Defined.

Lemma at_most_two_calls_per_submission_witness :
  new_FuzzySearch None (test_options None) = Return test_client
  /\ length (calls (run mock_parseResponse (boot test_client)
                      [CallAutoComplete "Test address" default_options;
                       AxiosSettles 0 (mock_status 429); TimerFires 0;
                       AxiosSettles 1 (mock_status 429)]))
     <= 2.
Proof.
  split; [reflexivity|].
  exact (at_most_two_calls_per_submission mock_parseResponse None
           (test_options None) test_client
           [CallAutoComplete "Test address" default_options;
            AxiosSettles 0 (mock_status 429); TimerFires 0;
            AxiosSettles 1 (mock_status 429)] eq_refl).
Defined.

Lemma every_request_uses_the_client_params_witness :
  let events := [CallAutoComplete "Test address" default_options;
                 AxiosSettles 0 (mock_status 429); TimerFires 0] in
  let retry := new_call (encoded_request test_params "Test address"
                           default_options)
                        (InDrain (queued "Test address" default_options 1)) in
  calls (run mock_parseResponse (boot test_client) events) !! 1 = Some retry
  /\ getAutoCompleteResults_request test_params "Test address" default_options
     = Return (request retry).
Proof.
  intros events retry.
  assert (Hc : calls (run mock_parseResponse (boot test_client) events) !! 1
               = Some retry) by reflexivity.
  destruct (every_request_uses_the_client_params mock_parseResponse None
              (test_options None) test_client events 1 retry eq_refl Hc)
    as (Hr & _).
  split; [exact Hc|exact Hr].
Defined.

Lemma idle_submission_answered_directly_witness :
  let w1 := step mock_parseResponse test_world
              (CallAutoComplete "Test address" default_options) in
  let w2 := step mock_parseResponse w1 (AxiosSettles 0 mock_valid) in
  Idle test_world
  /\ rate_limited (getAutoCompleteResults_resume mock_parseResponse mock_valid)
     = false
  /\ future w2 0 = Fulfilled VALID_RESULTS
  /\ length (calls w2) = 1.
Proof.
  intros w1 w2.
  assert (Hi : Idle test_world) by reflexivity.
  assert (Hr : rate_limited
                 (getAutoCompleteResults_resume mock_parseResponse mock_valid)
               = false) by reflexivity.
  destruct (proj1 (idle_submission_answered_directly mock_parseResponse
                     test_world "Test address" default_options mock_valid Hi)
              eq_refl Hr)
    as (_ & Hf & _ & Hl & _).
  split; [exact Hi|]. split; [exact Hr|]. split; [exact Hf|exact Hl].
Defined.


Lemma at_most_one_pending_timer_witness :
  pending_timer rate_limited_world 0
  /\ _timeout (client rate_limited_world) = Some 0
  /\ Draining rate_limited_world.
Proof.
  assert (Hp : pending_timer rate_limited_world 0)
    by (eexists; split; reflexivity).
  split; [exact Hp|].
  exact (proj2 (at_most_one_pending_timer mock_parseResponse rate_limited_world
                  0 0 rate_limited_world_reachable Hp Hp)).
Defined.

Lemma drain_answers_commute_witness :
  let w := step mock_parseResponse draining_two_world (TimerFires 0) in
  let first := AxiosSettles 1 mock_valid in
  let second := AxiosSettles 2 mock_invalid in
  length (calls w) = 3
  /\ run mock_parseResponse w [first; second]
     = run mock_parseResponse w [second; first].
Proof.
  intros w first second. split; [reflexivity|].
  assert (Hne : 1 <> 2) by discriminate.
  exact (drain_answers_commute mock_parseResponse w 1 2
           (retry_call test_params (queued "Test address" default_options 1))
           (retry_call test_params (queued "Test address 1" default_options 2))
           (queued "Test address" default_options 1)
           (queued "Test address 1" default_options 2)
           mock_valid mock_invalid
           eq_refl eq_refl eq_refl eq_refl eq_refl eq_refl Hne Hne
           eq_refl eq_refl).
Defined.

Lemma queued_requests_wait_for_the_drain_witness :
  _queue (client draining_two_world)
  = Some [queued "Test address" default_options 1;
          queued "Test address 1" default_options 2]
  /\ future draining_two_world 2 = Pending.
Proof.
  assert (Hq : _queue (client draining_two_world)
               = Some [queued "Test address" default_options 1;
                       queued "Test address 1" default_options 2])
    by reflexivity.
  assert (Hr : reachable mock_parseResponse draining_two_world).
  { exists None, (test_options None), test_client,
      [CallAutoComplete "Test address" default_options;
       AxiosSettles 0 (AxiosReject rate_limit_fault);
       CallAutoComplete "Test address 1" default_options].
    split; reflexivity. }
  destruct (queued_requests_wait_for_the_drain mock_parseResponse
              draining_two_world _ Hr Hq) as (_ & H & _).
  split; [exact Hq|].
  apply (H 0 (queued "Test address 1" default_options 2)).
  - eexists; split; reflexivity.
  - apply list_elem_of_further, list_elem_of_here.
Defined.

Lemma drain_settles_every_queued_request_witness :
  let w2 := run mock_parseResponse draining_two_world
              [TimerFires 0; AxiosSettles 1 mock_invalid;
               AxiosSettles 2 mock_valid] in
  pending_timer draining_two_world 0
  /\ Idle w2
  /\ future w2 2 = Fulfilled VALID_RESULTS.
Proof.
  intros w2.
  assert (Hp : pending_timer draining_two_world 0)
    by (eexists; split; reflexivity).
  assert (Hr : reachable mock_parseResponse draining_two_world).
  { exists None, (test_options None), test_client,
      [CallAutoComplete "Test address" default_options;
       AxiosSettles 0 (AxiosReject rate_limit_fault);
       CallAutoComplete "Test address 1" default_options].
    split; reflexivity. }
  destruct (drain_settles_every_queued_request mock_parseResponse
              draining_two_world 0
              [queued "Test address" default_options 1;
               queued "Test address 1" default_options 2]
              [mock_invalid; mock_valid] Hr Hp eq_refl eq_refl)
    as (_ & Hi & _ & _ & Hf & _).
  split; [exact Hp|]. split; [exact Hi|].
  exact (Hf 1 (queued "Test address 1" default_options 2) mock_valid
           eq_refl eq_refl).
Defined.

Lemma getParams_is_idempotent_witness :
  getParams None (test_options (Some (of_Z 200))) = Return test_params
  /\ getParams (Some "other")
       {| apiKey := Some "test"; delay := None; limit := Some (of_Z 100) |}
     = Return test_params.
Proof.
  split; [reflexivity|].
  exact (getParams_is_idempotent None (Some "other")
           (test_options (Some (of_Z 200))) test_params None eq_refl).
Defined.

Lemma getAutoCompleteDetails_one_lookup_witness :
  isWellFormed "Test address" = true
  /\ getAutoCompleteDetails mock_parseResponse (Some "test")
       (mock_transport (mock_status 429)) "Test address" None
     = Throw TooManyRequestsError.
Proof.
  destruct (getAutoCompleteDetails_one_lookup mock_parseResponse (Some "test")
              (mock_transport (mock_status 429)) "Test address" None)
    as (_ & _ & H).
  assert (Hne : "test" <> "") by discriminate.
  assert (Ha : isWellFormed "Test address" = true) by reflexivity.
  destruct (H "test" eq_refl Hne Ha) as (_ & _ & _ & H429).
  split; [exact Ha|]. exact (H429 _ eq_refl eq_refl).
Defined.

Lemma request_url_is_well_formed_witness :
  getAutoCompleteResults_request test_params "a/b?c" default_options
  = Return (encoded_request test_params "a/b?c" default_options)
  /\ exists segment,
       encodeURIComponent "a/b?c" = Return segment
       /\ url (encoded_request test_params "a/b?c" default_options)
          = (SEARCH_URL ++ "/" ++ segment ++ ".json")%string.
Proof.
  assert (Hr : getAutoCompleteResults_request test_params "a/b?c" default_options
               = Return (encoded_request test_params "a/b?c" default_options))
    by reflexivity.
  split; [exact Hr|].
  destruct (request_url_is_well_formed test_params "a/b?c" default_options _ Hr)
    as (segment & He & Hu & _).
  exists segment. split; [exact He|exact Hu].
Defined.

Lemma request_url_determines_the_address_witness :
  encodeURIComponent "Test address/1" = Return "Test%20address%2F1"
  /\ percent_decode "Test%20address%2F1" = "Test address/1".
Proof.
  assert (He : encodeURIComponent "Test address/1" = Return "Test%20address%2F1")
    by reflexivity.
  split; [exact He|].
  exact (proj1 (request_url_determines_the_address test_params test_params
                  "Test address/1" "" default_options default_options) _ He).
Defined.
